(** * Procedural terrain of racingGame2.5D: a shallow embedding of [Terrain]

    The development follows the three-material terrain class (central lane
    plus two borders): seeded generator, noise and easing helpers, the six
    shape generators, the height queries, the segment builder with its
    smoothing pass, and the streaming [update] tick.

    Conventions.
    - A JavaScript number is idealised as an exact canonical rational [Qc]:
      equality of two heights is Leibniz equality.  [NaN] and the infinities
      are modelled only where the code can receive them from outside (the
      tracked position, see [jsnumber]).
    - [Math.sin], [Math.cos] and [Math.PI] are implementation-approximated in
      JavaScript; they are the fields of the class [JSMath] and every theorem
      holds for every instance.
    - Rendering, physics and decoration pools are collaborators; every call
      that leaves the class is an event [Call] answered by the world [W].
      Collaborator calls are assumed not to throw. *)

From Stdlib Require Import QArith Qcanon Qround ZArith Lia Lra Psatz.
From Stdlib Require String.
From stdpp Require Import base decidable list numbers option.

Local Open Scope Z_scope.
Local Open Scope Qc_scope.

(** ** Numbers *)

Definition num (q : Q) : Qc := Q2Qc q.
Arguments num q%_Q.

Definition ofZ (z : Z) : Qc := Qc_of_Z z.

(** [Math.floor] on a finite number. *)
Definition Math_floor (x : Qc) : Z := Qfloor x.

Definition Math_min (a b : Qc) : Qc := if bool_decide (a ≤ b) then a else b.
Definition Math_max (a b : Qc) : Qc := if bool_decide (a ≤ b) then b else a.
Definition Math_abs (a : Qc) : Qc := if bool_decide (a < 0) then - a else a.

(** The [%] operator of JavaScript on finite numbers: the remainder has the
    sign of the dividend. *)
Definition js_trunc (x : Qc) : Z :=
  if bool_decide (x < 0) then (- Math_floor (- x))%Z else Math_floor x.
Definition js_rem (a b : Qc) : Qc := a - ofZ (js_trunc (a / b)) * b.

(** The transcendental part of the [Math] object. *)
Class JSMath := {
  Math_sin : Qc -> Qc;
  Math_cos : Qc -> Qc;
  Math_PI : Qc
}.

(** A value that is a number, [null] or [undefined]. *)
Inductive jsval := JNum (q : Qc) | JNull | JUndefined.

(** A number or [null] is an [option Qc]; in arithmetic [null] counts as 0. *)
Definition toNumber (o : option Qc) : Qc := default 0 o.

Definition jsval_of (o : option Qc) : jsval :=
  match o with Some q => JNum q | None => JNull end.

(** ** Data model *)

Inductive ChunkType := hills | plateau | ramp | gap | washboard | valley.

Global Instance ChunkType_eq_dec : EqDecision ChunkType.
Proof. solve_decision. Defined.

(** [{x, y, height}]: [height = null] marks a sample without ground. *)
Record SamplePoint := {
  pt_x : Qc;
  pt_y : option Qc;
  pt_height : option Qc
}.

(** The part of a segment the terrain class itself reads: the handles of its
    meshes, bodies and decorations belong to the collaborators.  [points] is
    [None] when the property is missing. *)
Record Segment := {
  startX : Qc;
  points : option (list SamplePoint);
  chunkType : ChunkType
}.

Record Terrain := {
  seed : Z;
  noiseOffsetX : Z;
  terrainMeshes : list Segment
}.

Definition segmentWidth : Qc := num 40.

Definition set_seed (s : Z) (t : Terrain) : Terrain :=
  {| seed := s; noiseOffsetX := noiseOffsetX t; terrainMeshes := terrainMeshes t |}.

Definition set_terrainMeshes (l : list Segment) (t : Terrain) : Terrain :=
  {| seed := seed t; noiseOffsetX := noiseOffsetX t; terrainMeshes := l |}.

(** ** Methods as state transformers on [this] *)

Definition M (A : Type) : Type := Terrain -> A * Terrain.

Global Instance M_ret : MRet M := fun _ a t => (a, t).
Global Instance M_bind : MBind M :=
  fun _ _ k m t => let (a, t') := m t in k a t'.

Definition gets {A} (f : Terrain -> A) : M A := fun t => (f t, t).
Definition modify (f : Terrain -> Terrain) : M unit := fun t => (tt, f t).

Global Instance M_fmap : FMap M :=
  fun _ _ f m t => let (a, t') := m t in (f a, t').

Definition eval {A} (m : M A) (t : Terrain) : A := fst (m t).
Definition exec {A} (m : M A) (t : Terrain) : Terrain := snd (m t).

(** ** Deterministic generator *)

Definition seededRandom : M Qc :=
  s ← gets seed;
  let s' := Z.rem (s * 9301 + 49297) 233280 in
  _ ← modify (set_seed s');
  mret (ofZ s' / num 233280).

Definition selectChunkType (difficulty : Qc) : M ChunkType :=
  rand ← seededRandom;
  mret
    (if bool_decide (difficulty < num 0.15) then
       if bool_decide (rand < num 0.7) then hills else plateau
     else if bool_decide (difficulty < num 0.3) then
       if bool_decide (rand < num 0.5) then hills
       else if bool_decide (rand < num 0.7) then plateau
       else if bool_decide (rand < num 0.9) then ramp
       else washboard
     else if bool_decide (difficulty < num 0.5) then
       if bool_decide (rand < num 0.3) then hills
       else if bool_decide (rand < num 0.5) then ramp
       else if bool_decide (rand < num 0.7) then washboard
       else if bool_decide (rand < num 0.9) then valley
       else gap
     else if bool_decide (difficulty < num 0.7) then
       if bool_decide (rand < num 0.2) then hills
       else if bool_decide (rand < num 0.4) then plateau
       else if bool_decide (rand < num 0.6) then washboard
       else if bool_decide (rand < num 0.8) then valley
       else gap
     else
       if bool_decide (rand < num 0.15) then hills
       else if bool_decide (rand < num 0.35) then ramp
       else if bool_decide (rand < num 0.55) then washboard
       else if bool_decide (rand < num 0.75) then valley
       else gap).

(** ** Easing and interpolation *)

Definition cubicInterpolation (t : Qc) : Qc := t * t * (num 3 - num 2 * t).

Definition quinticInterpolation (t : Qc) : Qc :=
  t * t * t * (t * (t * num 6 - num 15) + num 10).

Definition bezierInterpolation (t p0 p1 p2 p3 : Qc) : Qc :=
  let oneMinusT := 1 - t in
  oneMinusT * oneMinusT * oneMinusT * p0 +
  num 3 * oneMinusT * oneMinusT * t * p1 +
  num 3 * oneMinusT * t * t * p2 +
  t * t * t * p3.

Inductive Smoothness := linear | cubic | quintic.

Definition smoothTransition (t startHeight endHeight : Qc) (smoothness : Smoothness) : Qc :=
  let interpolationFunction :=
    match smoothness with
    | linear => fun t => t
    | cubic => cubicInterpolation
    | quintic => quinticInterpolation
    end in
  let factor := interpolationFunction t in
  startHeight * (1 - factor) + endHeight * factor.

(** ** Noise *)

Section Noise.
Context `{JSMath}.

(** [noise] reads [this.seed], the field [seededRandom] overwrites. *)
Definition noise (x : Qc) : M Qc :=
  let X := Z.land (Math_floor x) 255 in
  let x := x - ofZ (Math_floor x) in
  let fadeX := x * x * (num 3 - num 2 * x) in
  s ← gets seed;
  let offset := Z.rem s 256 in
  let h1 := Z.land (X + offset) 255 in
  let h2 := Z.land (X + 1 + offset) 255 in
  let n1 := Math_sin (ofZ h1 * num 37.1 + ofZ s * num 0.1) * num 43758.5453 in
  let n2 := Math_sin (ofZ h2 * num 37.1 + ofZ s * num 0.1) * num 43758.5453 in
  let res1 := (n1 - ofZ (Math_floor n1)) * num 2 - 1 in
  let res2 := (n2 - ofZ (Math_floor n2)) * num 2 - 1 in
  mret (res1 + fadeX * (res2 - res1)).

(** The octave loop of [improvedNoise]: [i] iterations are left. *)
Fixpoint improvedNoise_loop (i : nat) (seedX frequency persistence lacunarity : Qc)
    (total amplitude maxValue : Qc) : M (Qc * Qc) :=
  match i with
  | O => mret (total, maxValue)
  | S i' =>
      n ← noise (seedX * frequency);
      improvedNoise_loop i' seedX (frequency * lacunarity) persistence lacunarity
        (total + n * amplitude) (amplitude * persistence) (maxValue + amplitude)
  end.

Definition improvedNoise (x frequency : Qc) (octaves : nat) (persistence lacunarity : Qc) : M Qc :=
  off ← gets noiseOffsetX;
  let seedX := x + ofZ off in
  r ← improvedNoise_loop octaves seedX frequency persistence lacunarity 0 1 0;
  mret (r.1 / r.2).

End Noise.

(** ** Height queries and the hills generator *)

(** [arr[i]] for an integer-valued index. *)
Definition at_index {A} (l : list A) (i : Z) : option A :=
  if bool_decide (0 ≤ i)%Z then l !! Z.to_nat i else None.

(** [s.startX <= x && s.startX + segmentWidth > x], the test shared by both
    queries and by [update]. *)
Definition covers (x : Qc) (s : Segment) : bool :=
  bool_decide (startX s ≤ x) && bool_decide (x < startX s + segmentWidth).

(** Built segments only; [undefined] when nothing is known. *)
Definition getTerrainHeightNear (x : Qc) : M jsval :=
  segs ← gets terrainMeshes;
  mret
    match find (covers x) segs with
    | Some segment =>
        match points segment with
        | Some pts =>
            let pointIndex :=
              Math_floor ((x - startX segment) / segmentWidth * ofZ (Z.of_nat (length pts))) in
            match at_index pts pointIndex with
            | Some p => jsval_of (pt_y p)
            | None => JUndefined
            end
        | None => JUndefined
        end
    | None => JUndefined
    end.

(** The answer of [getTerrainHeightAt] inside the first segment that
    contains [x].  The sample index always falls inside a non-empty array
    (lemma [sample_index_in_range]); the [None] branches of the two lookups
    stand for the [TypeError] of reading a property of [undefined]. *)
Definition heightInSegment (segment : Segment) (x : Qc) : jsval :=
  match points segment with
  | None => JNum 0
  | Some [] => JNum 0
  | Some pts =>
      let len := Z.of_nat (length pts) in
      let normalizedX := (x - startX segment) / segmentWidth in
      let index := Math_floor (normalizedX * ofZ (len - 1)) in
      match at_index pts index with
      | Some p =>
          match pt_height p with
          | None => JNull
          | Some _ =>
              if bool_decide (index < len - 1)%Z then
                let x1 := startX segment + ofZ index / ofZ (len - 1) * segmentWidth in
                let x2 := startX segment + ofZ (index + 1) / ofZ (len - 1) * segmentWidth in
                let y1 := toNumber (pt_y p) in
                match at_index pts (index + 1) with
                | Some p2 =>
                    let y2 := toNumber (pt_y p2) in
                    let t := (x - x1) / (x2 - x1) in
                    JNum (y1 * (1 - cubicInterpolation t) + y2 * cubicInterpolation t)
                | None => JUndefined
                end
              else jsval_of (pt_y p)
          end
      | None => JUndefined
      end
  end.

Definition getTerrainHeightAt_with (fallback : Qc -> M Qc) (x : Qc) : M jsval :=
  segs ← gets terrainMeshes;
  match find (covers x) segs with
  | Some segment => mret (heightInSegment segment x)
  | None => h ← fallback x; mret (JNum h)
  end.

Section Generators.
Context `{JSMath}.

(** [generateHills], with the height query it calls back as a parameter. *)
Definition generateHills_with (heightAt : Qc -> M jsval)
    (x startX endX difficulty : Qc) : M Qc :=
  let adjustedDifficulty := Math_min (difficulty * num 0.6) (num 0.5) in
  let maxAmplitude := num 1.8 in
  let amplitude := Math_min (num 1.2 + adjustedDifficulty * num 1.3) maxAmplitude in
  baseNoise ← improvedNoise x (num 0.05) 3 (num 0.5) (num 2.0);
  detailNoise ← improvedNoise x (num 0.2) 2 (num 0.3) (num 2.5);
  let rawHeight := baseNoise * amplitude + detailNoise * (amplitude * num 0.3) in
  previousHeight ← getTerrainHeightNear (x - num 0.5);
  let borders : M Qc :=
    if bool_decide (x - startX < num 1.0) then
      let borderFactor := x - startX in
      prevSegmentHeight ← heightAt (startX - num 0.1);
      match prevSegmentHeight with
      | JNum p =>
          let t := quinticInterpolation borderFactor in
          mret (p * (1 - t) + rawHeight * t)
      | _ => mret rawHeight
      end
    else if bool_decide (endX - x < num 1.0) then
      let borderFactor := endX - x in
      nextSegmentHeight ← heightAt (endX + num 0.1);
      match nextSegmentHeight with
      | JNum n =>
          let t := quinticInterpolation borderFactor in
          mret (rawHeight * (1 - t) + n * t)
      | _ => mret rawHeight
      end
    else mret rawHeight in
  let limited (previous : Qc) : M Qc :=
    let delta := rawHeight - previous in
    let maxHeightDelta := num 0.15 in
    if bool_decide (maxHeightDelta < Math_abs delta) then
      let t := Math_min (Math_abs delta / maxHeightDelta) 1 in
      let smoothFactor := quinticInterpolation (1 - t) in
      mret (previous + delta * smoothFactor)
    else borders in
  match previousHeight with
  | JUndefined => borders
  | JNull => limited 0
  | JNum p => limited p
  end.

(** The mutual recursion of [getTerrainHeightAt] and [generateHills] is tied
    through a call budget [n]; the fallback span [x - 10, x + 10] never
    reaches a border branch, so every budget from 1 on gives the same
    function (lemma [getTerrainHeightAt_budget]). *)
Fixpoint getTerrainHeightAt_n (n : nat) (x : Qc) : M jsval :=
  getTerrainHeightAt_with
    (fun x' =>
       match n with
       | O => mret 0
       | S n' =>
           generateHills_with (getTerrainHeightAt_n n') x' (x' - num 10) (x' + num 10) (num 0.1)
       end) x.

Definition getTerrainHeightAt : Qc -> M jsval := getTerrainHeightAt_n 2.

Definition generateHills : Qc -> Qc -> Qc -> Qc -> M Qc :=
  generateHills_with getTerrainHeightAt.

(** ** The other shape generators *)

(** [a || b] on heights: 0, [null] and [undefined] are falsy. *)
Definition or_else (near : jsval) (other : M Qc) : M Qc :=
  match near with
  | JNum q => if bool_decide (q = 0) then other else mret q
  | _ => other
  end.

Definition generatePlateau (x startX endX difficulty : Qc) : M Qc :=
  let width := endX - startX in
  let baseHeight := Math_sin (startX * num 0.03) * num 4 in
  let distanceFromStart := x - startX in
  let distanceFromEnd := endX - x in
  let transitionWidth := width * num 0.2 in
  if bool_decide (distanceFromStart < transitionWidth) then
    near ← getTerrainHeightNear (startX - num 0.1);
    prevHeight ← or_else near
      (generateHills (startX - num 0.1) (startX - segmentWidth) startX difficulty);
    let t := distanceFromStart / transitionWidth in
    mret (smoothTransition t prevHeight baseHeight quintic)
  else if bool_decide (distanceFromEnd < transitionWidth) then
    near ← getTerrainHeightNear (endX + num 0.1);
    nextHeight ← or_else near
      (generateHills (endX + num 0.1) endX (endX + segmentWidth) difficulty);
    let t := distanceFromEnd / transitionWidth in
    mret (smoothTransition t nextHeight baseHeight quintic)
  else
    mret (baseHeight + Math_sin (x * num 0.3) * num 0.2 + Math_cos (x * num 0.7) * num 0.1).

Definition gapStart (startX endX difficulty : Qc) : Qc :=
  let adjustedDifficulty := Math_min (difficulty * num 0.7) (num 0.6) in
  let gapWidth := Math_min (num 3 + adjustedDifficulty * num 2) (num 5.0) in
  let gapCenter := (startX + endX) / num 2 in
  gapCenter - gapWidth / num 2.

Definition gapEnd (startX endX difficulty : Qc) : Qc :=
  let adjustedDifficulty := Math_min (difficulty * num 0.7) (num 0.6) in
  let gapWidth := Math_min (num 3 + adjustedDifficulty * num 2) (num 5.0) in
  let gapCenter := (startX + endX) / num 2 in
  gapCenter + gapWidth / num 2.

(** [None] is the [null] of the void window. *)
Definition generateGap (x startX endX difficulty : Qc) : M (option Qc) :=
  let adjustedDifficulty := Math_min (difficulty * num 0.7) (num 0.6) in
  let width := endX - startX in
  let gapStart := gapStart startX endX difficulty in
  let gapEnd := gapEnd startX endX difficulty in
  let transitionLength := width * num 0.15 in
  if bool_decide (x < gapStart - transitionLength) then
    preGapHeight ← generateHills x startX (gapStart - transitionLength)
                     (adjustedDifficulty * num 0.3);
    mret (Some (preGapHeight + num 0.5))
  else if bool_decide (x < gapStart) then
    h ← generateHills (gapStart - transitionLength) startX (gapStart - transitionLength)
          (adjustedDifficulty * num 0.3);
    let baseHeight := h + num 0.5 in
    let t := (x - (gapStart - transitionLength)) / transitionLength in
    mret (Some (smoothTransition t baseHeight (num (-24)) quintic))
  else if bool_decide (x < gapEnd) then
    mret None
  else if bool_decide (x < gapEnd + transitionLength) then
    h ← generateHills (gapEnd + transitionLength) (gapEnd + transitionLength) endX
          (adjustedDifficulty * num 0.3);
    let afterGapHeight := h + num 0.5 in
    let t := (x - gapEnd) / transitionLength in
    mret (Some (smoothTransition t (num (-24)) afterGapHeight quintic))
  else
    postGapHeight ← generateHills x (gapEnd + transitionLength) endX
                      (adjustedDifficulty * num 0.3);
    mret (Some (postGapHeight + num 0.5)).

Definition generateRamp (x startX endX difficulty : Qc) : M Qc :=
  let width := endX - startX in
  let adjustedDifficulty := Math_min (difficulty * num 0.7) (num 0.6) in
  let rampWidth := width * num 0.6 in
  let rampCenter := (startX + endX) / num 2 in
  let rampStart := rampCenter - rampWidth / num 2 in
  let rampPeak := rampCenter in
  let rampEnd := rampCenter + rampWidth / num 2 in
  let rampHeight := Math_min (num 3 + adjustedDifficulty * num 1.5) (num 5) in
  let transitionLength := width * num 0.15 in
  if bool_decide (x < rampStart) then
    baseHeight ← generateHills x startX rampStart (adjustedDifficulty * num 0.3);
    let distanceToRamp := rampStart - x in
    if bool_decide (distanceToRamp < transitionLength) then
      let t := 1 - distanceToRamp / transitionLength in
      mret (baseHeight + rampHeight * num 0.1 * cubicInterpolation t)
    else mret baseHeight
  else if bool_decide (x < rampPeak) then
    baseHeight ← generateHills rampStart startX rampStart (adjustedDifficulty * num 0.3);
    let t := (x - rampStart) / (rampPeak - rampStart) in
    let p0 := baseHeight in
    let p1 := baseHeight + rampHeight * num 0.3 in
    let p2 := baseHeight + rampHeight * num 0.7 in
    let p3 := baseHeight + rampHeight in
    mret (bezierInterpolation t p0 p1 p2 p3)
  else if bool_decide (x < rampEnd) then
    baseHeight ← generateHills rampStart startX rampStart (adjustedDifficulty * num 0.3);
    let peakHeight := baseHeight + rampHeight in
    let t := (x - rampPeak) / (rampEnd - rampPeak) in
    let p0 := peakHeight in
    let p1 := peakHeight - rampHeight * num 0.3 in
    let p2 := peakHeight - rampHeight * num 0.7 in
    let p3 := baseHeight in
    mret (bezierInterpolation t p0 p1 p2 p3)
  else
    baseHeight ← generateHills x rampEnd endX (adjustedDifficulty * num 0.3);
    let distanceFromRamp := x - rampEnd in
    if bool_decide (distanceFromRamp < transitionLength) then
      let t := distanceFromRamp / transitionLength in
      mret (baseHeight + rampHeight * num 0.1 * cubicInterpolation (1 - t))
    else mret baseHeight.

Definition generateWashboard (x startX endX difficulty : Qc) : M Qc :=
  let width := endX - startX in
  let adjustedDifficulty := Math_min (difficulty * num 0.7) (num 0.6) in
  let washboardCenter := (startX + endX) / num 2 in
  let washboardWidth := width * num 0.7 in
  let washboardStart := washboardCenter - washboardWidth / num 2 in
  let washboardEnd := washboardCenter + washboardWidth / num 2 in
  if bool_decide (x < washboardStart) then
    generateHills x startX washboardStart (adjustedDifficulty * num 0.3)
  else if bool_decide (x < washboardEnd) then
    baseHeight ← generateHills washboardStart startX washboardStart
                   (adjustedDifficulty * num 0.3);
    let normalizedX := (x - washboardStart) / (washboardEnd - washboardStart) in
    let phase := normalizedX * Math_PI * num 2 * num 8 in
    let maxAmplitude := Math_min (num 0.7 + adjustedDifficulty * num 0.6) (num 1.5) in
    let fadeLength := washboardWidth * num 0.2 in
    let distFromStart := x - washboardStart in
    let distFromEnd := washboardEnd - x in
    let amplitudeFactor :=
      if bool_decide (distFromStart < fadeLength) then
        cubicInterpolation (distFromStart / fadeLength)
      else if bool_decide (distFromEnd < fadeLength) then
        cubicInterpolation (distFromEnd / fadeLength)
      else num 1.0 in
    let mainWave := Math_sin phase * maxAmplitude in
    let secondaryWave := Math_sin (phase * num 2) * (maxAmplitude * num 0.2) in
    mret (baseHeight + (mainWave + secondaryWave) * amplitudeFactor)
  else
    generateHills x washboardEnd endX (adjustedDifficulty * num 0.3).

Definition generateValley (x startX endX difficulty : Qc) : M Qc :=
  let width := endX - startX in
  let adjustedDifficulty := Math_min (difficulty * num 0.7) (num 0.6) in
  let valleyWidth := width * num 0.8 in
  let valleyDepth := Math_min (num 3 + adjustedDifficulty * num 2) (num 6) in
  let valleyCenter := (startX + endX) / num 2 in
  let valleyStart := valleyCenter - valleyWidth / num 2 in
  let valleyEnd := valleyCenter + valleyWidth / num 2 in
  if bool_decide (x < valleyStart) then
    generateHills x startX valleyStart (adjustedDifficulty * num 0.3)
  else if bool_decide (x < valleyEnd) then
    baseHeight ← generateHills valleyStart startX valleyStart
                   (adjustedDifficulty * num 0.3);
    let t := (x - valleyStart) / valleyWidth in
    let valleyShape := (1 - Math_cos (Math_PI * num 2 * t)) / num 2 in
    let irregularities :=
      Math_sin (x * num 0.5) * num 0.3 + Math_cos (x * num 0.3) * num 0.2 in
    mret (baseHeight - valleyDepth * (1 - valleyShape) + irregularities * num 0.3)
  else
    generateHills x valleyEnd endX (adjustedDifficulty * num 0.3).

End Generators.

(** ** Smoothing pass *)

Definition windowSize : Z := 5.
Definition halfWindow : Z := windowSize / 2.

(** Positions, in the [points] array, of the elements of
    [validPoints = points.filter(p => p.height !== null)].  The filtered
    array holds the same objects, so a write through it is a write to
    [points] at that position. *)
Fixpoint validFrom (i : nat) (points : list SamplePoint) : list nat :=
  match points with
  | [] => []
  | p :: ps =>
      match pt_height p with
      | Some _ => i :: validFrom (S i) ps
      | None => validFrom (S i) ps
      end
  end.

Definition weight (j : Z) : Qc := num 1.0 - ofZ (Z.abs j) / ofZ (halfWindow + 1).

(** The inner loop over [j = -halfWindow .. halfWindow]. *)
Definition windowSum (originalHeights : list Qc) (i : Z) : Qc :=
  foldl (fun sum j => sum + default 0 (at_index originalHeights (i + j)) * weight j)
        0 [-2; -1; 0; 1; 2]%Z.

Definition set_y (v : Qc) (p : SamplePoint) : SamplePoint :=
  {| pt_x := pt_x p; pt_y := Some v; pt_height := pt_height p |}.

(** One round of the last loop: [validPoint] is the object at position [k]. *)
Definition writeBack (points : list SamplePoint) (k : nat) : list SamplePoint :=
  match points !! k with
  | Some validPoint =>
      match list_find (fun p => pt_x p = pt_x validPoint) points with
      | Some (j, originalPoint) =>
          match pt_height originalPoint with
          | Some _ =>
              <[j := {| pt_x := pt_x originalPoint;
                        pt_y := pt_y validPoint;
                        pt_height := pt_y validPoint |}]> points
          | None => points
          end
      | None => points
      end
  | None => points
  end.

Definition smoothSegmentPoints (points : list SamplePoint) : list SamplePoint :=
  if bool_decide (length points < 5)%nat then points
  else
    let validPoints := validFrom 0 points in
    if bool_decide (length validPoints < 5)%nat then points
    else
      let originalHeights :=
        map (fun k => toNumber (p ← points !! k; pt_y p)) validPoints in
      let smoothed :=
        foldl
          (fun pts i =>
             match validPoints !! i with
             | Some k =>
                 alter (set_y (windowSum originalHeights (Z.of_nat i) / ofZ windowSize)) k pts
             | None => pts
             end)
          points
          (seq (Z.to_nat halfWindow) (length validPoints - 2 * Z.to_nat halfWindow)) in
      foldl writeBack smoothed validPoints.

(** ** Sampling a segment *)

Definition nbPoints : nat := 30.

Fixpoint mapM {A B} (f : A -> M B) (l : list A) : M (list B) :=
  match l with
  | [] => mret []
  | a :: l' => b ← f a; bs ← mapM f l'; mret (b :: bs)
  end.

Definition difficultyAt (startX : Qc) : Qc :=
  Math_min (num 0.99) (Math_max 0 (Math_abs startX / num 5000)).

(** The height of the last sample of the last stored segment, [Some None]
    when it is [null] or the store is empty, and [None] for the [TypeError]
    raised when that segment has no sample to read. *)
Definition previousEndHeight (segs : list Segment) : option (option Qc) :=
  match list.last segs with
  | None => Some None
  | Some s =>
      match points s with
      | Some pts => pt_height <$> list.last pts
      | None => None
      end
  end.

Section Sampling.
Context `{JSMath}.

Definition samplePoint (chunkType : ChunkType) (difficulty startX : Qc)
    (previousEndHeight : option Qc) (i : nat) : M SamplePoint :=
  let x := startX + ofZ (Z.of_nat i) / ofZ (Z.of_nat nbPoints - 1) * segmentWidth in
  let normalizedX := ofZ (Z.of_nat i) / ofZ (Z.of_nat nbPoints - 1) in
  let isGap :=
    bool_decide (chunkType = gap) && bool_decide (num 0.3 < normalizedX)
    && bool_decide (normalizedX < num 0.7) in
  generated ←
    match chunkType with
    | hills => Some <$> generateHills x startX (startX + segmentWidth) difficulty
    | plateau => Some <$> generatePlateau x startX (startX + segmentWidth) difficulty
    | ramp => Some <$> generateRamp x startX (startX + segmentWidth) difficulty
    | gap => generateGap x startX (startX + segmentWidth) difficulty
    | washboard => Some <$> generateWashboard x startX (startX + segmentWidth) difficulty
    | valley => Some <$> generateValley x startX (startX + segmentWidth) difficulty
    end;
  let y :=
    match previousEndHeight with
    | Some prev =>
        if bool_decide (0 < i)%nat && bool_decide (i < 5)%nat then
          let blendFactor := 1 - quinticInterpolation (ofZ (Z.of_nat i) / num 5) in
          let generatedY := toNumber generated in
          Some (prev * blendFactor + generatedY * (1 - blendFactor))
        else generated
    | None => generated
    end in
  mret {| pt_x := x;
          pt_y := if isGap then Some (num (-24)) else y;
          pt_height := if isGap then None else y |}.

(** The sampling loop followed by the smoothing pass. *)
Definition buildPoints (chunkType : ChunkType) (difficulty startX : Qc)
    (previousEndHeight : option Qc) : M (list SamplePoint) :=
  pts ← mapM (samplePoint chunkType difficulty startX previousEndHeight) (seq 0 nbPoints);
  mret (smoothSegmentPoints pts).

End Sampling.

(** ** Collaborators *)

Inductive MeshPart := central | left | right.
Inductive DecorationType := ROCK | TREE | SIGN.

(** What leaves the terrain class.  The answer is a number: the draw of
    [Math.random], or for a factory a truthy (non-zero) or falsy (zero)
    result. *)
Inductive Call :=
| MathRandom
| SceneAddMesh (part : MeshPart) (points : list SamplePoint)
| PhysicsAddBody (cx cy cz : Qc)
| CreateRockDecoration (x : Qc) (y : option Qc) (segmentType : ChunkType)
| CreateTreeModel (index : Z)
| CreateSignModel (index : Z)
| SceneAddDecoration (type : DecorationType) (x y z scale : Qc)
| RemoveSegment (segment : Segment)
| ApplyLOD (segment : Segment) (distanceFromPlayer : Qc)
| UpdateTerrainInfo (currentSegmentIndex : Z) (currentChunkType : ChunkType)
| ConsoleWarn.

Class Collaborators (W : Type) := { answer : Call -> W -> Qc * W }.

(** Methods that also talk to the collaborators. *)
Definition E (W A : Type) : Type := W -> Terrain -> A * W * Terrain.

Global Instance E_ret W : MRet (E W) := fun _ a w t => (a, w, t).
Global Instance E_bind W : MBind (E W) :=
  fun _ _ k m w t => let '(a, w', t') := m w t in k a w' t'.

Definition liftM {W A} (m : M A) : E W A :=
  fun w t => let (a, t') := m t in (a, w, t').

Definition ext `{Collaborators W} (c : Call) : E W Qc :=
  fun w t => let (a, w') := answer c w in (a, w', t).

(** [for (const a of l) body(a)]. *)
Fixpoint forEach {W A} (l : list A) (body : A -> E W unit) : E W unit :=
  match l with
  | [] => mret tt
  | a :: l' => _ ← body a; forEach l' body
  end.

Definition when_ {W} (b : bool) (m : E W unit) : E W unit :=
  if b then m else mret tt.

(** ** Physics of a segment *)

Definition centralWidth : Qc := num 6.
Definition bordersWidth : Qc := num 20.
Definition SEGMENT_STEP : nat := 3.
Definition SKIP_MINOR_SEGMENTS : bool := true.

Definition heightsOf (points : list SamplePoint) : list Qc :=
  omap pt_height points.

Definition sumQc (l : list Qc) : Qc := foldl Qcplus 0 l.

Definition firstX (points : list SamplePoint) : Qc := default 0 (pt_x <$> head points).
Definition lastX (points : list SamplePoint) : Qc := default 0 (pt_x <$> list.last points).

Section Physics.
Context `{Collaborators W}.

Definition createSideBarriers (points : list SamplePoint) : E W unit :=
  if bool_decide (length points < 2)%nat then mret tt
  else
    let startX := firstX points in
    let endX := lastX points in
    let segmentLength := endX - startX in
    let barrierHeight := num 15 in
    forEach [num (-1); num 1]
      (fun side =>
         let zOffset := side * (centralWidth / num 2 + bordersWidth / num 2) in
         let avgHeight :=
           sumQc (heightsOf points) / ofZ (Z.of_nat (length (heightsOf points))) in
         _ ← ext (PhysicsAddBody (startX + segmentLength / num 2)
                                 (avgHeight + barrierHeight / num 2) zOffset);
         mret tt).

(** [for (let i = 0; i < points.length - 1; i += segmentStep)], unrolled over
    the indices it visits. *)
Definition strideIndices (len step : nat) : list nat :=
  filter (fun i => Nat.divide step i) (seq 0 (len - 1)).

Definition createPhysicsSegment (points : list SamplePoint)
    (segmentStep : nat) (skipMinorSegments : bool) : E W unit :=
  forEach (strideIndices (length points) segmentStep)
    (fun i =>
       match points !! i, points !! (Nat.min (i + segmentStep) (length points - 1)) with
       | Some p1, Some p2 =>
           let segmentLength := Math_abs (pt_x p2 - pt_x p1) in
           if skipMinorSegments && bool_decide (segmentLength < num 0.5) then mret tt
           else
             let height := 1 in
             let cx := (pt_x p2 + pt_x p1) / num 2 in
             let cy := (toNumber (pt_y p2) + toNumber (pt_y p1)) / num 2 in
             _ ← ext (PhysicsAddBody cx (cy - height / num 2) 0);
             mret tt
       | _, _ => mret tt
       end).

(** One sub-segment of the backdrop: a draw of the seeded generator exactly
    when the sub-segment has a sample with ground. *)
Definition backgroundSubsegment (points : list SamplePoint) (startX segmentLength : Qc)
    (zOffset depthFactor : Qc) (i : nat) : E W unit :=
  let subsegments := 3%nat in
  let subsegmentLength := segmentLength / num 3 in
  let subsegmentX := startX + ofZ (Z.of_nat i) * subsegmentLength in
  let startIdx := (i * length points / subsegments)%nat in
  let endIdx := ((i + 1) * length points / subsegments)%nat in
  let window := heightsOf (take (endIdx - startIdx) (drop startIdx points)) in
  let count := length window in
  if bool_decide (0 < count)%nat then
    let avgHeight := sumQc window / ofZ (Z.of_nat count) in
    r ← liftM seededRandom;
    let heightVariation := (1 - depthFactor) * num 5 * (r * num 2 - 1) in
    let avgHeight := avgHeight + heightVariation in
    _ ← ext (PhysicsAddBody (subsegmentX + subsegmentLength / num 2)
                            (avgHeight + num 2) zOffset);
    mret tt
  else mret tt.

Definition createBackgroundPhysics (points : list SamplePoint) : E W unit :=
  if bool_decide (length points < 2)%nat then mret tt
  else
    let startX := firstX points in
    let endX := lastX points in
    let segmentLength := endX - startX in
    forEach [num (-1); num 1]
      (fun side =>
         let baseZ := side * (centralWidth / num 2 + bordersWidth / num 2) in
         forEach [num 0.3; num 0.7; num 1.0]
           (fun depthFactor =>
              let zOffset := baseZ * depthFactor in
              forEach (seq 0 3)
                (backgroundSubsegment points startX segmentLength zOffset depthFactor))).

Definition createPhysicsForSegment (points : list SamplePoint) (chunkType : ChunkType)
    : E W unit :=
  _ ← createSideBarriers points;
  _ ← createPhysicsSegment points SEGMENT_STEP SKIP_MINOR_SEGMENTS;
  createBackgroundPhysics points.

End Physics.

(** ** Decorations *)

Record Zone := {
  zMin : Qc;
  zMax : Qc;
  densityFactor : Qc;
  decorTypes : list DecorationType
}.

Definition zones : list Zone :=
  [ {| zMin := - centralWidth / num 2; zMax := centralWidth / num 2;
       densityFactor := num 0.3; decorTypes := [ROCK] |};
    {| zMin := - centralWidth / num 2 - num 5; zMax := - centralWidth / num 2;
       densityFactor := num 1.0; decorTypes := [ROCK; TREE; SIGN] |};
    {| zMin := centralWidth / num 2; zMax := centralWidth / num 2 + num 5;
       densityFactor := num 1.0; decorTypes := [ROCK; TREE; SIGN] |};
    {| zMin := - centralWidth / num 2 - bordersWidth; zMax := - centralWidth / num 2 - num 5;
       densityFactor := num 2.0; decorTypes := [ROCK; TREE] |};
    {| zMin := centralWidth / num 2 + num 5; zMax := centralWidth / num 2 + bordersWidth;
       densityFactor := num 2.0; decorTypes := [ROCK; TREE] |} ].

Definition baseDensity (d : DecorationType) : Qc :=
  match d with TREE => num 0.1 | ROCK => num 0.1 | SIGN => num 0.2 end.

Definition terrainMultiplier (chunkType : ChunkType) : Qc :=
  match chunkType with
  | hills => num 1.8
  | plateau => num 1.5
  | ramp => num 0.8
  | washboard => num 0.6
  | valley => num 1.0
  | gap => num 1.2
  end.

Global Instance DecorationType_eq_dec : EqDecision DecorationType.
Proof. solve_decision. Defined.

(** [points.filter((p, i) => i > 2 && i < points.length - 3 && p.height !== null)] *)
Fixpoint availableFrom (i len : nat) (points : list SamplePoint) : list SamplePoint :=
  match points with
  | [] => []
  | p :: ps =>
      if bool_decide (2 < i)%nat && bool_decide (i + 3 < len)%nat
         && bool_decide (is_Some (pt_height p))
      then p :: availableFrom (S i) len ps
      else availableFrom (S i) len ps
  end.

Definition availablePoints (points : list SamplePoint) : list SamplePoint :=
  availableFrom 0 (length points) points.

(** [usedPositions] is never filled, so only the lane test is left. *)
Definition isSpaceAvailable (chunkType : ChunkType) (z : Qc) : bool :=
  if bool_decide (Math_abs z < num 1.5) && bool_decide (chunkType ≠ plateau)
  then false else true.

(** How many decorations of one type a zone asks for. *)
Definition decorationCount (nbPoints : nat) (d : DecorationType) (zone : Zone)
    (chunkType : ChunkType) (divisor : Qc) : nat :=
  Z.to_nat (Math_floor (ofZ (Z.of_nat nbPoints) * baseDensity d * densityFactor zone
                        * terrainMultiplier chunkType
                        * ((zMax zone - zMin zone) / divisor))).

Section Decorations.
Context `{Collaborators W}.

(** One draw of the seeded generator when a sample is available. *)
Definition getRandomPoint (available : list SamplePoint) : E W (option SamplePoint) :=
  if bool_decide (length available = 0)%nat then mret None
  else
    r ← liftM seededRandom;
    let index := Math_floor (r * ofZ (Z.of_nat (length available))) in
    mret (at_index available index).

Definition placeRock (chunkType : ChunkType) (zone : Zone) (point : SamplePoint)
    : E W unit :=
  r1 ← ext MathRandom;
  let posX := pt_x point + (r1 - num 0.5) * num 3 in
  r2 ← ext MathRandom;
  let posZ := zMin zone + r2 * (zMax zone - zMin zone) in
  when_ (isSpaceAvailable chunkType posZ)
    (rockDecoration ← ext (CreateRockDecoration posX (pt_y point) chunkType);
     when_ (bool_decide (rockDecoration ≠ 0))
       (r3 ← ext MathRandom;
        let scale := num 0.6 + r3 * num 0.8 in
        _ ← ext (SceneAddDecoration ROCK posX (toNumber (pt_y point)) posZ scale);
        mret tt)).

Definition placeTree (chunkType : ChunkType) (zone : Zone) (point : SamplePoint)
    : E W unit :=
  r1 ← ext MathRandom;
  let posX := pt_x point + (r1 - num 0.5) * num 4 in
  r2 ← ext MathRandom;
  let posZ := zMin zone + r2 * (zMax zone - zMin zone) in
  when_ (isSpaceAvailable chunkType posZ)
    (r3 ← ext MathRandom;
     treeModel ← ext (CreateTreeModel (Math_floor (r3 * num 100)));
     when_ (bool_decide (treeModel ≠ 0))
       (let distanceFromCenter := Math_abs posZ in
        r4 ← ext MathRandom;
        let scaleFactor := num 0.7 + distanceFromCenter / num 15 * num 0.4 + r4 * num 0.3 in
        _ ← ext MathRandom;
        _ ← ext MathRandom;
        _ ← ext MathRandom;
        _ ← ext (SceneAddDecoration TREE posX (toNumber (pt_y point)) posZ scaleFactor);
        mret tt)).

Definition placeSign (chunkType : ChunkType) (zone : Zone) (i : nat) (point : SamplePoint)
    : E W unit :=
  r1 ← ext MathRandom;
  let posX := pt_x point + (r1 - num 0.5) * num 3 in
  r2 ← ext MathRandom;
  let posZ := zMin zone + r2 * (zMax zone - zMin zone) in
  when_ (isSpaceAvailable chunkType posZ)
    (r3 ← ext MathRandom;
     signModel ← ext (CreateSignModel (Z.of_nat i + Math_floor (r3 * num 10)));
     when_ (bool_decide (signModel ≠ 0))
       (_ ← ext MathRandom;
        r5 ← ext MathRandom;
        let scale := num 0.7 + r5 * num 0.3 in
        _ ← ext (SceneAddDecoration SIGN posX (toNumber (pt_y point) + num 0.1) posZ scale);
        mret tt)).

(** The sign set at the key positions, without any draw of the seeded
    generator. *)
Definition placeKeySign (startX : Qc) (available : list SamplePoint) : E W unit :=
  when_ ((bool_decide (js_rem startX (num 50) < num 10)
          || bool_decide (js_rem startX (num 100) < num 20))
         && bool_decide (num 10 < startX))
    match available !! (length available / 3)%nat with
    | Some signPoint =>
        let fifty := Math_floor (startX / num 50) in
        let side := if bool_decide (Z.rem fifty 2 = 0%Z) then num (-2.5) else num 2.5 in
        signModel ← ext (CreateSignModel (Z.rem fifty 3));
        when_ (bool_decide (signModel ≠ 0))
          (r ← ext MathRandom;
           let scale := num 0.8 + r * num 0.4 in
           _ ← ext (SceneAddDecoration SIGN (pt_x signPoint)
                      (toNumber (pt_y signPoint) + num 0.1) side scale);
           mret tt)
    | None => mret tt
    end.

(** [for (let i = 0; i < count; i++) { const point = getRandomPoint();
    if (!point) continue; place(i, point) }] *)
Definition decorationLoop (count : nat) (available : list SamplePoint)
    (place : nat -> SamplePoint -> E W unit) : E W unit :=
  forEach (seq 0 count)
    (fun i =>
       point ← getRandomPoint available;
       match point with
       | Some p => place i p
       | None => mret tt
       end).

Definition decorateZone (startX : Qc) (points : list SamplePoint)
    (chunkType : ChunkType) (zone : Zone) : E W unit :=
  let nbPoints := Nat.min (length points) 40 in
  let available := availablePoints points in
  _ ← when_ (bool_decide (ROCK ∈ decorTypes zone))
        (decorationLoop (decorationCount nbPoints ROCK zone chunkType (num 5)) available
           (fun _ => placeRock chunkType zone));
  _ ← when_ (bool_decide (TREE ∈ decorTypes zone))
        (decorationLoop (decorationCount nbPoints TREE zone chunkType (num 5)) available
           (fun _ => placeTree chunkType zone));
  when_ (bool_decide (SIGN ∈ decorTypes zone))
    (_ ← placeKeySign startX available;
     decorationLoop (decorationCount nbPoints SIGN zone chunkType (num 10)) available
       (placeSign chunkType zone)).

Definition addTerrainDecorations (startX : Qc) (points : list SamplePoint)
    (chunkType : ChunkType) : E W unit :=
  forEach zones (decorateZone startX points chunkType).

End Decorations.

(** ** Building a segment *)

Section Builder.
Context `{JSMath} `{Collaborators W}.

Definition push (segment : Segment) (t : Terrain) : Terrain :=
  set_terrainMeshes (terrainMeshes t ++ [segment]) t.

(** [None] is the [TypeError] of reading the last sample of a stored segment
    that has none; the draw of [selectChunkType] has happened by then. *)
Definition createTerrainSegment (startX : Qc) : E W (option Segment) :=
  let difficulty := difficultyAt startX in
  chunkType ← liftM (selectChunkType difficulty);
  segs ← liftM (gets terrainMeshes);
  match previousEndHeight segs with
  | None => mret None
  | Some previous =>
      points ← liftM (buildPoints chunkType difficulty startX previous);
      _ ← ext (SceneAddMesh central points);
      _ ← ext (SceneAddMesh left points);
      _ ← ext (SceneAddMesh right points);
      _ ← createPhysicsForSegment points chunkType;
      let segment :=
        {| startX := startX; points := Some points; chunkType := chunkType |} in
      _ ← addTerrainDecorations startX points chunkType;
      _ ← liftM (modify (push segment));
      mret (Some segment)
  end.

(** Calls in a row, each caller going on after an exception. *)
Fixpoint createTerrainSegments (xs : list Qc) : E W (list (option Segment)) :=
  match xs with
  | [] => mret []
  | x :: xs' =>
      r ← createTerrainSegment x;
      rs ← createTerrainSegments xs';
      mret (r :: rs)
  end.

(** [initialize]: segments [-5 .. 14]; an exception ends the loop. *)
Fixpoint initialize_loop (n : nat) (i : Z) : E W (option unit) :=
  match n with
  | O => mret (Some tt)
  | S n' =>
      r ← createTerrainSegment (ofZ i * segmentWidth);
      match r with
      | Some _ => initialize_loop n' (i + 1)
      | None => mret None
      end
  end.

Definition initialize : E W (option unit) :=
  let initialSegments := 20%nat in
  let startOffset := (-5)%Z in
  initialize_loop initialSegments startOffset.

(** The state a constructor call with [seed] leaves behind. *)
Definition newTerrain (seed : Z) : Terrain :=
  {| seed := seed; noiseOffsetX := Z.rem seed 10000; terrainMeshes := [] |}.

Definition constructor (seed : Z) (w : W) : option unit * W * Terrain :=
  initialize w (newTerrain seed).

End Builder.

(** ** The streaming tick *)

(** A JavaScript number as the caller can pass it. *)
Inductive jsnumber := NaN | PosInf | NegInf | Fin (q : Qc).

(** [NoPosition]: [vehiclePosition] is falsy or its [x] is not of type
    number. *)
Inductive Position := NoPosition | PositionX (x : jsnumber).

(** [Math.floor(x / segmentWidth)] *)
Definition segmentIndexOf (x : jsnumber) : jsnumber :=
  match x with
  | Fin q => Fin (ofZ (Math_floor (q / segmentWidth)))
  | other => other
  end.

(** A segment index that passed [isNaN(i) || i < 0]. *)
Inductive Index := Finite (z : Z) | Infinite.

Definition validIndex (x : jsnumber) : option Index :=
  match segmentIndexOf x with
  | NaN => None
  | NegInf => None
  | PosInf => Some Infinite
  | Fin q => if bool_decide (q < 0) then None else Some (Finite (Math_floor q))
  end.

Definition coversNumber (x : jsnumber) (s : Segment) : bool :=
  match x with
  | Fin q => covers q s
  | _ => false
  end.

Definition indexOfSegment (s : Segment) : Z := Math_floor (startX s / segmentWidth).

Definition VISIBLE_CHUNKS_AHEAD : Z := 5.
Definition VISIBLE_CHUNKS_BEHIND : Z := 5.

(** [a >= i + k], [i > k] and [a < i - k] against a validated index. *)
Definition reaches (a : Z) (i : Index) (k : Z) : bool :=
  match i with Finite z => bool_decide (z + k ≤ a)%Z | Infinite => false end.
Definition exceeds (i : Index) (k : Z) : bool :=
  match i with Finite z => bool_decide (k < z)%Z | Infinite => true end.
Definition behind (a : Z) (i : Index) (k : Z) : bool :=
  match i with Finite z => bool_decide (a < z - k)%Z | Infinite => true end.

Inductive Outcome := Aborted | Completed.

Section Update.
Context `{JSMath} `{Collaborators W}.

(** The loop that drops repeated [startX], first occurrence kept.
    [removeSegment] releases the handles of the dropped object. *)
Fixpoint uniqueSegments (segs : list Segment) (processedStartX : list Qc)
    : E W (list Segment) :=
  match segs with
  | [] => mret []
  | segment :: rest =>
      if bool_decide (startX segment ∈ processedStartX) then
        _ ← ext (RemoveSegment segment);
        uniqueSegments rest processedStartX
      else
        kept ← uniqueSegments rest (startX segment :: processedStartX);
        mret (segment :: kept)
  end.

(** The [while (true)] generation loop inside its [try]; the result is the
    set [existingSegmentsStartX] at the exit, [None] while the loop is still
    turning when the step budget is spent. *)
Fixpoint generateAhead (budget : nat) (currentSegmentIndex : Index)
    (existingSegmentsStartX : list Qc) : E W (option (list Qc)) :=
  match budget with
  | O => mret None
  | S budget' =>
      segs ← liftM (gets terrainMeshes);
      let lastSegmentIndex :=
        match list.last segs with
        | Some lastSegment => indexOfSegment lastSegment
        | None => (-1)%Z
        end in
      if reaches lastSegmentIndex currentSegmentIndex VISIBLE_CHUNKS_AHEAD then
        mret (Some existingSegmentsStartX)
      else
        let nextStartX :=
          match list.last segs with
          | Some lastSegment => startX lastSegment + segmentWidth
          | None => 0
          end in
        if bool_decide (nextStartX ∈ existingSegmentsStartX) then
          _ ← ext ConsoleWarn;
          generateAhead budget' currentSegmentIndex existingSegmentsStartX
        else
          created ← createTerrainSegment nextStartX;
          match created with
          | Some _ =>
              generateAhead budget' currentSegmentIndex (nextStartX :: existingSegmentsStartX)
          | None => mret (Some existingSegmentsStartX)
          end
  end.

(** The eviction loop, on the array it shifts. *)
Fixpoint evictBehind (currentSegmentIndex : Index) (segs : list Segment)
    (existingSegmentsStartX : list Qc) : E W (list Segment * list Qc) :=
  match segs with
  | [] => mret (segs, existingSegmentsStartX)
  | firstSegment :: rest =>
      if bool_decide (VISIBLE_CHUNKS_AHEAD + VISIBLE_CHUNKS_BEHIND < Z.of_nat (length segs))%Z
         && exceeds currentSegmentIndex VISIBLE_CHUNKS_BEHIND then
        if behind (indexOfSegment firstSegment) currentSegmentIndex VISIBLE_CHUNKS_BEHIND then
          _ ← ext (RemoveSegment firstSegment);
          evictBehind currentSegmentIndex rest
            (filter (fun s => s ≠ startX firstSegment) existingSegmentsStartX)
        else mret (segs, existingSegmentsStartX)
      else mret (segs, existingSegmentsStartX)
  end.

Definition applyLODToSegments (x : Qc) : E W unit :=
  segs ← liftM (gets terrainMeshes);
  forEach segs
    (fun segment =>
       let segmentCenterX := startX segment + segmentWidth / num 2 in
       let distanceFromPlayer := Math_abs (segmentCenterX - x) in
       _ ← ext (ApplyLOD segment distanceFromPlayer);
       mret tt).

(** The end of a tick once the current position is covered. *)
Definition finishTick (x : jsnumber) (currentSegmentIndex : Index)
    (currentChunkType : ChunkType) : E W (option Outcome) :=
  match x, currentSegmentIndex with
  | Fin q, Finite i =>
      _ ← applyLODToSegments q;
      _ ← ext (UpdateTerrainInfo i currentChunkType);
      mret (Some Completed)
  | _, _ => mret None
  end.

(** The forced build at the current position.  An exception of
    [createTerrainSegment] reaches the outer [catch], which ends the tick.
    At an infinite abscissa only the start of [createTerrainSegment] is
    modelled: the draw, then the [TypeError] if the last stored segment has
    no sample; sampling there is outside the number model ([None]). *)
Definition selfHeal (x : jsnumber) (currentSegmentIndex : Index)
    (currentChunkType : ChunkType) (existingSegmentsStartX : list Qc)
    : E W (option Outcome) :=
  segs ← liftM (gets terrainMeshes);
  if existsb (coversNumber x) segs then finishTick x currentSegmentIndex currentChunkType
  else
    _ ← ext ConsoleWarn;
    match x with
    | Fin q =>
        let segmentStartX := ofZ (Math_floor (q / segmentWidth)) * segmentWidth in
        if bool_decide (segmentStartX ∈ existingSegmentsStartX) then
          finishTick x currentSegmentIndex currentChunkType
        else
          created ← createTerrainSegment segmentStartX;
          match created with
          | Some _ => finishTick x currentSegmentIndex currentChunkType
          | None => mret (Some Completed)
          end
    | _ =>
        _ ← liftM (selectChunkType (num 0.99));
        segs ← liftM (gets terrainMeshes);
        match previousEndHeight segs with
        | None => mret (Some Completed)
        | Some _ => mret None
        end
    end.

(** [update(vehiclePosition)].  [None]: the generation loop has not left
    within [budget] rounds. *)
Definition update (budget : nat) (vehiclePosition : Position) : E W (option Outcome) :=
  match vehiclePosition with
  | NoPosition => _ ← ext ConsoleWarn; mret (Some Aborted)
  | PositionX x =>
      match validIndex x with
      | None => _ ← ext ConsoleWarn; mret (Some Aborted)
      | Some currentSegmentIndex =>
          segs ← liftM (gets terrainMeshes);
          let currentChunkType :=
            match find (coversNumber x) segs with
            | Some currentSegment => chunkType currentSegment
            | None => hills
            end in
          let existingSegmentsStartX := map startX segs in
          unique ← uniqueSegments segs [];
          _ ← liftM (modify (set_terrainMeshes unique));
          generated ← generateAhead budget currentSegmentIndex existingSegmentsStartX;
          match generated with
          | None => mret None
          | Some existingSegmentsStartX =>
              segs ← liftM (gets terrainMeshes);
              evicted ← evictBehind currentSegmentIndex segs existingSegmentsStartX;
              _ ← liftM (modify (set_terrainMeshes evicted.1));
              selfHeal x currentSegmentIndex currentChunkType evicted.2
          end
      end
  end.

End Update.

(** ** A concrete [Math] object and two worlds, to run the model

    [approxSin] is Bhaskara's rational approximation of the sine with
    [355/113] for pi, cut to six decimals so that heights stay short.
    [busyWorld] answers [Math.random] from a counter and every factory
    delivers an object; [idleWorld] draws 0 and delivers nothing. *)

Definition approxPI : Qc := num (355 # 113).

Definition approxSin (x : Qc) : Qc :=
  let twoPi := num 2 * approxPI in
  let y := x - ofZ (Math_floor (x / twoPi)) * twoPi in
  let arch (z : Qc) :=
    num 16 * z * (approxPI - z) / (num 5 * approxPI * approxPI - num 4 * z * (approxPI - z)) in
  let s := if bool_decide (y ≤ approxPI) then arch y else - arch (y - approxPI) in
  ofZ (Math_floor (s * num 1000000)) / num 1000000.

Definition approxCos (x : Qc) : Qc := approxSin (x + approxPI / num 2).

Definition approxMath : JSMath :=
  {| Math_sin := approxSin; Math_cos := approxCos; Math_PI := approxPI |}.

Definition busyWorld : Collaborators nat :=
  {| answer c n :=
       match c with
       | MathRandom => (ofZ (Z.of_nat (n * 37 mod 101)) / num 101, S n)
       | _ => (1, S n)
       end |}.

Definition idleWorld : Collaborators nat :=
  {| answer c n :=
       match c with
       | MathRandom => (0, S n)
       | _ => (0, n)
       end |}.

(** ** Transition between two segments

    [bezierTransition]: the control points move from 0.3 to 0.5 of the
    height difference as it grows.  A zero-length span
    ([segment2Start = segment1End]) divides by zero in the source and is
    outside the number model. *)
Definition bezierTransition (x segment1End segment2Start segment1Height segment2Height : Qc)
    : Qc :=
  let t := (x - segment1End) / (segment2Start - segment1End) in
  let heightDiff := Math_abs (segment2Height - segment1Height) in
  let controlPointDistance := Math_min (num 0.3 + heightDiff * num 0.05) (num 0.5) in
  let p0 := segment1Height in
  let p1 := segment1Height + (segment2Height - segment1Height) * controlPointDistance in
  let p2 := segment2Height - (segment2Height - segment1Height) * controlPointDistance in
  let p3 := segment2Height in
  bezierInterpolation t p0 p1 p2 p3.

(** ** Object pools of the decorations

    [this.objectPools] is a plain object from pool name to array, or
    [undefined].  Pool names are its own keys: a name that a plain object
    inherits ([constructor], [toString], ...) is outside the model.  An
    array is a list in array order: [push] adds at the end, [pop] takes from
    the end.  Of a pooled object the class only touches [visible]. *)
Module Pools.
Import String.

Record PoolObject := { handle : nat; visible : bool }.

Definition Pool : Type := list PoolObject.

(** [None] is [undefined]. *)
Definition ObjectPools : Type := option (list (string * Pool)).

(** [pools[name]] *)
Fixpoint lookupPool (name : string) (pools : list (string * Pool)) : option Pool :=
  match pools with
  | [] => None
  | (key, pool) :: rest => if eqb key name then Some pool else lookupPool name rest
  end.

(** [pools[name] = pool] *)
Fixpoint assignPool (name : string) (pool : Pool) (pools : list (string * Pool))
    : list (string * Pool) :=
  match pools with
  | [] => [(name, pool)]
  | (key, old) :: rest =>
      if eqb key name then (key, pool) :: rest else (key, old) :: assignPool name pool rest
  end.

Definition hidden (object : PoolObject) : PoolObject :=
  {| handle := handle object; visible := false |}.

Definition DECORATION_ROCK : string := "rock".
Definition DECORATION_TREE : string := "tree".
Definition DECORATION_SIGN : string := "sign".

Section Methods.
Context `{Collaborators W}.

(** [createFunc] builds its object in the world. *)
Definition getFromPool (poolName : string) (createFunc : W -> PoolObject * W)
    (objectPools : ObjectPools) (w : W) : PoolObject * ObjectPools * W :=
  match objectPools ≫= lookupPool poolName with
  | None =>
      let w := (answer ConsoleWarn w).2 in
      let objectPools := assignPool poolName [] (default [] objectPools) in
      let (newObject, w) := createFunc w in
      (newObject, Some objectPools, w)
  | Some pool =>
      match list.last pool with
      | Some object =>
          (object, assignPool poolName (removelast pool) <$> objectPools, w)
      | None =>
          let (newObject, w) := createFunc w in
          (newObject, objectPools, w)
      end
  end.

Definition returnToPool (poolName : string) (object : PoolObject)
    (objectPools : ObjectPools) (w : W) : ObjectPools * W :=
  match objectPools ≫= lookupPool poolName with
  | None => (objectPools, (answer ConsoleWarn w).2)
  | Some pool => (assignPool poolName (pool ++ [hidden object]) <$> objectPools, w)
  end.

End Methods.
End Pools.

(** ** The single-mesh variant of the builder ([components/Terrain.js])

    The seeded generator, the noise, the six shape generators, both height
    queries and [smoothSegmentPoints] of that file are, line for line, the
    ones modelled above; its [createTerrainSegment] is its own.  [None] is
    the [TypeError] of reading the last sample of a previous segment that
    has none. *)
Module Classic.

(** What leaves the class in [createTerrainSegment].  The arrow of a ramp is
    set 3 above [terrainHeight], the skull of a gap 1 above
    [terrainHeight || 0]. *)
Inductive Call :=
| SceneAddTerrain (points : list SamplePoint) (chunkType : ChunkType)
| PhysicsAddSegment (midX midY width dy dx : Qc)
| PhysicsAddBottomBarrier (centerX width : Qc)
| SceneAddArrow (x : Qc) (terrainHeight : jsval)
| SceneAddSkull (x : Qc) (terrainHeight : jsval).

Class World (W : Type) := { tell : Call -> W -> W }.

(** The world that keeps the calls it receives, in order. *)
#[export] Instance logWorld : World (list Call) := { tell c w := w ++ [c] }.

Definition call `{World W} (c : Call) : E W unit := fun w t => (tt, tell c w, t).

Definition nbPoints : nat := 50.

(** [Math.min(0.1 + segmentIndex * 0.01, 0.9)] *)
Definition difficultyOf (startX : Qc) : Qc :=
  let segmentIndex := Math_floor (startX / segmentWidth) in
  Math_min (num 0.1 + ofZ segmentIndex * num 0.01) (num 0.9).

(** [s.startX === x] *)
Definition startsAt (x : Qc) (s : Segment) : bool := bool_decide (startX s = x).

(** The [y] of the last sample of the segment stored at
    [startX - segmentWidth]; [Some None] is [null]. *)
Definition previousEndHeight (startX : Qc) (segs : list Segment) : option (option Qc) :=
  match find (startsAt (startX - segmentWidth)) segs with
  | None => Some None
  | Some previousSegment =>
      match points previousSegment with
      | Some pts => pt_y <$> list.last pts
      | None => None
      end
  end.

Section Sampling.
Context `{JSMath}.

Definition samplePoint (chunkType : ChunkType) (startX : Qc)
    (previousEndHeight : option Qc) (i : nat) : M SamplePoint :=
  let x := startX + ofZ (Z.of_nat i) / ofZ (Z.of_nat nbPoints - 1) * segmentWidth in
  let difficulty := difficultyOf startX in
  generated ←
    match i, previousEndHeight with
    | O, Some previous => mret (Some previous, false)
    | _, _ =>
        match chunkType with
        | hills =>
            y ← generateHills x startX (startX + segmentWidth) difficulty; mret (Some y, false)
        | plateau =>
            y ← generatePlateau x startX (startX + segmentWidth) difficulty; mret (Some y, false)
        | gap =>
            y ← generateGap x startX (startX + segmentWidth) difficulty;
            mret (y, bool_decide (y = None))
        | ramp =>
            y ← generateRamp x startX (startX + segmentWidth) difficulty; mret (Some y, false)
        | washboard =>
            y ← generateWashboard x startX (startX + segmentWidth) difficulty;
            mret (Some y, false)
        | valley =>
            y ← generateValley x startX (startX + segmentWidth) difficulty; mret (Some y, false)
        end
    end;
  let isGap : bool := generated.2 in
  let y :=
    match previousEndHeight with
    | Some previous =>
        if bool_decide (0 < i)%nat && bool_decide (i < 5)%nat then
          let blendFactor := 1 - quinticInterpolation (ofZ (Z.of_nat i) / num 5) in
          let generatedY := toNumber generated.1 in
          Some (previous * blendFactor + generatedY * (1 - blendFactor))
        else generated.1
    | None => generated.1
    end in
  mret {| pt_x := x;
          pt_y := if isGap then Some (num (-24)) else y;
          pt_height := if isGap then None else y |}.

Definition buildPoints (chunkType : ChunkType) (startX : Qc)
    (previousEndHeight : option Qc) : M (list SamplePoint) :=
  pts ← mapM (samplePoint chunkType startX previousEndHeight) (seq 0 nbPoints);
  mret (smoothSegmentPoints pts).

End Sampling.

(** The loop that collects the runs of samples without ground:
    [currentGapStart] is the start of the run being read. *)
Fixpoint gapRangesFrom (i : nat) (currentGapStart : option nat) (points : list SamplePoint)
    : list (nat * nat) :=
  match points with
  | [] =>
      match currentGapStart with
      | Some start => [(start, (i - 1)%nat)]
      | None => []
      end
  | p :: rest =>
      match pt_height p, currentGapStart with
      | None, None => gapRangesFrom (S i) (Some i) rest
      | Some _, Some start => (start, (i - 1)%nat) :: gapRangesFrom (S i) None rest
      | _, _ => gapRangesFrom (S i) currentGapStart rest
      end
  end.

Definition gapRanges (points : list SamplePoint) : list (nat * nat) :=
  gapRangesFrom 0 None points.

(** [points.slice(from, to)] *)
Definition slice {A} (from to : nat) (l : list A) : list A := take (to - from) (drop from l).

Section Physics.
Context `{World W}.

Definition createPhysicsSegment (points : list SamplePoint) : E W unit :=
  if bool_decide (length points < 2)%nat then mret tt
  else
    forEach (seq 0 (length points - 1))
      (fun i =>
         match points !! i, points !! S i with
         | Some p1, Some p2 =>
             match pt_height p1, pt_height p2 with
             | Some _, Some _ =>
                 let width := pt_x p2 - pt_x p1 in
                 let midX := (pt_x p1 + pt_x p2) / num 2 in
                 let midY := (toNumber (pt_y p1) + toNumber (pt_y p2)) / num 2 in
                 call (PhysicsAddSegment midX midY width
                         (toNumber (pt_y p2) - toNumber (pt_y p1)) (pt_x p2 - pt_x p1))
             | _, _ => mret tt
             end
         | _, _ => mret tt
         end).

Definition createBottomBarrier (startX endX : Qc) : E W unit :=
  let width := endX - startX in
  call (PhysicsAddBottomBarrier (startX + width / num 2) width).

(** The loop over [gapRanges]; the result is [currentSegmentStart]. *)
Fixpoint physicsAroundGaps (points : list SamplePoint) (ranges : list (nat * nat))
    (currentSegmentStart : nat) : E W nat :=
  match ranges with
  | [] => mret currentSegmentStart
  | (start, end_) :: rest =>
      _ ← when_ (bool_decide (currentSegmentStart < start)%nat)
            (createPhysicsSegment (slice currentSegmentStart start points));
      _ ← match points !! start, points !! end_ with
          | Some first, Some last => createBottomBarrier (pt_x first) (pt_x last)
          | _, _ => mret tt
          end;
      physicsAroundGaps points rest (S end_)
  end.

Definition createPhysics (points : list SamplePoint) : E W unit :=
  currentSegmentStart ← physicsAroundGaps points (gapRanges points) 0;
  _ ← when_ (bool_decide (currentSegmentStart < length points)%nat)
        (createPhysicsSegment (drop currentSegmentStart points));
  when_ (bool_decide (length (gapRanges points) = 0)%nat) (createPhysicsSegment points).

End Physics.

Section Builder.
Context `{JSMath} `{World W}.

Definition addDecoration (startX : Qc) (chunkType : ChunkType) : E W unit :=
  match chunkType with
  | ramp =>
      let rampCenter := startX + segmentWidth / num 2 in
      rampHeight ← liftM (getTerrainHeightAt rampCenter);
      call (SceneAddArrow rampCenter rampHeight)
  | gap =>
      let gapCenter := startX + segmentWidth / num 2 in
      let gapStart := gapCenter - num 4 in
      skullHeight ← liftM (getTerrainHeightAt (gapStart - 1));
      call (SceneAddSkull (gapStart - 1) skullHeight)
  | _ => mret tt
  end.

Definition createTerrainSegment (startX : Qc) : E W (option unit) :=
  chunkType ← liftM (selectChunkType (difficultyOf startX));
  segs ← liftM (gets terrainMeshes);
  match previousEndHeight startX segs with
  | None => mret None
  | Some previous =>
      points ← liftM (buildPoints chunkType startX previous);
      _ ← call (SceneAddTerrain points chunkType);
      _ ← createPhysics points;
      _ ← addDecoration startX chunkType;
      _ ← liftM (modify (push {| startX := startX; points := Some points;
                                 chunkType := chunkType |}));
      mret (Some tt)
  end.

End Builder.
End Classic.

(** * Vocabulary of the statements *)

Global Instance jsval_eq_dec : EqDecision jsval.
Proof. solve_decision. Defined.

(** A method that leaves [this] as it found it. *)
Definition readonly {A} (m : M A) : Prop := forall t, (m t).2 = t.

(** A method that does not touch the segment store. *)
Definition keeps_store {W A} (m : E W A) : Prop :=
  forall w t, terrainMeshes (m w t).2 = terrainMeshes t.

(** A method whose effect on the terrain is nil. *)
Definition keeps_terrain {W A} (m : E W A) : Prop := forall w t, (m w t).2 = t.

(** Two runs of one method, each in its own world, from the same terrain:
    [agree] when they end in the same terrain, [agree_value] when they also
    return the same value. *)
Definition agree {W1 W2 A1 A2} (m1 : E W1 A1) (m2 : E W2 A2) : Prop :=
  forall w1 w2 t, (m1 w1 t).2 = (m2 w2 t).2.

Definition agree_value {W1 W2 A} (m1 : E W1 A) (m2 : E W2 A) : Prop :=
  forall w1 w2 t, (m1 w1 t).1.1 = (m2 w2 t).1.1 ∧ (m1 w1 t).2 = (m2 w2 t).2.

(** The segment [createTerrainSegment(x)] builds from the state [t]. *)
Definition builtSegment `{JSMath} (x : Qc) (prev : option Qc) (t : Terrain) : Segment :=
  let d := difficultyAt x in
  let c := eval (selectChunkType d) t in
  {| startX := x;
     points := Some (eval (buildPoints c d x prev) (exec (selectChunkType d) t));
     chunkType := c |}.

(** A loop of in-place updates, round [i] writing to the position
    [targets !! i]. *)
Definition updateAt {A} (targets : list nat) (g : nat -> A -> A)
    (acc : list A) (i : nat) : list A :=
  match targets !! i with
  | Some k => alter (g i) k acc
  | None => acc
  end.

(** What the last loop does to the sample it visits. *)
Definition settle (p : SamplePoint) : SamplePoint :=
  {| pt_x := pt_x p; pt_y := pt_y p; pt_height := pt_y p |}.

(** The heights the smoothing pass copies before it writes. *)
Definition originalHeights (points : list SamplePoint) : list Qc :=
  map (fun k => toNumber (p ← points !! k; pt_y p)) (validFrom 0 points).

(** The value the first loop stores in round [i]. *)
Definition smoothedValue (points : list SamplePoint) (i : nat) : Qc :=
  windowSum (originalHeights points) (Z.of_nat i) / ofZ windowSize.

(** Samples at [x = 0, 1, 2, ...] with the given heights, [None] for a
    sample without ground. *)
Definition profile (heights : list (option Qc)) : list SamplePoint :=
  imap (fun i h => {| pt_x := ofZ (Z.of_nat i);
                      pt_y := Some (default (num (-24)) h);
                      pt_height := h |}) heights.

(** The index [getTerrainHeightAt] computes in a segment of [len] samples. *)
Definition sampleIndex (len : nat) (startX x : Qc) : Z :=
  Math_floor ((x - startX) / segmentWidth * ofZ (Z.of_nat len - 1)).

(** The abscissa of sample [i]. *)
Definition sampleX (startX : Qc) (i : nat) : Qc :=
  startX + ofZ (Z.of_nat i) / ofZ (Z.of_nat nbPoints - 1) * segmentWidth.

(** The two samples at which a segment meets its neighbours. *)
Definition firstSample (s : Segment) : option SamplePoint := pts ← points s; head pts.

Definition lastSample (s : Segment) : option SamplePoint := pts ← points s; list.last pts.

(** The invariant of a tick past its de-duplication: the stored [startX]
    are pairwise different and all recorded in [existingSegmentsStartX]. *)
Definition windowInvariant (segs : list Segment) (existing : list Qc) : Prop :=
  NoDup (startX <$> segs) ∧ forall s, s ∈ segs -> startX s ∈ existing.

(** A store in which the segment at 0 occurs twice. *)
Definition stub (x : Qc) : Segment :=
  {| startX := x;
     points := Some [ {| pt_x := x; pt_y := Some 0; pt_height := Some 0 |} ];
     chunkType := hills |}.

Definition duplicatedStore : Terrain :=
  {| seed := 42; noiseOffsetX := 42;
     terrainMeshes := [stub 0; stub 0; stub (num 40); stub (num 80); stub (num 120);
                       stub (num 160); stub (num 200)] |}.

(** The samples and the chunk type of every stored segment, in store order. *)
Definition profileOf (t : Terrain) : list (option (list SamplePoint) * ChunkType) :=
  (fun s => (points s, chunkType s)) <$> terrainMeshes t.

(** The stored segments sit side by side: the one at position [k] of the
    array starts at [(a + k) * segmentWidth]. *)
Definition contiguousFrom (a : Z) (segs : list Segment) : Prop :=
  startX <$> segs
  = (fun k : nat => ofZ (a + Z.of_nat k) * segmentWidth) <$> seq 0 (length segs).

(** Every stored segment has a sample. *)
Definition sampled (segs : list Segment) : Prop :=
  Forall (fun s => exists pts, points s = Some pts ∧ pts ≠ []) segs.

(** A store on which a tick at [x] finds nothing to do: no repeated start
    position, the last segment five ahead of the vehicle, nothing to evict,
    and the vehicle on a stored segment. *)
Definition settled (x : Qc) (segs : list Segment) : Prop :=
  let i := Math_floor (x / segmentWidth) in
  NoDup (startX <$> segs)
  ∧ (exists lastSegment,
       list.last segs = Some lastSegment ∧ (i + 5 ≤ indexOfSegment lastSegment)%Z)
  ∧ ((length segs ≤ 10)%nat ∨ (i ≤ 5)%Z
     ∨ exists firstSegment,
         head segs = Some firstSegment ∧ (i - 5 ≤ indexOfSegment firstSegment)%Z)
  ∧ existsb (covers x) segs = true.

(** The ramp of [generateRamp]: it takes the middle 60 % of the span. *)
Definition rampStart (startX endX : Qc) : Qc :=
  (startX + endX) / num 2 - (endX - startX) * num 0.6 / num 2.
Definition rampPeak (startX endX : Qc) : Qc := (startX + endX) / num 2.
Definition rampEnd (startX endX : Qc) : Qc :=
  (startX + endX) / num 2 + (endX - startX) * num 0.6 / num 2.
Definition rampHeight (difficulty : Qc) : Qc :=
  Math_min (num 3 + Math_min (difficulty * num 0.7) (num 0.6) * num 1.5) (num 5).

(** The [rawHeight] of [generateHills]: the two noises, scaled. *)
Definition rawHeight `{JSMath} (x difficulty : Qc) (t : Terrain) : Qc :=
  let adjustedDifficulty := Math_min (difficulty * num 0.6) (num 0.5) in
  let maxAmplitude := num 1.8 in
  let amplitude := Math_min (num 1.2 + adjustedDifficulty * num 1.3) maxAmplitude in
  eval (improvedNoise x (num 0.05) 3 (num 0.5) (num 2.0)) t * amplitude
  + eval (improvedNoise x (num 0.2) 2 (num 0.3) (num 2.5)) t * (amplitude * num 0.3).
(** *** The draws of a build

    [lcg] is the step of [seededRandom].  The number of draws a build makes
    after [selectChunkType] depends on its samples only through which of
    them have ground ([groundOf]), and for the samples of a built segment
    that is fixed by the chunk type ([groundPattern]). *)
Definition lcg (s : Z) : Z := Z.rem (s * 9301 + 49297) 233280.

Definition groundOf (points : list SamplePoint) : list bool :=
  (fun p => bool_decide (is_Some (pt_height p))) <$> points.

Definition groundPattern (c : ChunkType) : list bool :=
  (fun i => negb (bool_decide (c = gap) && (9 <=? i)%nat && (i <=? 20)%nat)) <$> seq 0 nbPoints.

Definition countGround (g : list bool) : nat := length (filter (fun b => b = true) g).

(** The draws of [createBackgroundPhysics]. *)
Definition backgroundDraws (g : list bool) : nat :=
  if bool_decide (length g < 2)%nat then 0%nat
  else
    let subsegment (i : nat) : nat :=
      let startIdx := (i * length g / 3)%nat in
      let endIdx := ((i + 1) * length g / 3)%nat in
      if bool_decide (0 < countGround (take (endIdx - startIdx) (drop startIdx g)))%nat
      then 1%nat else 0%nat in
    (2 * (3 * (subsegment 0 + (subsegment 1 + (subsegment 2 + 0)))))%nat.

Fixpoint availableCount (i len : nat) (g : list bool) : nat :=
  match g with
  | [] => 0%nat
  | b :: g' =>
      if bool_decide (2 < i)%nat && bool_decide (i + 3 < len)%nat && b
      then S (availableCount (S i) len g')
      else availableCount (S i) len g'
  end.

(** The draws of [decorateZone]. *)
Definition zoneDraws (g : list bool) (chunkType : ChunkType) (zone : Zone) : nat :=
  let nbPoints := Nat.min (length g) 40 in
  let each : nat := if bool_decide (availableCount 0 (length g) g = 0)%nat then 0%nat else 1%nat in
  ((if bool_decide (ROCK ∈ decorTypes zone)
    then decorationCount nbPoints ROCK zone chunkType (num 5) * each else 0%nat)
   + ((if bool_decide (TREE ∈ decorTypes zone)
       then decorationCount nbPoints TREE zone chunkType (num 5) * each else 0%nat)
      + (if bool_decide (SIGN ∈ decorTypes zone)
         then decorationCount nbPoints SIGN zone chunkType (num 10) * each else 0%nat)))%nat.

Definition decorationDraws (g : list bool) (chunkType : ChunkType) : nat :=
  foldr (fun zone n => (zoneDraws g chunkType zone + n)%nat) 0%nat zones.

(** The chunk type [selectChunkType] picks from the seed [s]. *)
Definition chunkFor (difficulty : Qc) (s : Z) : ChunkType :=
  eval (selectChunkType difficulty)
    {| seed := s; noiseOffsetX := 0; terrainMeshes := [] |}.

(** The seed a build at [startX] leaves, from the seed [s] it starts with. *)
Definition seedAfterBuild (startX : Qc) (s : Z) : Z :=
  let c := chunkFor (difficultyAt startX) s in
  Nat.iter (backgroundDraws (groundPattern c) + decorationDraws (groundPattern c) c) lcg (lcg s).

(** The seed after [n] builds in a row, at the segment indices from [i] on,
    as [initialize_loop n i] makes them; [step] is the effect of one build. *)
Fixpoint seedAfterLoop (step : Qc -> Z -> Z) (n : nat) (i : Z) (s : Z) : Z :=
  match n with
  | O => s
  | S n' => seedAfterLoop step n' (i + 1) (step (ofZ i * segmentWidth) s)
  end.

Definition seedAfterBuilds : nat -> Z -> Z -> Z := seedAfterLoop seedAfterBuild.
(** [m] advances the generator by exactly [n] draws. *)
Definition draws {W A} (n : nat) (m : E W A) : Prop :=
  forall w t, seed (m w t).2 = Nat.iter n lcg (seed t).

(** * Properties *)

(** ** The monad of methods *)

Lemma M_bind_eq {A B} (m : M A) (k : A -> M B) (t : Terrain) :
  (m ≫= k) t = k (m t).1 (m t).2.
Proof. unfold mbind, M_bind. destruct (m t); reflexivity. Qed.

Lemma M_fmap_eq {A B} (f : A -> B) (m : M A) (t : Terrain) :
  (f <$> m) t = (f (m t).1, (m t).2).
Proof. unfold fmap, M_fmap. destruct (m t); reflexivity. Qed.

Lemma readonly_ret {A} (a : A) : readonly (mret a).
Proof. intros t. reflexivity. Qed.

Lemma readonly_gets {A} (f : Terrain -> A) : readonly (gets f).
Proof. intros t. reflexivity. Qed.

Lemma readonly_bind {A B} (m : M A) (k : A -> M B) :
  readonly m -> (forall a, readonly (k a)) -> readonly (m ≫= k).
Proof.
  intros Hm Hk t. rewrite M_bind_eq, Hm. apply Hk.
Qed.

Lemma readonly_fmap {A B} (f : A -> B) (m : M A) : readonly m -> readonly (f <$> m).
Proof. intros Hm t. rewrite M_fmap_eq. apply Hm. Qed.

Lemma readonly_run {A} (m : M A) (t : Terrain) : readonly m -> m t = (eval m t, t).
Proof. intros Hm. unfold eval. rewrite <- (Hm t) at 3. destruct (m t); reflexivity. Qed.

Create HintDb readonly.
#[local] Hint Resolve readonly_ret readonly_gets readonly_fmap : readonly.

(** Walks through binds and conditionals of a read-only method. *)
Ltac readonly_tac :=
  repeat first
    [ progress intros
    | solve [auto with readonly]
    | apply readonly_bind
    | case_bool_decide
    | match goal with
      | |- readonly (match ?x with _ => _ end) => destruct x
      | |- readonly (if ?b then _ else _) => destruct b
      end ].

Section ReadOnly.
Context `{JSMath}.

Lemma readonly_noise x : readonly (noise x).
Proof. unfold noise. readonly_tac. Qed.

Lemma readonly_improvedNoise_loop i seedX frequency persistence lacunarity total amplitude maxValue :
  readonly (improvedNoise_loop i seedX frequency persistence lacunarity total amplitude maxValue).
Proof.
  revert frequency total amplitude maxValue.
  induction i as [|i IH]; intros; simpl.
  - apply readonly_ret.
  - apply readonly_bind; [apply readonly_noise | intros; apply IH].
Qed.

Lemma readonly_improvedNoise x frequency octaves persistence lacunarity :
  readonly (improvedNoise x frequency octaves persistence lacunarity).
Proof.
  unfold improvedNoise.
  apply readonly_bind; [apply readonly_gets | intros].
  apply readonly_bind; [apply readonly_improvedNoise_loop | intros; apply readonly_ret].
Qed.

Lemma readonly_getTerrainHeightNear x : readonly (getTerrainHeightNear x).
Proof. unfold getTerrainHeightNear. readonly_tac. Qed.

Lemma readonly_getTerrainHeightAt_with fallback x :
  (forall x', readonly (fallback x')) -> readonly (getTerrainHeightAt_with fallback x).
Proof. intros Hf. unfold getTerrainHeightAt_with. readonly_tac. Qed.

Hint Resolve readonly_noise readonly_improvedNoise readonly_getTerrainHeightNear : readonly.

Lemma readonly_generateHills_with heightAt x startX endX difficulty :
  (forall x', readonly (heightAt x')) ->
  readonly (generateHills_with heightAt x startX endX difficulty).
Proof. intros Hh. unfold generateHills_with. readonly_tac. Qed.

Lemma readonly_getTerrainHeightAt_n n x : readonly (getTerrainHeightAt_n n x).
Proof.
  revert x. induction n as [|n IH]; intros x; simpl;
    apply readonly_getTerrainHeightAt_with; intros x'.
  - apply readonly_ret.
  - apply readonly_generateHills_with, IH.
Qed.

Lemma readonly_getTerrainHeightAt x : readonly (getTerrainHeightAt x).
Proof. apply readonly_getTerrainHeightAt_n. Qed.

Lemma readonly_generateHills x startX endX difficulty :
  readonly (generateHills x startX endX difficulty).
Proof. apply readonly_generateHills_with, readonly_getTerrainHeightAt. Qed.

Hint Resolve readonly_getTerrainHeightAt readonly_generateHills : readonly.

Lemma readonly_or_else near other : readonly other -> readonly (or_else near other).
Proof. intros Ho. unfold or_else. readonly_tac. Qed.

Hint Resolve readonly_or_else : readonly.

Lemma readonly_generatePlateau x startX endX difficulty :
  readonly (generatePlateau x startX endX difficulty).
Proof. unfold generatePlateau. readonly_tac. Qed.

Lemma readonly_generateGap x startX endX difficulty :
  readonly (generateGap x startX endX difficulty).
Proof. unfold generateGap. readonly_tac. Qed.

Lemma readonly_generateRamp x startX endX difficulty :
  readonly (generateRamp x startX endX difficulty).
Proof. unfold generateRamp. readonly_tac. Qed.

Lemma readonly_generateWashboard x startX endX difficulty :
  readonly (generateWashboard x startX endX difficulty).
Proof. unfold generateWashboard. readonly_tac. Qed.

Lemma readonly_generateValley x startX endX difficulty :
  readonly (generateValley x startX endX difficulty).
Proof. unfold generateValley. readonly_tac. Qed.

End ReadOnly.

(** ** The recursion between the height query and the hills generator *)

Lemma local_span_start (x : Qc) : bool_decide (x - (x - num 10) < num 1.0) = false.
Proof. replace (x - (x - num 10)) with (num 10) by ring. reflexivity. Qed.

Lemma local_span_end (x : Qc) : bool_decide (x + num 10 - x < num 1.0) = false.
Proof. replace (x + num 10 - x) with (num 10) by ring. reflexivity. Qed.

Section Budget.
Context `{JSMath}.

(** On the span of the fallback no border branch is taken, so the height
    query passed to the generator is never called. *)
Lemma generateHills_with_local h1 h2 x difficulty t :
  generateHills_with h1 x (x - num 10) (x + num 10) difficulty t =
  generateHills_with h2 x (x - num 10) (x + num 10) difficulty t.
Proof.
  unfold generateHills_with.
  rewrite local_span_start, local_span_end. reflexivity.
Qed.

Lemma getTerrainHeightAt_with_run fallback x t :
  getTerrainHeightAt_with fallback x t =
  match find (covers x) (terrainMeshes t) with
  | Some segment => (heightInSegment segment x, t)
  | None => (JNum (fallback x t).1, (fallback x t).2)
  end.
Proof.
  unfold getTerrainHeightAt_with. rewrite M_bind_eq. simpl.
  destruct (find (covers x) (terrainMeshes t)); [reflexivity|].
  rewrite M_bind_eq. reflexivity.
Qed.

Lemma getTerrainHeightAt_n_S n x :
  getTerrainHeightAt_n (S n) x =
  getTerrainHeightAt_with
    (fun x' => generateHills_with (getTerrainHeightAt_n n) x' (x' - num 10) (x' + num 10)
                 (num 0.1)) x.
Proof. reflexivity. Qed.

Lemma getTerrainHeightAt_budget n x t :
  getTerrainHeightAt_n (S n) x t = getTerrainHeightAt_n 1 x t.
Proof.
  rewrite !getTerrainHeightAt_n_S, !getTerrainHeightAt_with_run.
  destruct (find (covers x) (terrainMeshes t)); [reflexivity|].
  rewrite (generateHills_with_local (getTerrainHeightAt_n n) (getTerrainHeightAt_n 0)).
  reflexivity.
Qed.

(** The fallback of the source, [this.generateHills(x, x - 10, x + 10, 0.1)]. *)
Lemma getTerrainHeightAt_uncovered x t :
  find (covers x) (terrainMeshes t) = None ->
  getTerrainHeightAt x t =
  (JNum (eval (generateHills x (x - num 10) (x + num 10) (num 0.1)) t), t).
Proof.
  intros Hnone. unfold getTerrainHeightAt.
  rewrite getTerrainHeightAt_n_S, getTerrainHeightAt_with_run, Hnone.
  unfold generateHills, getTerrainHeightAt.
  rewrite (generateHills_with_local (getTerrainHeightAt_n 1) (getTerrainHeightAt_n 2)).
  rewrite (readonly_run (generateHills_with _ _ _ _ _))
    by apply readonly_generateHills_with, readonly_getTerrainHeightAt_n.
  reflexivity.
Qed.

Lemma getTerrainHeightAt_covered x t segment :
  find (covers x) (terrainMeshes t) = Some segment ->
  getTerrainHeightAt x t = (heightInSegment segment x, t).
Proof.
  intros Hsome. unfold getTerrainHeightAt.
  rewrite getTerrainHeightAt_n_S, getTerrainHeightAt_with_run, Hsome. reflexivity.
Qed.

End Budget.

(** ** Chunk selection *)

(** C5: whatever the generator state, [selectChunkType] returns neither
    [gap] nor [valley] for a difficulty below 0.3, and only [hills] or
    [plateau] (so no [washboard] either) for a difficulty below 0.15. *)
Theorem selectChunkType_thresholds (t : Terrain) (difficulty : Qc) :
  let c := eval (selectChunkType difficulty) t in
  (difficulty < num 0.3 -> c ≠ gap ∧ c ≠ valley) ∧
  (difficulty < num 0.15 -> (c = hills ∨ c = plateau) ∧ c ≠ washboard).
Proof.
  unfold eval, selectChunkType. rewrite M_bind_eq. simpl.
  split; intros Hd.
  - rewrite (bool_decide_eq_true_2 _ Hd).
    repeat case_bool_decide; split; discriminate.
  - rewrite (bool_decide_eq_true_2 _ Hd).
    case_bool_decide; split; auto; discriminate.
Qed.

Lemma selectChunkType_thresholds_witness :
  eval (selectChunkType (num 0.1)) (newTerrain 42) ≠ gap ∧
  eval (selectChunkType (num 0.2)) (newTerrain 42) ≠ valley ∧
  eval (selectChunkType (num 0.1)) (newTerrain 42) ≠ washboard.
Proof.
  split; [|split].
  - apply (selectChunkType_thresholds (newTerrain 42) (num 0.1)). reflexivity.
  - apply (selectChunkType_thresholds (newTerrain 42) (num 0.2)). reflexivity.
  - apply (selectChunkType_thresholds (newTerrain 42) (num 0.1)). reflexivity.
Defined.

(** ** Height query: the two answers that do not read a sample *)

(** C9: for an [x] no stored segment covers, [getTerrainHeightAt] answers
    with the hills generator over [x - 10, x + 10] at difficulty 0.1, and the
    terrain after the call is the terrain before it: no segment is stored
    and the generator state is untouched. *)
Theorem getTerrainHeightAt_fallback_is_read_only `{JSMath} (t : Terrain) (x : Qc) :
  (forall s, s ∈ terrainMeshes t -> covers x s = false) ->
  (getTerrainHeightAt x t).1
    = JNum (eval (generateHills x (x - num 10) (x + num 10) (num 0.1)) t)
  ∧ terrainMeshes (getTerrainHeightAt x t).2 = terrainMeshes t
  ∧ seed (getTerrainHeightAt x t).2 = seed t
  ∧ (getTerrainHeightAt x t).2 = t.
Proof.
  intros Hfree.
  assert (Hnone : find (covers x) (terrainMeshes t) = None).
  { destruct (find (covers x) (terrainMeshes t)) as [s|] eqn:Hf; [|reflexivity].
    apply find_some in Hf as [Hin Hc].
    apply list_elem_of_In in Hin. rewrite (Hfree s Hin) in Hc. discriminate. }
  rewrite (getTerrainHeightAt_uncovered x t Hnone). simpl. auto.
Qed.

Lemma getTerrainHeightAt_fallback_is_read_only_witness :
  (getTerrainHeightAt (H := approxMath) (num 3) (newTerrain 42)).2 = newTerrain 42.
Proof.
  apply (getTerrainHeightAt_fallback_is_read_only (H := approxMath) (newTerrain 42) (num 3)).
  simpl. intros s Hs. inversion Hs.
Defined.

(** C10: when the first stored segment that contains [x] has no [points]
    array, or an empty one, [getTerrainHeightAt] answers the number 0,
    which is neither [null] nor [undefined] and is what flat ground at
    height 0 would answer. *)
Theorem getTerrainHeightAt_without_samples `{JSMath} (t : Terrain) (x : Qc) (segment : Segment) :
  find (covers x) (terrainMeshes t) = Some segment ->
  points segment = None ∨ points segment = Some [] ->
  (getTerrainHeightAt x t).1 = JNum 0
  ∧ (getTerrainHeightAt x t).1 ≠ JNull
  ∧ (getTerrainHeightAt x t).1 ≠ JUndefined.
Proof.
  intros Hfind Hpts.
  rewrite (getTerrainHeightAt_covered x t segment Hfind). simpl.
  unfold heightInSegment. destruct Hpts as [-> | ->]; repeat split; discriminate.
Qed.

Lemma getTerrainHeightAt_without_samples_witness :
  (getTerrainHeightAt (H := approxMath) (num 50)
     {| seed := 42; noiseOffsetX := 42;
        terrainMeshes := [ {| startX := num 40; points := Some []; chunkType := hills |} ] |}).1
  = JNum 0.
Proof.
  eapply (getTerrainHeightAt_without_samples (H := approxMath)).
  - reflexivity.
  - right. reflexivity.
Defined.

(** ** Noise and the generator state *)

(** C2, at the failing input: with seed 42, [noise(0)] evaluated after one
    draw of [seededRandom] is not [noise(0)] evaluated before it. *)
Lemma noise_changes_with_a_draw :
  eval (noise (H := approxMath) 0) (newTerrain 42)
  ≠ eval (noise (H := approxMath) 0) (exec seededRandom (newTerrain 42)).
Proof.
  intros Heq. apply (f_equal this) in Heq. vm_compute in Heq. discriminate.
Qed.

(** What [noise] reads of the state is [this.seed], nothing else. *)
Lemma noise_reads_seed `{JSMath} (x : Qc) (t t' : Terrain) :
  seed t = seed t' -> eval (noise x) t = eval (noise x) t'.
Proof.
  intros Hs. unfold eval, noise. rewrite !M_bind_eq. simpl. rewrite Hs. reflexivity.
Qed.

(** ** Methods with collaborators *)

Lemma E_bind_eq {W A B} (m : E W A) (k : A -> E W B) (w : W) (t : Terrain) :
  (m ≫= k) w t = k (m w t).1.1 (m w t).1.2 (m w t).2.
Proof. unfold mbind, E_bind. destruct (m w t) as [[a w'] t']. reflexivity. Qed.

Lemma liftM_eq {W A} (m : M A) (w : W) (t : Terrain) :
  liftM m w t = ((m t).1, w, (m t).2).
Proof. unfold liftM. destruct (m t). reflexivity. Qed.

Lemma ext_eq `{Collaborators W} (c : Call) (w : W) (t : Terrain) :
  ext c w t = ((answer c w).1, (answer c w).2, t).
Proof. unfold ext. destruct (answer c w). reflexivity. Qed.

Lemma keeps_store_ret {W A} (a : A) : keeps_store (W := W) (mret a).
Proof. intros w t. reflexivity. Qed.

Lemma keeps_store_bind {W A B} (m : E W A) (k : A -> E W B) :
  keeps_store m -> (forall a, keeps_store (k a)) -> keeps_store (m ≫= k).
Proof. intros Hm Hk w t. rewrite E_bind_eq, Hk, Hm. reflexivity. Qed.

Lemma keeps_store_ext `{Collaborators W} (c : Call) : keeps_store (ext c).
Proof. intros w t. rewrite ext_eq. reflexivity. Qed.

Lemma keeps_store_readonly {W A} (m : M A) : readonly m -> keeps_store (W := W) (liftM m).
Proof. intros Hm w t. rewrite liftM_eq. simpl. rewrite Hm. reflexivity. Qed.

Lemma keeps_store_seededRandom {W} : keeps_store (W := W) (liftM seededRandom).
Proof. intros w t. reflexivity. Qed.

Lemma keeps_store_selectChunkType {W} d : keeps_store (W := W) (liftM (selectChunkType d)).
Proof. intros w t. reflexivity. Qed.

Lemma keeps_store_forEach {W A} (l : list A) (body : A -> E W unit) :
  (forall a, keeps_store (body a)) -> keeps_store (forEach l body).
Proof.
  intros Hb. induction l as [|a l IH]; simpl.
  - apply keeps_store_ret.
  - apply keeps_store_bind; [apply Hb | intros; apply IH].
Qed.

Lemma keeps_store_when {W} (b : bool) (m : E W unit) :
  keeps_store m -> keeps_store (when_ b m).
Proof. intros Hm. destruct b; [exact Hm | apply keeps_store_ret]. Qed.

Create HintDb store.
#[local] Hint Resolve keeps_store_ret keeps_store_ext keeps_store_seededRandom
  keeps_store_selectChunkType keeps_store_forEach keeps_store_when : store.

Ltac store_tac :=
  repeat first
    [ progress intros
    | solve [auto with store]
    | apply keeps_store_bind
    | apply keeps_store_forEach
    | apply keeps_store_when
    | case_bool_decide
    | match goal with
      | |- keeps_store (match ?x with _ => _ end) => destruct x
      | |- keeps_store (if ?b then _ else _) => destruct b
      end ].

Section StoreFrame.
Context `{Collaborators W}.

Lemma keeps_store_createPhysicsForSegment points c :
  keeps_store (createPhysicsForSegment points c).
Proof.
  unfold createPhysicsForSegment, createSideBarriers, createPhysicsSegment,
    createBackgroundPhysics, backgroundSubsegment.
  store_tac.
Qed.

Lemma keeps_store_getRandomPoint available :
  keeps_store (getRandomPoint (W := W) available).
Proof. unfold getRandomPoint. store_tac. Qed.

Lemma keeps_store_addTerrainDecorations startX points c :
  keeps_store (addTerrainDecorations startX points c).
Proof.
  pose proof keeps_store_getRandomPoint.
  unfold addTerrainDecorations, decorateZone, decorationLoop, placeKeySign,
    placeRock, placeTree, placeSign.
  store_tac.
Qed.

End StoreFrame.

(** ** What a build leaves in the store *)

Lemma length_foldl_keep {A B} (f : list A -> B -> list A) (l : list B) (acc : list A) :
  (forall a b, length (f a b) = length a) -> length (foldl f acc l) = length acc.
Proof.
  intros Hf. revert acc. induction l as [|b l IH]; intros acc; simpl; [reflexivity|].
  rewrite IH. apply Hf.
Qed.

Lemma length_writeBack points k : length (writeBack points k) = length points.
Proof.
  unfold writeBack. destruct (points !! k); [|reflexivity].
  destruct (list_find _ points) as [[j p]|]; [|reflexivity].
  destruct (pt_height p); [apply length_insert | reflexivity].
Qed.

Lemma length_smoothSegmentPoints points :
  length (smoothSegmentPoints points) = length points.
Proof.
  unfold smoothSegmentPoints. repeat case_bool_decide; try reflexivity.
  rewrite length_foldl_keep by apply length_writeBack.
  apply length_foldl_keep. intros a i.
  destruct (validFrom 0 points !! i); [apply length_alter | reflexivity].
Qed.

Lemma length_mapM {A B} (f : A -> M B) (l : list A) (t : Terrain) :
  length (mapM f l t).1 = length l.
Proof.
  revert t. induction l as [|a l IH]; intros t; simpl; [reflexivity|].
  rewrite !M_bind_eq. simpl. rewrite IH. reflexivity.
Qed.

Lemma readonly_mapM {A B} (f : A -> M B) (l : list A) :
  (forall a, readonly (f a)) -> readonly (mapM f l).
Proof.
  intros Hf. induction l as [|a l IH]; simpl.
  - apply readonly_ret.
  - apply readonly_bind; [apply Hf | intros b].
    apply readonly_bind; [apply IH | intros; apply readonly_ret].
Qed.

Section BuilderFacts.
Context `{JSMath} `{Collaborators W}.

Lemma readonly_samplePoint c d x prev i : readonly (samplePoint c d x prev i).
Proof.
  unfold samplePoint.
  apply readonly_bind; [|intros; apply readonly_ret].
  destruct c; try apply readonly_fmap.
  - apply readonly_generateHills.
  - apply readonly_generatePlateau.
  - apply readonly_generateRamp.
  - apply readonly_generateGap.
  - apply readonly_generateWashboard.
  - apply readonly_generateValley.
Qed.

Lemma readonly_buildPoints c d x prev : readonly (buildPoints c d x prev).
Proof.
  unfold buildPoints. apply readonly_bind; [|intros; apply readonly_ret].
  apply readonly_mapM. intros i. apply readonly_samplePoint.
Qed.

Lemma length_buildPoints c d x prev t :
  length (eval (buildPoints c d x prev) t) = nbPoints.
Proof.
  unfold eval, buildPoints. rewrite M_bind_eq. unfold mret, M_ret. cbn [fst].
  rewrite length_smoothSegmentPoints, length_mapM. reflexivity.
Qed.

Lemma selectChunkType_store d t :
  terrainMeshes (selectChunkType d t).2 = terrainMeshes t.
Proof. reflexivity. Qed.

#[local] Opaque buildPoints selectChunkType createPhysicsForSegment addTerrainDecorations.

Lemma createTerrainSegment_throws x w t :
  previousEndHeight (terrainMeshes t) = None ->
  (createTerrainSegment x w t).1.1 = None
  ∧ terrainMeshes (createTerrainSegment x w t).2 = terrainMeshes t.
Proof.
  intros Hprev. unfold createTerrainSegment.
  rewrite E_bind_eq, liftM_eq. cbn [fst snd].
  set (sc := selectChunkType (difficultyAt x) t).
  rewrite E_bind_eq, liftM_eq. cbn [fst snd gets].
  subst sc. rewrite selectChunkType_store, Hprev.
  cbn [mret E_ret fst snd]. split; [reflexivity | apply selectChunkType_store].
Qed.

Lemma createTerrainSegment_run x w t prev :
  previousEndHeight (terrainMeshes t) = Some prev ->
  exists w' t',
    createTerrainSegment x w t = (Some (builtSegment x prev t), w', t')
    ∧ terrainMeshes t' = terrainMeshes t ++ [builtSegment x prev t].
Proof.
  intros Hprev. unfold createTerrainSegment, builtSegment, eval, exec.
  pose proof (selectChunkType_store (difficultyAt x) t) as Hsc.
  unfold mbind at 1. unfold E_bind at 1. unfold liftM at 1.
  destruct (selectChunkType (difficultyAt x) t) as [c t1]. cbn [fst snd] in *.
  unfold mbind at 1. unfold E_bind at 1. unfold liftM at 1. cbn [gets].
  rewrite Hsc, Hprev.
  unfold mbind at 1. unfold E_bind at 1. unfold liftM at 1.
  pose proof (readonly_buildPoints c (difficultyAt x) x prev t1) as Hro.
  destruct (buildPoints c (difficultyAt x) x prev t1) as [pts t2]. cbn [fst snd] in *.
  subst t2.
  do 3 (unfold mbind at 1; unfold E_bind at 1; unfold ext at 1;
        match goal with |- context [answer ?c0 ?w0] => destruct (answer c0 w0) as [? ?] end).
  unfold mbind at 1. unfold E_bind at 1.
  match goal with |- context [createPhysicsForSegment pts c ?w0 t1] =>
    pose proof (keeps_store_createPhysicsForSegment pts c w0 t1) as Hphys;
    destruct (createPhysicsForSegment pts c w0 t1) as [[? wp] t3] end.
  unfold mbind at 1. unfold E_bind at 1.
  pose proof (keeps_store_addTerrainDecorations x pts c wp t3) as Hdeco.
  destruct (addTerrainDecorations x pts c wp t3) as [[? wd] t4].
  cbn [fst snd] in *.
  unfold mbind at 1. unfold E_bind at 1. unfold liftM at 1.
  cbn [fst snd modify mret E_ret].
  eexists _, _. split; [reflexivity|].
  cbn [push set_terrainMeshes terrainMeshes].
  rewrite Hdeco, Hphys, Hsc. reflexivity.
Qed.

Lemma createTerrainSegment_builds x w t prev :
  previousEndHeight (terrainMeshes t) = Some prev ->
  (createTerrainSegment x w t).1.1 = Some (builtSegment x prev t)
  ∧ terrainMeshes (createTerrainSegment x w t).2
    = terrainMeshes t ++ [builtSegment x prev t].
Proof.
  intros Hprev.
  destruct (createTerrainSegment_run x w t prev Hprev) as (w' & t' & -> & Hstore).
  auto.
Qed.

#[local] Transparent buildPoints selectChunkType createPhysicsForSegment addTerrainDecorations.

End BuilderFacts.

(** ** The tick at an invalid tracked position *)

Lemma previousEndHeight_snoc segs s pts :
  points s = Some pts -> pts ≠ [] ->
  exists h, previousEndHeight (segs ++ [s]) = Some h.
Proof.
  intros Hpts Hne. unfold previousEndHeight. rewrite last_snoc, Hpts.
  destruct (list.last pts) as [p|] eqn:Hlast.
  - eexists. reflexivity.
  - apply last_None in Hlast. contradiction.
Qed.

Section Tick.
Context `{JSMath} `{Collaborators W}.

Lemma previousEndHeight_after_build segs x prev t :
  exists h, previousEndHeight (segs ++ [builtSegment x prev t]) = Some h.
Proof.
  eapply previousEndHeight_snoc; [reflexivity|].
  intros Hnil. apply (f_equal length) in Hnil.
  rewrite length_buildPoints in Hnil. discriminate.
Qed.

Lemma generateAhead_S budget i existing :
  generateAhead (S budget) i existing =
  (segs ← liftM (gets terrainMeshes);
   let lastSegmentIndex :=
     match list.last segs with
     | Some lastSegment => indexOfSegment lastSegment
     | None => (-1)%Z
     end in
   if reaches lastSegmentIndex i VISIBLE_CHUNKS_AHEAD then mret (Some existing)
   else
     let nextStartX :=
       match list.last segs with
       | Some lastSegment => startX lastSegment + segmentWidth
       | None => 0
       end in
     if bool_decide (nextStartX ∈ existing) then
       _ ← ext ConsoleWarn; generateAhead budget i existing
     else
       created ← createTerrainSegment nextStartX;
       match created with
       | Some _ => generateAhead budget i (nextStartX :: existing)
       | None => mret (Some existing)
       end).
Proof. reflexivity. Qed.

(** With an infinite target the generation loop never leaves, unless the
    last stored segment has no sample to read. *)
Lemma generateAhead_infinite budget existing w t :
  previousEndHeight (terrainMeshes t) ≠ None ->
  (generateAhead budget Infinite existing w t).1.1 = None
  ∧ (length (terrainMeshes t)
     ≤ length (terrainMeshes (generateAhead budget Infinite existing w t).2))%nat.
Proof.
  revert existing w t. induction budget as [|budget IH]; intros existing w t Hprev.
  - simpl. auto.
  - rewrite generateAhead_S, E_bind_eq, liftM_eq.
    cbn [gets fst snd reaches].
    match goal with |- context [bool_decide (?x ∈ existing)] => set (next := x) end.
    case_bool_decide.
    + rewrite E_bind_eq, ext_eq. cbn [fst snd]. apply IH, Hprev.
    + rewrite E_bind_eq.
      destruct (previousEndHeight (terrainMeshes t)) as [prev|] eqn:Hp; [|contradiction].
      destruct (createTerrainSegment_builds next w t prev Hp) as [Hres Hstore].
      rewrite Hres.
      set (r := createTerrainSegment next w t) in *.
      destruct (IH (next :: existing) r.1.2 r.2) as [Hnone Hlen].
      { rewrite Hstore.
        destruct (previousEndHeight_after_build (terrainMeshes t) next prev t) as [h ->].
        discriminate. }
      split; [exact Hnone|].
      etransitivity; [|exact Hlen]. rewrite Hstore, length_app. simpl. lia.
Qed.

(** From an empty store the tick at [+Infinity] is inside the generation
    loop for good, the first segment already stored. *)
Lemma update_infinity_from_empty budget w t :
  terrainMeshes t = [] ->
  (update (S budget) (PositionX PosInf) w t).1.1 = None
  ∧ terrainMeshes (update (S budget) (PositionX PosInf) w t).2 ≠ [].
Proof.
  intros Hempty. unfold update. cbn [validIndex segmentIndexOf].
  rewrite E_bind_eq, liftM_eq. cbn [gets fst snd]. rewrite Hempty.
  cbn [map uniqueSegments].
  rewrite E_bind_eq. cbn [mret E_ret fst snd].
  rewrite E_bind_eq, liftM_eq. cbn [modify fst snd].
  rewrite E_bind_eq.
  set (t0 := set_terrainMeshes [] t).
  rewrite generateAhead_S, E_bind_eq, liftM_eq.
  cbn [gets fst snd reaches].
  change (terrainMeshes t0) with (@nil Segment). cbn [list.last].
  rewrite bool_decide_eq_false_2 by (intros Hin; inversion Hin).
  rewrite E_bind_eq.
  destruct (createTerrainSegment_builds 0 w t0 None eq_refl) as [Hres Hstore].
  rewrite Hres.
  set (r := createTerrainSegment 0 w t0) in *.
  destruct (generateAhead_infinite budget [Q2Qc 0] r.1.2 r.2) as [Hnone Hlen].
  { rewrite Hstore.
    destruct (previousEndHeight_after_build (terrainMeshes t0) 0 None t0) as [h ->].
    discriminate. }
  rewrite Hnone. cbn [mret E_ret fst snd]. split; [reflexivity|].
  intros Hnil. rewrite Hnil, Hstore, length_app in Hlen. simpl in Hlen. lia.
Qed.

End Tick.

Lemma abort_run `{Collaborators W} (w : W) (t : Terrain) :
  (_ ← ext ConsoleWarn; mret (Some Aborted)) w t
  = (Some Aborted, (answer ConsoleWarn w).2, t).
Proof. rewrite E_bind_eq, ext_eq. reflexivity. Qed.

Lemma update_invalid_index `{JSMath} `{Collaborators W}
    (budget : nat) (x : jsnumber) (w : W) (t : Terrain) :
  validIndex x = None ->
  update budget (PositionX x) w t = (Some Aborted, (answer ConsoleWarn w).2, t).
Proof. intros Hx. unfold update. rewrite Hx. apply abort_run. Qed.

Lemma validIndex_negative (q : Qc) :
  (Math_floor (q / segmentWidth) < 0)%Z -> validIndex (Fin q) = None.
Proof.
  intros Hneg. unfold validIndex. cbn [segmentIndexOf].
  rewrite bool_decide_eq_true_2; [reflexivity|].
  unfold ofZ, Qc_of_Z, Qclt. simpl. unfold Qlt. simpl. lia.
Qed.

(** C7, the part the code keeps: without a position, or with an [x] that is
    [NaN], minus infinity or finite with a negative segment index, the tick
    returns at once and the terrain is the one it was given. *)
Lemma update_aborts_unchanged `{JSMath} `{Collaborators W}
    (budget : nat) (p : Position) (w : W) (t : Terrain) :
  match p with
  | NoPosition => True
  | PositionX NaN => True
  | PositionX NegInf => True
  | PositionX PosInf => False
  | PositionX (Fin q) => (Math_floor (q / segmentWidth) < 0)%Z
  end ->
  (update budget p w t).1.1 = Some Aborted ∧ (update budget p w t).2 = t.
Proof.
  intros Hp. destruct p as [|[| | |q]]; try contradiction.
  - unfold update. rewrite abort_run. auto.
  - rewrite update_invalid_index by reflexivity. auto.
  - rewrite update_invalid_index by reflexivity. auto.
  - rewrite update_invalid_index by (apply validIndex_negative, Hp). auto.
Qed.

Lemma update_aborts_unchanged_witness :
  (update (H := approxMath) (H0 := busyWorld) 5 (PositionX (Fin (num (-3)))) 0%nat
     (newTerrain 42)).2 = newTerrain 42.
Proof.
  apply (update_aborts_unchanged (H := approxMath) (H0 := busyWorld)
           5 (PositionX (Fin (num (-3)))) 0%nat (newTerrain 42)).
  vm_compute. reflexivity.
Defined.

(** C7, at the failing input: with [x = +Infinity] on a freshly seeded
    terrain the tick passes the validity test, never returns, and by then
    has drawn from the generator and stored segments. *)
Lemma update_at_infinity_runs_on :
  (forall budget,
     let r := update (H := approxMath) (H0 := busyWorld) (S budget)
                (PositionX PosInf) 0%nat (newTerrain 42) in
     r.1.1 = None ∧ terrainMeshes r.2 ≠ [])
  ∧ seed (update (H := approxMath) (H0 := busyWorld) 1
            (PositionX PosInf) 0%nat (newTerrain 42)).2 ≠ 42%Z.
Proof.
  split.
  - intros budget. apply update_infinity_from_empty. reflexivity.
  - vm_compute. discriminate.
Qed.

(** ** The smoothing pass *)

Lemma validFrom_elem points : forall i k,
  k ∈ validFrom i points <->
  (i ≤ k)%nat ∧ exists p, points !! (k - i)%nat = Some p ∧ is_Some (pt_height p).
Proof.
  induction points as [|q points IH]; intros i k; simpl.
  - split; [intros Hk; inversion Hk | intros (_ & p & Hp & _); discriminate].
  - assert (Hrest : k ∈ validFrom (S i) points <->
              (i < k)%nat ∧ exists p, (q :: points) !! (k - i)%nat = Some p
                                      ∧ is_Some (pt_height p)).
    { rewrite IH. split.
      - intros (Hle & p & Hp & Hh). split; [lia|]. exists p. split; [|exact Hh].
        replace (k - i)%nat with (S (k - S i)) by lia. exact Hp.
      - intros (Hlt & p & Hp & Hh). split; [lia|]. exists p. split; [|exact Hh].
        replace (k - i)%nat with (S (k - S i)) in Hp by lia. exact Hp. }
    destruct (pt_height q) as [h|] eqn:Hq.
    + rewrite elem_of_cons, Hrest. split.
      * intros [-> | (Hlt & Hp)].
        -- split; [lia|]. exists q. rewrite Nat.sub_diag. rewrite Hq. eauto.
        -- split; [lia | exact Hp].
      * intros (Hle & p & Hp & Hh).
        destruct (decide (k = i)) as [->|Hne]; [left; reflexivity|].
        right. split; [lia|]. eauto.
    + rewrite Hrest. split.
      * intros (Hlt & Hp). split; [lia | exact Hp].
      * intros (Hle & p & Hp & Hh).
        destruct (decide (k = i)) as [->|Hne].
        -- rewrite Nat.sub_diag in Hp. simpl in Hp. injection Hp as <-.
           rewrite Hq in Hh. destruct Hh as [? Hh]. discriminate.
        -- split; [lia|]. eauto.
Qed.

Lemma validFrom_NoDup points : forall i, NoDup (validFrom i points).
Proof.
  induction points as [|q points IH]; intros i; simpl.
  - constructor.
  - destruct (pt_height q); [|apply IH].
    constructor; [|apply IH].
    rewrite validFrom_elem. intros (Hle & _). lia.
Qed.

Lemma valid_elem points k :
  k ∈ validFrom 0 points <-> exists p, points !! k = Some p ∧ is_Some (pt_height p).
Proof.
  rewrite validFrom_elem, Nat.sub_0_r. split; [intros (_ & Hp); exact Hp | intros Hp].
  split; [lia | exact Hp].
Qed.

Lemma foldl_updateAt_miss {A} (targets : list nat) (g : nat -> A -> A) rounds :
  forall (acc : list A) j,
  (forall i, i ∈ rounds -> targets !! i ≠ Some j) ->
  foldl (updateAt targets g) acc rounds !! j = acc !! j.
Proof.
  induction rounds as [|i rounds IH]; intros acc j Hmiss; simpl; [reflexivity|].
  rewrite IH by (intros i' Hi'; apply Hmiss; right; exact Hi').
  unfold updateAt. destruct (targets !! i) as [k|] eqn:Hk; [|reflexivity].
  apply list_lookup_alter_ne. intros ->. apply (Hmiss i); [left | exact Hk].
Qed.

Lemma foldl_updateAt_hit {A} (targets : list nat) (g : nat -> A -> A) rounds :
  forall (acc : list A) i0 j,
  NoDup targets -> NoDup rounds -> i0 ∈ rounds -> targets !! i0 = Some j ->
  foldl (updateAt targets g) acc rounds !! j = g i0 <$> acc !! j.
Proof.
  induction rounds as [|i rounds IH]; intros acc i0 j Htargets Hrounds Hin Hi0; simpl.
  - inversion Hin.
  - apply list.NoDup_cons in Hrounds as [Hnotin Hrounds].
    apply elem_of_cons in Hin as [-> | Hin].
    + rewrite foldl_updateAt_miss.
      * unfold updateAt. rewrite Hi0. apply list_lookup_alter_eq.
      * intros i' Hi' Heq. apply Hnotin.
        rewrite (NoDup_lookup _ _ _ _ Htargets Hi0 Heq). exact Hi'.
    + rewrite (IH _ i0) by assumption.
      unfold updateAt. destruct (targets !! i) as [k|] eqn:Hk; [|reflexivity].
      rewrite list_lookup_alter_ne; [reflexivity|].
      intros ->. apply Hnotin.
      rewrite (NoDup_lookup _ _ _ _ Htargets Hk Hi0). exact Hin.
Qed.

Lemma foldl_updateAt_fmap {A B} (f : A -> B) (targets : list nat) (g : nat -> A -> A) rounds :
  (forall i a, f (g i a) = f a) ->
  forall acc : list A, f <$> foldl (updateAt targets g) acc rounds = f <$> acc.
Proof.
  intros Hf. induction rounds as [|i rounds IH]; intros acc; simpl; [reflexivity|].
  rewrite IH. unfold updateAt. destruct (targets !! i) as [k|]; [|reflexivity].
  apply list_eq. intros j. rewrite !list_lookup_fmap.
  destruct (decide (k = j)) as [->|Hne].
  - rewrite list_lookup_alter_eq. destruct (acc !! j); simpl; [rewrite Hf|]; reflexivity.
  - rewrite list_lookup_alter_ne by exact Hne. reflexivity.
Qed.

Lemma writeBack_settle points k validPoint :
  NoDup (pt_x <$> points) -> points !! k = Some validPoint ->
  is_Some (pt_height validPoint) ->
  writeBack points k = <[k := settle validPoint]> points.
Proof.
  intros Hnodup Hk [h Hh]. unfold writeBack. rewrite Hk.
  assert (Hfind : list_find (fun p => pt_x p = pt_x validPoint) points = Some (k, validPoint)).
  { apply list_find_Some. split; [exact Hk|]. split; [reflexivity|].
    intros j y Hj Hlt Heq.
    assert (j = k); [|lia].
    apply (NoDup_lookup _ _ _ (pt_x validPoint) Hnodup);
      rewrite list_lookup_fmap; [rewrite Hj | rewrite Hk]; simpl; congruence. }
  rewrite Hfind, Hh. reflexivity.
Qed.

Lemma foldl_writeBack_lookup ks : forall points j,
  NoDup (pt_x <$> points) -> NoDup ks ->
  (forall k, k ∈ ks -> exists p, points !! k = Some p ∧ is_Some (pt_height p)) ->
  foldl writeBack points ks !! j
  = if decide (j ∈ ks) then settle <$> points !! j else points !! j.
Proof.
  induction ks as [|k ks IH]; intros points j Hx Hks Hvalid; simpl.
  - destruct (decide (j ∈ [])) as [Hin|_]; [inversion Hin | reflexivity].
  - apply list.NoDup_cons in Hks as [Hnotin Hks].
    destruct (Hvalid k) as (vp & Hk & Hh); [left|].
    rewrite (writeBack_settle points k vp Hx Hk Hh).
    assert (Hx' : NoDup (pt_x <$> <[k := settle vp]> points)).
    { rewrite list_fmap_insert. simpl.
      rewrite list_insert_id; [exact Hx|]. rewrite list_lookup_fmap, Hk. reflexivity. }
    rewrite IH; [|exact Hx'|exact Hks|].
    + destruct (decide (j = k)) as [->|Hne].
      * rewrite decide_False by exact Hnotin.
        rewrite decide_True by left.
        rewrite list_lookup_insert_eq by (apply lookup_lt_Some in Hk; exact Hk).
        rewrite Hk. reflexivity.
      * rewrite list_lookup_insert_ne by congruence.
        destruct (decide (j ∈ ks)) as [Hin|Hnin].
        -- rewrite decide_True by (right; exact Hin). reflexivity.
        -- rewrite decide_False; [reflexivity|].
           intros Hin. apply elem_of_cons in Hin as [? | ?]; contradiction.
    + intros k' Hk'. rewrite list_lookup_insert_ne by (intros ->; contradiction).
      apply Hvalid. right. exact Hk'.
Qed.

Lemma length_validFrom points : forall i, (length (validFrom i points) ≤ length points)%nat.
Proof.
  induction points as [|q points IH]; intros i; simpl; [lia|].
  destruct (pt_height q); simpl; specialize (IH (S i)); lia.
Qed.

Lemma smoothSegmentPoints_unfold points :
  (5 ≤ length (validFrom 0 points))%nat ->
  smoothSegmentPoints points
  = foldl writeBack
      (foldl (updateAt (validFrom 0 points) (fun i => set_y (smoothedValue points i)))
         points (seq 2 (length (validFrom 0 points) - 4)))
      (validFrom 0 points).
Proof.
  intros Hn. unfold smoothSegmentPoints.
  pose proof (length_validFrom points 0).
  rewrite !bool_decide_eq_false_2 by lia. reflexivity.
Qed.

Lemma smoothSegmentPoints_short points :
  (length (validFrom 0 points) < 5)%nat -> smoothSegmentPoints points = points.
Proof.
  intros Hn. unfold smoothSegmentPoints.
  case_bool_decide; [reflexivity|]. rewrite bool_decide_eq_true_2 by lia. reflexivity.
Qed.

(** A sample with ground, the [i]-th of them: it keeps its [x], and its [y]
    and [height] are both the smoothed value when [i] is interior and its
    former [y] otherwise. *)
Lemma smoothSegmentPoints_valid points i k p :
  NoDup (pt_x <$> points) ->
  (5 ≤ length (validFrom 0 points))%nat ->
  validFrom 0 points !! i = Some k -> points !! k = Some p ->
  smoothSegmentPoints points !! k
  = Some (settle (if bool_decide (2 ≤ i ∧ i + 2 < length (validFrom 0 points))%nat
                  then set_y (smoothedValue points i) p else p)).
Proof.
  intros Hx Hn Hi Hk.
  rewrite smoothSegmentPoints_unfold by exact Hn.
  set (valid := validFrom 0 points) in *.
  set (g := fun i => set_y (smoothedValue points i)).
  set (rounds := seq 2 (length valid - 4)).
  set (pts1 := foldl (updateAt valid g) points rounds).
  assert (Hvalid : NoDup valid) by apply validFrom_NoDup.
  assert (Hx1 : pt_x <$> pts1 = pt_x <$> points)
    by (apply foldl_updateAt_fmap; reflexivity).
  assert (Hh1 : pt_height <$> pts1 = pt_height <$> points)
    by (apply foldl_updateAt_fmap; reflexivity).
  assert (Hkin : k ∈ valid) by (eapply list_elem_of_lookup_2; exact Hi).
  rewrite foldl_writeBack_lookup.
  - rewrite decide_True by exact Hkin.
    case_bool_decide as Hint.
    + assert (Hround : i ∈ rounds).
      { subst rounds. apply elem_of_seq. lia. }
      subst pts1. rewrite (foldl_updateAt_hit valid g rounds points i k); auto.
      * rewrite Hk. reflexivity.
      * apply NoDup_seq.
    + subst pts1. rewrite foldl_updateAt_miss.
      * rewrite Hk. reflexivity.
      * intros i' Hi' Heq. apply Hint.
        rewrite (NoDup_lookup _ _ _ _ Hvalid Hi Heq).
        subst rounds. apply elem_of_seq in Hi'. lia.
  - rewrite Hx1. exact Hx.
  - exact Hvalid.
  - intros k' Hk'. apply valid_elem in Hk' as (p' & Hp' & Hh').
    assert (Hlook : pt_height <$> pts1 !! k' = Some (pt_height p')).
    { rewrite <- list_lookup_fmap, Hh1, list_lookup_fmap, Hp'. reflexivity. }
    destruct (pts1 !! k') as [p1|]; [|discriminate].
    exists p1. split; [reflexivity|]. simpl in Hlook. injection Hlook as ->. exact Hh'.
Qed.

Lemma writeBack_keeps_gap points k j p :
  points !! j = Some p -> pt_height p = None -> writeBack points k !! j = Some p.
Proof.
  intros Hj Hnone. unfold writeBack.
  destruct (points !! k) as [vp|]; [|exact Hj].
  destruct (list_find _ points) as [[j' op]|] eqn:Hfind; [|exact Hj].
  destruct (pt_height op) eqn:Hop; [|exact Hj].
  apply list_find_Some in Hfind as (Hj' & _).
  rewrite list_lookup_insert_ne; [exact Hj|].
  intros ->. rewrite Hj in Hj'. injection Hj' as <-. congruence.
Qed.

Lemma foldl_writeBack_keeps_gap ks : forall points j p,
  points !! j = Some p -> pt_height p = None ->
  foldl writeBack points ks !! j = Some p.
Proof.
  induction ks as [|k ks IH]; intros points j p Hj Hnone; simpl; [exact Hj|].
  apply IH; [|exact Hnone]. apply writeBack_keeps_gap; assumption.
Qed.

(** A sample without ground is never written to. *)
Lemma smoothSegmentPoints_gap points j p :
  points !! j = Some p -> pt_height p = None ->
  smoothSegmentPoints points !! j = Some p.
Proof.
  intros Hj Hnone.
  destruct (decide (5 ≤ length (validFrom 0 points))%nat) as [Hn|Hn].
  - rewrite smoothSegmentPoints_unfold by exact Hn.
    apply foldl_writeBack_keeps_gap; [|exact Hnone].
    rewrite foldl_updateAt_miss; [exact Hj|].
    intros i _ Hi. apply list_elem_of_lookup_2 in Hi.
    apply valid_elem in Hi as (p' & Hp' & [h Hh]). congruence.
  - rewrite smoothSegmentPoints_short by lia. exact Hj.
Qed.

(** The window of round [i], written out. *)
Lemma windowSum_triangular (h : list Qc) (i : nat) h0 h1 h2 h3 h4 :
  (2 ≤ i)%nat ->
  h !! (i - 2)%nat = Some h0 -> h !! (i - 1)%nat = Some h1 -> h !! i = Some h2 ->
  h !! (i + 1)%nat = Some h3 -> h !! (i + 2)%nat = Some h4 ->
  windowSum h (Z.of_nat i)
  = h0 * num (1 # 3) + h1 * num (2 # 3) + h2 + h3 * num (2 # 3) + h4 * num (1 # 3).
Proof.
  intros Hi H0 H1 H2 H3 H4. unfold windowSum, at_index. simpl.
  rewrite !bool_decide_eq_true_2 by lia.
  replace (Z.to_nat (Z.of_nat i + -2)) with (i - 2)%nat by lia.
  replace (Z.to_nat (Z.of_nat i + -1)) with (i - 1)%nat by lia.
  replace (Z.to_nat (Z.of_nat i + 0)) with i by lia.
  replace (Z.to_nat (Z.of_nat i + 1)) with (i + 1)%nat by lia.
  replace (Z.to_nat (Z.of_nat i + 2)) with (i + 2)%nat by lia.
  rewrite H0, H1, H2, H3, H4. simpl.
  change (weight (-2)) with (num (1 # 3)).
  change (weight (-1)) with (num (2 # 3)).
  change (weight 0) with (Q2Qc 1).
  change (weight 1) with (num (2 # 3)).
  change (weight 2) with (num (1 # 3)).
  ring.
Qed.

(** C8, as stated, fails twice.  A flat profile of five samples at height 1
    is not left unchanged: its middle sample comes out at 3/5.  And of two
    profiles that differ only in the last sample, beyond a gap, the sample at
    index 2, before the gap, is smoothed to two different values: its window
    reaches across the gap. *)
Lemma smoothSegmentPoints_counterexample :
  smoothSegmentPoints (profile [Some 1; Some 1; Some 1; Some 1; Some 1])
    ≠ profile [Some 1; Some 1; Some 1; Some 1; Some 1]
  ∧ (p ← smoothSegmentPoints
           (profile [Some 1; Some 1; Some 1; None; Some 1; Some 1]) !! 2%nat; pt_y p)
    ≠ (p ← smoothSegmentPoints
           (profile [Some 1; Some 1; Some 1; None; Some 1; Some (num 7)]) !! 2%nat; pt_y p).
Proof.
  split.
  - intros Heq.
    apply (f_equal (fun l => this <$> (p ← l !! 2%nat; pt_y p))) in Heq.
    vm_compute in Heq. discriminate.
  - intros Heq. apply (f_equal (fmap this)) in Heq. vm_compute in Heq. discriminate.
Qed.

(** C8, amended: there is one factor [c] such that, for samples with
    distinct [x] of which at least five have ground, the pass (1) gives every
    interior sample of the sequence of samples with ground, that is all but
    its first two and last two, [c] times the triangular sum
    [h0/3 + 2 h1/3 + h2 + 2 h3/3 + h4/3] of the original heights of its two
    neighbours on either side in that sequence, whether or not a gap lies
    between them, (2) leaves the first two and last two samples with ground
    at their [y], and (3) leaves every sample without ground as it is. *)
Theorem smoothSegmentPoints_design :
  exists c : Qc, c ≠ 0 ∧
  forall points : list SamplePoint,
    NoDup (pt_x <$> points) ->
    (5 ≤ length (validFrom 0 points))%nat ->
    (forall i k p h0 h1 h2 h3 h4,
        validFrom 0 points !! i = Some k -> points !! k = Some p ->
        (2 ≤ i)%nat -> (i + 2 < length (validFrom 0 points))%nat ->
        originalHeights points !! (i - 2)%nat = Some h0 ->
        originalHeights points !! (i - 1)%nat = Some h1 ->
        originalHeights points !! i = Some h2 ->
        originalHeights points !! (i + 1)%nat = Some h3 ->
        originalHeights points !! (i + 2)%nat = Some h4 ->
        let v := c * (h0 * num (1 # 3) + h1 * num (2 # 3) + h2
                      + h3 * num (2 # 3) + h4 * num (1 # 3)) in
        smoothSegmentPoints points !! k
        = Some {| pt_x := pt_x p; pt_y := Some v; pt_height := Some v |})
    ∧ (forall i k p,
        validFrom 0 points !! i = Some k -> points !! k = Some p ->
        (i < 2 ∨ length (validFrom 0 points) ≤ i + 2)%nat ->
        smoothSegmentPoints points !! k
        = Some {| pt_x := pt_x p; pt_y := pt_y p; pt_height := pt_y p |})
    ∧ (forall j p,
        points !! j = Some p -> pt_height p = None ->
        smoothSegmentPoints points !! j = Some p).
Proof.
  exists (1 / ofZ windowSize). split; [discriminate|].
  intros points Hx Hn. split; [|split].
  - intros i k p h0 h1 h2 h3 h4 Hi Hk Hlo Hhi H0 H1 H2 H3 H4 v.
    rewrite (smoothSegmentPoints_valid points i k p Hx Hn Hi Hk).
    rewrite bool_decide_eq_true_2 by lia.
    unfold settle, set_y, smoothedValue. simpl.
    rewrite (windowSum_triangular _ i h0 h1 h2 h3 h4) by assumption.
    subst v. repeat f_equal; field; discriminate.
  - intros i k p Hi Hk Hend.
    rewrite (smoothSegmentPoints_valid points i k p Hx Hn Hi Hk).
    rewrite bool_decide_eq_false_2 by lia. reflexivity.
  - intros j p Hj Hnone. apply smoothSegmentPoints_gap; assumption.
Qed.

Lemma smoothSegmentPoints_design_witness :
  exists c : Qc, c ≠ 0 ∧
  let points := profile [Some 1; Some 1; Some 1; None; Some 1; Some (num 7)] in
  smoothSegmentPoints points !! 2%nat
  = Some {| pt_x := ofZ 2;
            pt_y := Some (c * (1 * num (1 # 3) + 1 * num (2 # 3) + 1
                               + 1 * num (2 # 3) + num 7 * num (1 # 3)));
            pt_height := Some (c * (1 * num (1 # 3) + 1 * num (2 # 3) + 1
                                    + 1 * num (2 # 3) + num 7 * num (1 # 3))) |}
  ∧ smoothSegmentPoints points !! 5%nat
    = Some {| pt_x := ofZ 5; pt_y := Some (num 7); pt_height := Some (num 7) |}
  ∧ smoothSegmentPoints points !! 3%nat
    = Some {| pt_x := ofZ 3; pt_y := Some (num (-24)); pt_height := None |}.
Proof.
  destruct smoothSegmentPoints_design as (c & Hc & Hspec).
  exists c. split; [exact Hc|]. intros points.
  destruct (Hspec points) as (Hinner & Hends & Hgaps).
  - apply (bool_decide_unpack _). vm_compute. exact I.
  - vm_compute. lia.
  - split; [|split].
    + apply (Hinner 2%nat 2%nat {| pt_x := ofZ 2; pt_y := Some 1; pt_height := Some 1 |}
               1 1 1 1 (num 7)); try reflexivity; vm_compute; lia.
    + apply (Hends 4%nat 5%nat
               {| pt_x := ofZ 5; pt_y := Some (num 7); pt_height := Some (num 7) |});
        try reflexivity. right. vm_compute. lia.
    + apply (Hgaps 3%nat {| pt_x := ofZ 3; pt_y := Some (num (-24)); pt_height := None |});
        reflexivity.
Defined.

(** ** Order reasoning on canonical rationals *)

Lemma this_plus (a b : Qc) : (this (a + b) == this a + this b)%Q.
Proof. simpl. apply Qred_correct. Qed.

Lemma this_mult (a b : Qc) : (this (a * b) == this a * this b)%Q.
Proof. simpl. apply Qred_correct. Qed.

Lemma this_opp (a : Qc) : (this (- a) == - this a)%Q.
Proof. simpl. apply Qred_correct. Qed.

Lemma this_minus (a b : Qc) : (this (a - b) == this a - this b)%Q.
Proof. unfold Qcminus. rewrite this_plus, this_opp. reflexivity. Qed.

Lemma this_inv (a : Qc) : (this (/ a) == / this a)%Q.
Proof. simpl. apply Qred_correct. Qed.

Lemma this_div (a b : Qc) : (this (a / b) == this a / this b)%Q.
Proof. unfold Qcdiv. rewrite this_mult, this_inv. reflexivity. Qed.

Lemma this_num (q : Q) : (this (num q) == q)%Q.
Proof. simpl. apply Qred_correct. Qed.

Lemma this_ofZ (z : Z) : this (ofZ z) = inject_Z z.
Proof. reflexivity. Qed.

Ltac push_this :=
  repeat (rewrite ?this_plus, ?this_mult, ?this_div, ?this_minus, ?this_opp,
            ?this_num, ?this_ofZ in * ).

Ltac inv_consts :=
  unfold Qdiv in *;
  repeat match goal with
  | |- context [Qinv (?n # ?d)] =>
      let r := eval cbv in (Qinv (n # d)) in change (Qinv (n # d)) with r
  | H : context [Qinv (?n # ?d)] |- _ =>
      let r := eval cbv in (Qinv (n # d)) in change (Qinv (n # d)) with r in H
  end.

(** Linear goals over [Qc], sent to [Q]. *)
Ltac qc_lra :=
  unfold Qclt, Qcle, segmentWidth in *; push_this; unfold inject_Z in *; inv_consts; lra.

Lemma floor_ge (z : Z) (x : Qc) : (z ≤ Math_floor x)%Z <-> ofZ z ≤ x.
Proof.
  unfold Math_floor, Qcle. rewrite this_ofZ. split.
  - intros Hz. apply Qle_trans with (inject_Z (Qfloor x)); [|apply Qfloor_le].
    rewrite <- Zle_Qle. exact Hz.
  - intros Hz. pose proof (Qlt_floor x) as Hlt.
    assert (Hzz : (inject_Z z < inject_Z (Qfloor x + 1))%Q)
      by (eapply Qle_lt_trans; eassumption).
    rewrite <- Zlt_Qlt in Hzz. lia.
Qed.

Lemma floor_lt (z : Z) (x : Qc) : (Math_floor x < z)%Z <-> x < ofZ z.
Proof.
  split.
  - intros Hz. apply Qcnot_le_lt. intros Hle. apply floor_ge in Hle. lia.
  - intros Hz. destruct (Z_lt_le_dec (Math_floor x) z) as [Hlt|Hle]; [exact Hlt|].
    apply floor_ge in Hle. exfalso. exact (Qclt_not_le _ _ Hz Hle).
Qed.

(** ** The sample a query reads *)

Lemma sampleIndex_nonneg len startX x :
  (0 < len)%nat -> startX ≤ x -> (0 ≤ sampleIndex len startX x)%Z.
Proof.
  intros Hlen Hx. unfold sampleIndex. apply floor_ge.
  assert (HL : (0 <= inject_Z (Z.of_nat len - 1))%Q).
  { change 0%Q with (inject_Z 0). rewrite <- Zle_Qle. lia. }
  unfold Qcle, segmentWidth in *. push_this. 
  change (this (Q2Qc 0)) with 0%Q in *. change (inject_Z 0) with 0%Q.
  set (L := inject_Z (Z.of_nat len - 1)) in *. clearbody L.
  unfold Qdiv. change (/ 40)%Q with (1 # 40)%Q. nra.
Qed.

Lemma sampleIndex_below len startX x :
  (1 < len)%nat -> x < startX + segmentWidth ->
  (sampleIndex len startX x < Z.of_nat len - 1)%Z.
Proof.
  intros Hlen Hx. unfold sampleIndex. apply floor_lt.
  assert (HL : (0 < inject_Z (Z.of_nat len - 1))%Q).
  { change 0%Q with (inject_Z 0). rewrite <- Zlt_Qlt. lia. }
  unfold Qclt, segmentWidth in *. push_this.
  set (L := inject_Z (Z.of_nat len - 1)) in *. clearbody L.
  unfold Qdiv. change (/ 40)%Q with (1 # 40)%Q. nra.
Qed.

Lemma ofZ_0 : ofZ 0 = 0.
Proof. apply Qc_is_canon. reflexivity. Qed.

Lemma sampleIndex_single startX x : sampleIndex 1 startX x = 0%Z.
Proof.
  unfold sampleIndex. change (Z.of_nat 1 - 1)%Z with 0%Z. rewrite ofZ_0.
  replace ((x - startX) / segmentWidth * 0) with (Q2Qc 0) by ring.
  reflexivity.
Qed.

(** The reads of [heightInSegment] stay inside a non-empty array. *)
Lemma sample_index_in_range (pts : list SamplePoint) (startX x : Qc) :
  pts ≠ [] -> startX ≤ x -> x < startX + segmentWidth ->
  let index := sampleIndex (length pts) startX x in
  is_Some (at_index pts index)
  ∧ ((index < Z.of_nat (length pts) - 1)%Z -> is_Some (at_index pts (index + 1))).
Proof.
  intros Hne Hlo Hhi index.
  assert (Hlen : (0 < length pts)%nat) by (destruct pts; [contradiction | simpl; lia]).
  pose proof (sampleIndex_nonneg (length pts) startX x Hlen Hlo) as H0.
  assert (Hin : (index < Z.of_nat (length pts))%Z).
  { destruct (decide (length pts = 1%nat)) as [H1|H1].
    - subst index. rewrite H1, sampleIndex_single. lia.
    - pose proof (sampleIndex_below (length pts) startX x ltac:(lia) Hhi). subst index. lia. }
  fold index in H0. unfold at_index. split.
  - rewrite bool_decide_eq_true_2 by exact H0. apply lookup_lt_is_Some. lia.
  - intros Hnext. rewrite bool_decide_eq_true_2 by lia. apply lookup_lt_is_Some. lia.
Qed.

(** ** Samples of a gap segment *)

(** [normalizedX > 0.3 && normalizedX < 0.7] holds for the samples 9 to 20. *)
Lemma isGap_index (i : nat) :
  (i < nbPoints)%nat ->
  bool_decide (num 0.3 < ofZ (Z.of_nat i) / ofZ (Z.of_nat nbPoints - 1))
  && bool_decide (ofZ (Z.of_nat i) / ofZ (Z.of_nat nbPoints - 1) < num 0.7)
  = (9 <=? i)%nat && (i <=? 20)%nat.
Proof.
  unfold nbPoints. intros Hi.
  do 30 (destruct i as [|i]; [vm_compute; reflexivity|]). lia.
Qed.

Lemma sampleX_before_void (startX : Qc) (i : nat) :
  (i ≤ 8)%nat -> sampleX startX i < startX + num 17.5.
Proof.
  intros Hi. unfold sampleX. apply Qcplus_lt_mono_l.
  do 9 (destruct i as [|i]; [vm_compute; reflexivity|]). lia.
Qed.

Lemma sampleX_after_void (startX : Qc) (i : nat) :
  (21 ≤ i)%nat -> (i < nbPoints)%nat -> startX + num 22.5 ≤ sampleX startX i.
Proof.
  unfold nbPoints. intros Hlo Hhi. unfold sampleX.
  apply Qcplus_le_mono_l.
  do 21 (destruct i as [|i]; [lia|]).
  do 9 (destruct i as [|i]; [vm_compute; discriminate|]). lia.
Qed.

Lemma sampleX_inj (startX : Qc) (i j : nat) : sampleX startX i = sampleX startX j -> i = j.
Proof.
  unfold sampleX. intros Heq.
  apply (inj (Qcplus startX)) in Heq.
  assert (Hij : ofZ (Z.of_nat i) = ofZ (Z.of_nat j)).
  { assert (Hc : forall a : Qc,
               a / ofZ (Z.of_nat nbPoints - 1) * segmentWidth * num (29 # 40) = a).
    { intros a. apply Qc_is_canon. unfold segmentWidth, nbPoints. push_this.
      change (inject_Z (Z.of_nat 30 - 1)) with 29%Q. field. }
    rewrite <- (Hc (ofZ (Z.of_nat i))), Heq, Hc. reflexivity. }
  apply (f_equal this) in Hij. rewrite !this_ofZ in Hij.
  apply (f_equal Qnum) in Hij. simpl in Hij. lia.
Qed.

Lemma void_window_bounds (startX difficulty : Qc) :
  startX + num 17.5 ≤ gapStart startX (startX + segmentWidth) difficulty
  ∧ gapEnd startX (startX + segmentWidth) difficulty ≤ startX + num 22.5.
Proof.
  unfold gapStart, gapEnd, Math_min. split; repeat case_bool_decide; qc_lra.
Qed.

Section GapSamples.
Context `{JSMath}.

(** Outside the span [startX + 17.5, startX + 22.5], which holds the void
    window, [generateGap] returns a number. *)
Lemma generateGap_ground x startX difficulty t :
  x < startX + num 17.5 ∨ startX + num 22.5 ≤ x ->
  is_Some (generateGap x startX (startX + segmentWidth) difficulty t).1.
Proof.
  intros Hx. destruct (void_window_bounds startX difficulty) as [Hs He].
  unfold generateGap.
  set (gs := gapStart _ _ _) in *. set (ge := gapEnd _ _ _) in *.
  repeat case_bool_decide; try (rewrite M_bind_eq; eexists; reflexivity).
  exfalso. destruct Hx as [Hx|Hx]; qc_lra.
Qed.

Lemma samplePoint_x c d startX prev i t :
  pt_x (samplePoint c d startX prev i t).1 = sampleX startX i.
Proof. unfold samplePoint. rewrite M_bind_eq. reflexivity. Qed.

Lemma samplePoint_gap_void d startX prev i t :
  (9 ≤ i)%nat -> (i ≤ 20)%nat ->
  pt_height (samplePoint gap d startX prev i t).1 = None.
Proof.
  intros Hlo Hhi. unfold samplePoint. rewrite M_bind_eq.
  cbn [mret M_ret fst pt_height].
  rewrite bool_decide_eq_true_2 by reflexivity.
  rewrite andb_true_l, isGap_index by (unfold nbPoints; lia).
  replace (9 <=? i)%nat with true by (symmetry; apply Nat.leb_le; lia).
  replace (i <=? 20)%nat with true by (symmetry; apply Nat.leb_le; lia).
  reflexivity.
Qed.

Lemma samplePoint_gap_ground d startX prev i t :
  (i < nbPoints)%nat -> (i ≤ 8 ∨ 21 ≤ i)%nat ->
  exists v, pt_y (samplePoint gap d startX prev i t).1 = Some v
            ∧ pt_height (samplePoint gap d startX prev i t).1 = Some v.
Proof.
  intros Hi Hout. unfold samplePoint. rewrite M_bind_eq.
  cbn [mret M_ret fst pt_height pt_y].
  rewrite bool_decide_eq_true_2 by reflexivity.
  rewrite andb_true_l, isGap_index by exact Hi.
  assert (Hng : (9 <=? i)%nat && (i <=? 20)%nat = false).
  { destruct Hout as [Hout|Hout].
    - replace (9 <=? i)%nat with false; [reflexivity|].
      symmetry. apply Nat.leb_gt. lia.
    - replace (i <=? 20)%nat with false; [apply andb_false_r|].
      symmetry. apply Nat.leb_gt. lia. }
  rewrite Hng.
  destruct (generateGap_ground (sampleX startX i) startX d t) as [g Hg].
  { destruct Hout as [Hout|Hout].
    - left. apply sampleX_before_void. exact Hout.
    - right. apply sampleX_after_void; assumption. }
  fold (sampleX startX i). rewrite Hg.
  destruct prev as [prev|]; [|eauto].
  destruct (bool_decide (0 < i)%nat && bool_decide (i < 5)%nat); eauto.
Qed.

End GapSamples.

Lemma mapM_readonly_lookup {A B} (f : A -> M B) (l : list A) (t : Terrain) :
  (forall a, readonly (f a)) ->
  forall i a, l !! i = Some a -> (mapM f l t).1 !! i = Some (f a t).1.
Proof.
  intros Hf. induction l as [|b l IH]; intros i a Hi; [discriminate|].
  simpl. rewrite M_bind_eq, (Hf b t), M_bind_eq.
  rewrite (readonly_mapM f l Hf t). cbn [mret M_ret fst].
  destruct i as [|i]; simpl in *.
  - injection Hi as ->. reflexivity.
  - apply IH. exact Hi.
Qed.

Lemma smoothSegmentPoints_keeps_ground points k p :
  NoDup (pt_x <$> points) -> points !! k = Some p ->
  is_Some (pt_height p) -> is_Some (pt_y p) ->
  exists p', smoothSegmentPoints points !! k = Some p' ∧ is_Some (pt_height p').
Proof.
  intros Hx Hk Hh Hy.
  destruct (decide (5 ≤ length (validFrom 0 points))%nat) as [Hn|Hn].
  - assert (Hin : k ∈ validFrom 0 points) by (apply valid_elem; eauto).
    apply list_elem_of_lookup_1 in Hin as [i Hi].
    rewrite (smoothSegmentPoints_valid points i k p Hx Hn Hi Hk).
    eexists. split; [reflexivity|].
    case_bool_decide; simpl; [eauto | exact Hy].
  - rewrite smoothSegmentPoints_short by lia. eauto.
Qed.

Lemma find_app_last {A} (f : A -> bool) (l : list A) (a : A) :
  (forall b, b ∈ l -> f b = false) -> f a = true -> find f (l ++ [a]) = Some a.
Proof.
  intros Hl Ha. induction l as [|b l IH]; simpl.
  - rewrite Ha. reflexivity.
  - rewrite (Hl b) by left. apply IH. intros c Hc. apply Hl. right. exact Hc.
Qed.

(** A query inside a segment with at least two samples either reads a
    sample without ground and answers [null], or answers a number. *)
Lemma heightInSegment_cases segment pts x :
  points segment = Some pts -> (1 < length pts)%nat ->
  startX segment ≤ x -> x < startX segment + segmentWidth ->
  exists p, pts !! Z.to_nat (sampleIndex (length pts) (startX segment) x) = Some p
    ∧ ((pt_height p = None ∧ heightInSegment segment x = JNull)
       ∨ (is_Some (pt_height p) ∧ exists h, heightInSegment segment x = JNum h)).
Proof.
  intros Hpts Hlen Hlo Hhi.
  assert (Hne : pts ≠ []) by (intros ->; simpl in Hlen; lia).
  destruct (sample_index_in_range pts (startX segment) x Hne Hlo Hhi) as [[p Hp] Hnext].
  pose proof (sampleIndex_nonneg (length pts) (startX segment) x ltac:(lia) Hlo) as H0.
  pose proof (sampleIndex_below (length pts) (startX segment) x Hlen Hhi) as H1.
  destruct (Hnext H1) as [p2 Hp2].
  exists p. split.
  { unfold at_index in Hp. rewrite bool_decide_eq_true_2 in Hp by exact H0. exact Hp. }
  unfold heightInSegment. rewrite Hpts.
  destruct pts as [|q pts']; [contradiction|].
  fold (sampleIndex (length (q :: pts')) (startX segment) x).
  rewrite Hp.
  destruct (pt_height p) as [h|].
  - right. split; [eauto|].
    rewrite bool_decide_eq_true_2 by exact H1. rewrite Hp2. eauto.
  - left. auto.
Qed.

Section GapSegment.
Context `{JSMath}.

Lemma builtSegment_fields x prev t :
  startX (builtSegment x prev t) = x
  ∧ chunkType (builtSegment x prev t) = eval (selectChunkType (difficultyAt x)) t
  ∧ points (builtSegment x prev t)
    = Some (eval (buildPoints (chunkType (builtSegment x prev t)) (difficultyAt x) x prev)
                 (exec (selectChunkType (difficultyAt x)) t)).
Proof. unfold builtSegment. cbn [startX chunkType points]. auto. Qed.

Lemma rawPoints_lookup c d startX prev t i :
  (i < nbPoints)%nat ->
  (mapM (samplePoint c d startX prev) (seq 0 nbPoints) t).1 !! i
  = Some (samplePoint c d startX prev i t).1.
Proof.
  intros Hi. apply mapM_readonly_lookup.
  - intros a. apply readonly_samplePoint.
  - apply lookup_seq. split; [reflexivity | exact Hi].
Qed.

Lemma rawPoints_NoDup c d startX prev t :
  NoDup (pt_x <$> (mapM (samplePoint c d startX prev) (seq 0 nbPoints) t).1).
Proof.
  apply NoDup_alt. intros i j x Hi Hj.
  rewrite list_lookup_fmap in Hi, Hj.
  assert (Hlen := length_mapM (samplePoint c d startX prev) (seq 0 nbPoints) t).
  rewrite length_seq in Hlen.
  assert (Hi' : (i < nbPoints)%nat).
  { rewrite <- Hlen. apply lookup_lt_is_Some. destruct (_ !! i); [eauto | discriminate]. }
  assert (Hj' : (j < nbPoints)%nat).
  { rewrite <- Hlen. apply lookup_lt_is_Some. destruct (_ !! j); [eauto | discriminate]. }
  rewrite rawPoints_lookup in Hi, Hj by assumption.
  simpl in Hi, Hj. rewrite samplePoint_x in Hi, Hj.
  apply (sampleX_inj startX). congruence.
Qed.

(** In a built gap segment exactly the samples 9 to 20 are without ground. *)
Lemma gapPoints_heights d startX prev t i :
  (i < nbPoints)%nat ->
  exists p, eval (buildPoints gap d startX prev) t !! i = Some p
    ∧ (pt_height p = None <-> (9 ≤ i ∧ i ≤ 20)%nat).
Proof.
  intros Hi. unfold eval, buildPoints. rewrite M_bind_eq. cbn [mret M_ret fst].
  set (raw := (mapM (samplePoint gap d startX prev) (seq 0 nbPoints) t).1).
  assert (Hraw : raw !! i = Some (samplePoint gap d startX prev i t).1)
    by (apply rawPoints_lookup; exact Hi).
  destruct (decide (9 ≤ i ∧ i ≤ 20)%nat) as [[Hlo Hhi]|Hout].
  - pose proof (samplePoint_gap_void d startX prev i t Hlo Hhi) as Hnone.
    eexists. split; [apply smoothSegmentPoints_gap; [exact Hraw | exact Hnone]|].
    split; [lia | intros _; exact Hnone].
  - destruct (samplePoint_gap_ground d startX prev i t Hi ltac:(lia)) as (v & Hy & Hh).
    destruct (smoothSegmentPoints_keeps_ground raw i _ (rawPoints_NoDup _ _ _ _ _) Hraw)
      as (p' & Hp' & [h' Hh']); [rewrite Hh; eauto | rewrite Hy; eauto |].
    exists p'. split; [exact Hp'|]. split; [congruence | intros; contradiction].
Qed.

End GapSegment.

(** The sample index falls in [9, 20] exactly on
    [[startX + 360/29, startX + 840/29)]. *)
Lemma sampleIndex_void (startX x : Qc) :
  (9 ≤ sampleIndex nbPoints startX x ∧ sampleIndex nbPoints startX x ≤ 20)%Z
  <-> startX + num (360 # 29) ≤ x ∧ x < startX + num (840 # 29).
Proof.
  unfold sampleIndex, nbPoints. change (Z.of_nat 30 - 1)%Z with 29%Z.
  assert (H20 : forall z, (z ≤ 20 <-> z < 21)%Z) by (intros; lia).
  rewrite H20, floor_ge, floor_lt.
  split; intros [Hlo Hhi]; split; qc_lra.
Qed.

(** ** Height queries in a gap segment *)

(** C4, as stated, fails: after [new Terrain(scene, world, 6)] the call
    [createTerrainSegment(1520)] builds a gap segment whose void window
    starts at 1538.2872, and the query at 1538.28, just outside the window,
    still answers [null]. *)
Lemma gap_query_counterexample :
  let constructed := constructor (H := approxMath) (H0 := idleWorld) 6 0%nat in
  let built :=
    createTerrainSegment (H := approxMath) (H0 := idleWorld) (num 1520)
      constructed.1.2 constructed.2 in
  (chunkType <$> built.1.1,
   bool_decide (num 1538.28 < gapStart (num 1520) (num 1520 + segmentWidth)
                                (difficultyAt (num 1520))),
   (getTerrainHeightAt (H := approxMath) (num 1538.28) built.2).1)
  = (Some gap, true, JNull).
Proof. vm_compute. reflexivity. Qed.

(** C4, amended: in a gap segment built at [startX], for a position [x] of
    the segment that no earlier stored segment contains, the query answers
    [null] exactly when [startX + 360/29 <= x < startX + 840/29], the span of
    the samples 9 to 20, and a number otherwise.  The void window of
    [generateGap] lies strictly inside that span: the query is [null]
    throughout the window and also on both sides next to it. *)
Theorem gap_segment_query `{JSMath} `{Collaborators W}
    (w : W) (t : Terrain) (s x : Qc) (segment : Segment) :
  (createTerrainSegment s w t).1.1 = Some segment ->
  chunkType segment = gap ->
  (forall s', s' ∈ terrainMeshes t -> covers x s' = false) ->
  s ≤ x -> x < s + segmentWidth ->
  let answer := (getTerrainHeightAt x (createTerrainSegment s w t).2).1 in
  (answer = JNull <-> s + num (360 # 29) ≤ x ∧ x < s + num (840 # 29))
  ∧ (answer = JNull ∨ exists h, answer = JNum h)
  ∧ s + num (360 # 29) < gapStart s (s + segmentWidth) (difficultyAt s)
  ∧ gapEnd s (s + segmentWidth) (difficultyAt s) < s + num (840 # 29).
Proof.
  intros Hbuilt Hgap Hfree Hlo Hhi answer.
  destruct (void_window_bounds s (difficultyAt s)) as [Hs He].
  assert (Hwindow : s + num (360 # 29) < gapStart s (s + segmentWidth) (difficultyAt s)
                    ∧ gapEnd s (s + segmentWidth) (difficultyAt s) < s + num (840 # 29)).
  { set (gs := gapStart _ _ _) in *. set (ge := gapEnd _ _ _) in *. split; qc_lra. }
  destruct (previousEndHeight (terrainMeshes t)) as [prev|] eqn:Hprev.
  2: { destruct (createTerrainSegment_throws s w t Hprev) as [Hnone _]. congruence. }
  destruct (createTerrainSegment_builds s w t prev Hprev) as [Hres Hstore].
  rewrite Hres in Hbuilt. injection Hbuilt as <-.
  destruct (builtSegment_fields s prev t) as (Hsx & Hsc & Hsp).
  set (seg := builtSegment s prev t) in *.
  rewrite Hgap in Hsp.
  set (t1 := exec (selectChunkType (difficultyAt s)) t) in *.
  set (pts := eval (buildPoints gap (difficultyAt s) s prev) t1) in *.
  assert (Hcov : covers x seg = true).
  { unfold covers. rewrite Hsx.
    rewrite !bool_decide_eq_true_2 by assumption. reflexivity. }
  assert (Hfind : find (covers x) (terrainMeshes (createTerrainSegment s w t).2) = Some seg).
  { rewrite Hstore. apply find_app_last; assumption. }
  subst answer. rewrite (getTerrainHeightAt_covered _ _ _ Hfind). cbn [fst].
  assert (Hlen : length pts = nbPoints) by apply length_buildPoints.
  destruct (heightInSegment_cases seg pts x Hsp) as (p & Hp & Hcases);
    [rewrite Hlen; unfold nbPoints; lia | rewrite Hsx; exact Hlo
    | rewrite Hsx; exact Hhi |].
  rewrite Hsx, Hlen in Hp.
  pose proof (sampleIndex_nonneg nbPoints s x ltac:(unfold nbPoints; lia) Hlo) as Hi0.
  pose proof (sampleIndex_below nbPoints s x ltac:(unfold nbPoints; lia) Hhi) as Hi1.
  set (index := sampleIndex nbPoints s x) in *.
  destruct (gapPoints_heights (difficultyAt s) s prev t1 (Z.to_nat index))
    as (p' & Hp' & Hvoid); [unfold nbPoints in *; lia|].
  assert (p' = p) by (subst pts; congruence).
  subst p'.
  assert (Hrange : pt_height p = None <->
                   s + num (360 # 29) ≤ x ∧ x < s + num (840 # 29)).
  { rewrite Hvoid, <- sampleIndex_void. fold index. lia. }
  clearbody seg.
  split; [|split; [|exact Hwindow]].
  - rewrite <- Hrange.
    destruct Hcases as [[Hnone ->] | [[h Hh] [h' ->]]]; split; auto; try discriminate.
    congruence.
  - destruct Hcases as [[_ ->] | [_ [h' ->]]]; eauto.
Qed.

Lemma gap_segment_query_witness :
  (getTerrainHeightAt (H := approxMath) (num 1540)
     (createTerrainSegment (H := approxMath) (H0 := idleWorld) (num 1520) 0%nat
        (newTerrain 18)).2).1 = JNull.
Proof.
  destruct (createTerrainSegment (H := approxMath) (H0 := idleWorld) (num 1520) 0%nat
              (newTerrain 18)).1.1 as [segment|] eqn:Hbuilt.
  - apply (gap_segment_query (H := approxMath) (H0 := idleWorld)
             0%nat (newTerrain 18) (num 1520) (num 1540) segment Hbuilt).
    + vm_compute in Hbuilt. injection Hbuilt as <-. reflexivity.
    + intros s' Hs'. inversion Hs'.
    + vm_compute. discriminate.
    + vm_compute. reflexivity.
    + split; vm_compute; [discriminate | reflexivity].
  - vm_compute in Hbuilt. discriminate.
Defined.

(** ** No two stored segments with one [startX] *)

Lemma windowInvariant_snoc segs existing segment :
  windowInvariant segs existing -> startX segment ∉ existing ->
  windowInvariant (segs ++ [segment]) (startX segment :: existing).
Proof.
  intros [Hnodup Hin] Hfresh. split.
  - rewrite fmap_app. simpl. apply list.NoDup_app. split; [exact Hnodup|].
    split; [|apply NoDup_singleton].
    intros x Hx Hx'. apply list_elem_of_singleton in Hx' as ->.
    apply list_elem_of_fmap in Hx as (s & Hs & Hs'). apply Hfresh.
    rewrite Hs. apply Hin. exact Hs'.
  - intros s Hs. apply elem_of_app in Hs as [Hs|Hs].
    + right. apply Hin. exact Hs.
    + apply list_elem_of_singleton in Hs as ->. left.
Qed.

Section NoOverlap.
Context `{JSMath} `{Collaborators W}.

(** Establish: the de-duplication leaves pairwise different [startX], all
    of them taken from the store, and does not touch the terrain. *)
Lemma uniqueSegments_spec segs : forall processed (w : W) t,
  (uniqueSegments segs processed w t).2 = t
  ∧ NoDup (startX <$> (uniqueSegments segs processed w t).1.1)
  ∧ forall s, s ∈ (uniqueSegments segs processed w t).1.1 ->
              s ∈ segs ∧ startX s ∉ processed.
Proof.
  induction segs as [|segment rest IH]; intros processed w t; simpl.
  - split; [reflexivity|]. split; [constructor|]. intros s Hs. inversion Hs.
  - case_bool_decide as Hseen.
    + rewrite E_bind_eq, ext_eq. cbn [fst snd].
      destruct (IH processed (answer (RemoveSegment segment) w).2 t) as (Ht & Hnd & Hin).
      split; [exact Ht|]. split; [exact Hnd|].
      intros s Hs. destruct (Hin s Hs) as [Hs1 Hs2]. split; [right; exact Hs1 | exact Hs2].
    + rewrite E_bind_eq.
      destruct (IH (startX segment :: processed) w t) as (Ht & Hnd & Hin).
      cbn [mret E_ret fst snd]. split; [exact Ht|]. split.
      * rewrite fmap_cons. apply list.NoDup_cons. split; [|exact Hnd].
        intros Hdup. apply list_elem_of_fmap in Hdup as (s & Hs & Hs').
        destruct (Hin s Hs') as [_ Hfresh]. apply Hfresh. rewrite <- Hs. left.
      * intros s Hs. apply elem_of_cons in Hs as [-> | Hs].
        -- split; [left | exact Hseen].
        -- destruct (Hin s Hs) as [Hs1 Hs2]. split; [right; exact Hs1|].
           intros Hp. apply Hs2. right. exact Hp.
Qed.

(** Preserve, generation: a segment is built only at a [startX] that is not
    recorded, and recorded at once. *)
Lemma generateAhead_invariant budget index : forall existing (w : W) t existing',
  (generateAhead budget index existing w t).1.1 = Some existing' ->
  windowInvariant (terrainMeshes t) existing ->
  windowInvariant (terrainMeshes (generateAhead budget index existing w t).2) existing'.
Proof.
  induction budget as [|budget IH]; intros existing w t existing' Hrun Hinv.
  - discriminate.
  - rewrite generateAhead_S in *. rewrite E_bind_eq, liftM_eq in *.
    cbn [gets fst snd] in *.
    destruct (reaches _ index VISIBLE_CHUNKS_AHEAD).
    { cbn [mret E_ret fst snd] in *. injection Hrun as <-. exact Hinv. }
    match goal with |- context [bool_decide (?x ∈ existing)] => set (next := x) in * end.
    case_bool_decide as Hknown.
    + rewrite E_bind_eq, ext_eq in *. cbn [fst snd] in *.
      apply IH; assumption.
    + rewrite E_bind_eq in *.
      destruct (previousEndHeight (terrainMeshes t)) as [prev|] eqn:Hprev.
      * destruct (createTerrainSegment_run next w t prev Hprev) as (w' & t' & Hcreate & Hstore).
        rewrite Hcreate in *. cbn [fst snd] in *.
        apply IH; [exact Hrun|].
        rewrite Hstore.
        change next with (startX (builtSegment next prev t)) at 2.
        apply windowInvariant_snoc; [exact Hinv | exact Hknown].
      * destruct (createTerrainSegment_throws next w t Hprev) as [Hnone Hstore].
        rewrite Hnone in *. cbn [mret E_ret fst snd] in *.
        injection Hrun as <-. rewrite Hstore. exact Hinv.
Qed.

(** Preserve, eviction: the head of the array goes together with its
    record; the terrain itself is written by the caller. *)
Lemma evictBehind_spec index segs : forall existing (w : W) t,
  (evictBehind index segs existing w t).2 = t
  ∧ (windowInvariant segs existing ->
     windowInvariant (evictBehind index segs existing w t).1.1.1
                     (evictBehind index segs existing w t).1.1.2).
Proof.
  induction segs as [|firstSegment rest IH]; intros existing w t.
  - simpl. auto.
  - cbn [evictBehind].
    destruct (bool_decide _ && exceeds index VISIBLE_CHUNKS_BEHIND); [|simpl; auto].
    destruct (behind _ index VISIBLE_CHUNKS_BEHIND); [|simpl; auto].
    rewrite E_bind_eq, ext_eq. cbn [fst snd].
    set (existing' := filter (fun s => s ≠ startX firstSegment) existing).
    destruct (IH existing' (answer (RemoveSegment firstSegment) w).2 t) as [Ht Hinv].
    split; [exact Ht|]. intros [Hnodup Hin]. apply Hinv.
    rewrite fmap_cons in Hnodup. apply list.NoDup_cons in Hnodup as [Hfresh Hnodup].
    split; [exact Hnodup|].
    intros s Hs. subst existing'. apply list_elem_of_filter. split.
    + intros Heq. apply Hfresh. rewrite <- Heq. apply list_elem_of_fmap. eauto.
    + apply Hin. right. exact Hs.
Qed.

Lemma keeps_store_finishTick x index c : keeps_store (finishTick x index c).
Proof.
  assert (Hgets : keeps_store (W := W) (liftM (gets terrainMeshes)))
    by (intros w t; reflexivity).
  unfold finishTick, applyLODToSegments. store_tac.
Qed.

(** Use: the forced build happens only at a [startX] that is not recorded. *)
Lemma selfHeal_NoDup x index c existing (w : W) t :
  (selfHeal x index c existing w t).1.1 = Some Completed ->
  windowInvariant (terrainMeshes t) existing ->
  NoDup (startX <$> terrainMeshes (selfHeal x index c existing w t).2).
Proof.
  intros Hrun [Hnodup Hin]. unfold selfHeal in *.
  rewrite E_bind_eq, liftM_eq in *. cbn [gets fst snd] in *.
  destruct (existsb (coversNumber x) (terrainMeshes t)).
  { rewrite keeps_store_finishTick. exact Hnodup. }
  rewrite E_bind_eq, ext_eq in *. cbn [fst snd] in *.
  set (w1 := (answer ConsoleWarn w).2) in *.
  destruct x as [| | |q].
  1-3: rewrite E_bind_eq, liftM_eq, E_bind_eq, liftM_eq in *; cbn [gets fst snd] in *;
       rewrite selectChunkType_store in *;
       destruct (previousEndHeight (terrainMeshes t)); [discriminate|];
       cbn [mret E_ret fst snd]; rewrite selectChunkType_store; exact Hnodup.
  set (segmentStartX := ofZ (Math_floor (q / segmentWidth)) * segmentWidth) in *.
  case_bool_decide as Hknown.
  { rewrite keeps_store_finishTick. exact Hnodup. }
  rewrite E_bind_eq in *.
  destruct (previousEndHeight (terrainMeshes t)) as [prev|] eqn:Hprev.
  - destruct (createTerrainSegment_run segmentStartX w1 t prev Hprev)
      as (w' & t' & Hcreate & Hstore).
    rewrite Hcreate in *. cbn [fst snd] in *.
    rewrite keeps_store_finishTick, Hstore.
    apply (windowInvariant_snoc (terrainMeshes t) existing (builtSegment segmentStartX prev t)).
    + split; assumption.
    + exact Hknown.
  - destruct (createTerrainSegment_throws segmentStartX w1 t Hprev) as [Hnone Hstore].
    rewrite Hnone. cbn [mret E_ret fst snd]. rewrite Hstore. exact Hnodup.
Qed.

End NoOverlap.

(** C6: after every tick of [update] that runs to its end, whatever the
    store was before, no two stored segments have the same [startX]. *)
Theorem update_no_duplicate_startX `{JSMath} `{Collaborators W}
    (budget : nat) (vehiclePosition : Position) (w : W) (t : Terrain) :
  (update budget vehiclePosition w t).1.1 = Some Completed ->
  NoDup (startX <$> terrainMeshes (update budget vehiclePosition w t).2).
Proof.
  intros Hrun. unfold update in *.
  destruct vehiclePosition as [|x]; [rewrite abort_run in Hrun; discriminate|].
  destruct (validIndex x) as [index|]; [|rewrite abort_run in Hrun; discriminate].
  rewrite E_bind_eq, liftM_eq in *. cbn [gets fst snd] in *.
  rewrite E_bind_eq in *.
  destruct (uniqueSegments_spec (terrainMeshes t) [] w t) as (Ht & Hnodup & Hfrom).
  set (u := uniqueSegments (terrainMeshes t) [] w t) in *.
  rewrite Ht in *.
  rewrite E_bind_eq, liftM_eq in *. cbn [modify fst snd] in *.
  rewrite E_bind_eq in *.
  set (t1 := set_terrainMeshes u.1.1 t) in *.
  assert (Hinv1 : windowInvariant (terrainMeshes t1) (map startX (terrainMeshes t))).
  { split; [exact Hnodup|]. intros s Hs. destruct (Hfrom s Hs) as [Hs' _].
    apply list_elem_of_fmap. eauto. }
  pose proof (generateAhead_invariant budget index (map startX (terrainMeshes t)) u.1.2 t1)
    as Hgen.
  set (g := generateAhead budget index (map startX (terrainMeshes t)) u.1.2 t1) in *.
  destruct g.1.1 as [existing|] eqn:Hg; [|discriminate].
  specialize (Hgen existing eq_refl Hinv1).
  rewrite E_bind_eq, liftM_eq in *. cbn [gets fst snd] in *.
  rewrite E_bind_eq in *.
  destruct (evictBehind_spec index (terrainMeshes g.2) existing g.1.2 g.2) as [Het Hev].
  set (e := evictBehind index (terrainMeshes g.2) existing g.1.2 g.2) in *.
  rewrite Het in *. specialize (Hev Hgen).
  rewrite E_bind_eq, liftM_eq in *. cbn [modify fst snd] in *.
  apply (selfHeal_NoDup _ _ _ _ _ _ Hrun). exact Hev.
Qed.

Lemma update_no_duplicate_startX_witness :
  NoDup (startX <$> terrainMeshes
           (update (H := approxMath) (H0 := busyWorld) 3 (PositionX (Fin (num 10))) 0%nat
              duplicatedStore).2).
Proof.
  apply (update_no_duplicate_startX (H := approxMath) (H0 := busyWorld)).
  vm_compute. reflexivity.
Defined.

(** ** Determinism across worlds *)

Lemma keeps_terrain_ret {W A} (a : A) : keeps_terrain (W := W) (mret a).
Proof. intros w t. reflexivity. Qed.

Lemma keeps_terrain_bind {W A B} (m : E W A) (k : A -> E W B) :
  keeps_terrain m -> (forall a, keeps_terrain (k a)) -> keeps_terrain (m ≫= k).
Proof. intros Hm Hk w t. rewrite E_bind_eq, Hk, Hm. reflexivity. Qed.

Lemma keeps_terrain_ext `{Collaborators W} (c : Call) : keeps_terrain (ext c).
Proof. intros w t. rewrite ext_eq. reflexivity. Qed.

Lemma keeps_terrain_forEach {W A} (l : list A) (body : A -> E W unit) :
  (forall a, keeps_terrain (body a)) -> keeps_terrain (forEach l body).
Proof.
  intros Hb. induction l as [|a l IH]; simpl.
  - apply keeps_terrain_ret.
  - apply keeps_terrain_bind; [apply Hb | intros; apply IH].
Qed.

Lemma keeps_terrain_when {W} (b : bool) (m : E W unit) :
  keeps_terrain m -> keeps_terrain (when_ b m).
Proof. intros Hm. destruct b; [exact Hm | apply keeps_terrain_ret]. Qed.

Create HintDb terrain.
#[local] Hint Resolve keeps_terrain_ret keeps_terrain_ext : terrain.

Ltac terrain_tac :=
  repeat first
    [ progress intros
    | solve [auto with terrain]
    | apply keeps_terrain_bind
    | apply keeps_terrain_forEach
    | apply keeps_terrain_when
    | case_bool_decide
    | match goal with
      | |- keeps_terrain (match ?x with _ => _ end) => destruct x
      | |- keeps_terrain (if ?b then _ else _) => destruct b
      end ].

Lemma agree_of_value {W1 W2 A} (m1 : E W1 A) (m2 : E W2 A) :
  agree_value m1 m2 -> agree m1 m2.
Proof. intros Hm w1 w2 t. apply Hm. Qed.

Lemma agree_unit {W1 W2} (m1 : E W1 unit) (m2 : E W2 unit) :
  agree m1 m2 -> agree_value m1 m2.
Proof.
  intros Hm w1 w2 t. split; [|apply Hm].
  destruct (m1 w1 t).1.1, (m2 w2 t).1.1. reflexivity.
Qed.

Lemma agree_keeps {W1 W2 A1 A2} (m1 : E W1 A1) (m2 : E W2 A2) :
  keeps_terrain m1 -> keeps_terrain m2 -> agree m1 m2.
Proof. intros H1 H2 w1 w2 t. rewrite H1, H2. reflexivity. Qed.

Lemma agree_value_ret {W1 W2 A} (a : A) :
  agree_value (W1 := W1) (W2 := W2) (mret a) (mret a).
Proof. intros w1 w2 t. split; reflexivity. Qed.

Lemma agree_value_liftM {W1 W2 A} (m : M A) :
  agree_value (W1 := W1) (W2 := W2) (liftM m) (liftM m).
Proof. intros w1 w2 t. rewrite !liftM_eq. split; reflexivity. Qed.

(** The continuation may depend on a value both runs share. *)
Lemma agree_bind {W1 W2 A B1 B2} (m1 : E W1 A) (m2 : E W2 A)
    (k1 : A -> E W1 B1) (k2 : A -> E W2 B2) :
  agree_value m1 m2 -> (forall a, agree (k1 a) (k2 a)) -> agree (m1 ≫= k1) (m2 ≫= k2).
Proof.
  intros Hm Hk w1 w2 t. rewrite !E_bind_eq.
  destruct (Hm w1 w2 t) as [-> ->]. apply Hk.
Qed.

Lemma agree_value_bind {W1 W2 A B} (m1 : E W1 A) (m2 : E W2 A)
    (k1 : A -> E W1 B) (k2 : A -> E W2 B) :
  agree_value m1 m2 -> (forall a, agree_value (k1 a) (k2 a)) ->
  agree_value (m1 ≫= k1) (m2 ≫= k2).
Proof.
  intros Hm Hk w1 w2 t. rewrite !E_bind_eq.
  destruct (Hm w1 w2 t) as [-> ->]. apply Hk.
Qed.

(** After a call to a collaborator the two runs hold different values; they
    agree when the continuation does whatever those values are. *)
Lemma agree_value_bind_world {W1 W2 A1 A2 B} (m1 : E W1 A1) (m2 : E W2 A2)
    (k1 : A1 -> E W1 B) (k2 : A2 -> E W2 B) :
  agree m1 m2 -> (forall a1 a2, agree_value (k1 a1) (k2 a2)) ->
  agree_value (m1 ≫= k1) (m2 ≫= k2).
Proof.
  intros Hm Hk w1 w2 t. rewrite !E_bind_eq. rewrite (Hm w1 w2 t). apply Hk.
Qed.

Lemma agree_forEach {W1 W2 A} (l : list A) (b1 : A -> E W1 unit) (b2 : A -> E W2 unit) :
  (forall a, agree (b1 a) (b2 a)) -> agree (forEach l b1) (forEach l b2).
Proof.
  intros Hb. induction l as [|a l IH]; simpl.
  - apply agree_of_value, agree_value_ret.
  - apply agree_bind; [apply agree_unit, Hb | intros; apply IH].
Qed.

Lemma agree_when {W1 W2} (b : bool) (m1 : E W1 unit) (m2 : E W2 unit) :
  agree m1 m2 -> agree (when_ b m1) (when_ b m2).
Proof. intros Hm. destruct b; [exact Hm | apply agree_of_value, agree_value_ret]. Qed.

Section Determinism.
Context `{JSMath} {W1 W2 : Type} (C1 : Collaborators W1) (C2 : Collaborators W2).

Lemma keeps_terrain_createSideBarriers `{Collaborators W} points :
  keeps_terrain (createSideBarriers points).
Proof. unfold createSideBarriers. terrain_tac. Qed.

Lemma keeps_terrain_createPhysicsSegment `{Collaborators W} points step skip :
  keeps_terrain (createPhysicsSegment points step skip).
Proof. unfold createPhysicsSegment. terrain_tac. Qed.

Lemma keeps_terrain_placeRock `{Collaborators W} c zone p :
  keeps_terrain (placeRock c zone p).
Proof. unfold placeRock. terrain_tac. Qed.

Lemma keeps_terrain_placeTree `{Collaborators W} c zone p :
  keeps_terrain (placeTree c zone p).
Proof. unfold placeTree. terrain_tac. Qed.

Lemma keeps_terrain_placeSign `{Collaborators W} c zone i p :
  keeps_terrain (placeSign c zone i p).
Proof. unfold placeSign. terrain_tac. Qed.

Lemma keeps_terrain_placeKeySign `{Collaborators W} startX available :
  keeps_terrain (placeKeySign startX available).
Proof. unfold placeKeySign. terrain_tac. Qed.

Lemma agree_backgroundSubsegment points startX len z depth i :
  agree (backgroundSubsegment (H := C1) points startX len z depth i)
        (backgroundSubsegment (H := C2) points startX len z depth i).
Proof.
  unfold backgroundSubsegment. case_bool_decide.
  - apply agree_bind; [apply agree_value_liftM | intros r].
    apply agree_keeps; terrain_tac.
  - apply agree_of_value, agree_value_ret.
Qed.

Lemma agree_createPhysicsForSegment points c :
  agree (createPhysicsForSegment (H := C1) points c)
        (createPhysicsForSegment (H := C2) points c).
Proof.
  unfold createPhysicsForSegment.
  apply agree_bind.
  { apply agree_unit, agree_keeps; apply keeps_terrain_createSideBarriers. }
  intros _. apply agree_bind.
  { apply agree_unit, agree_keeps; apply keeps_terrain_createPhysicsSegment. }
  intros _. unfold createBackgroundPhysics. case_bool_decide.
  { apply agree_of_value, agree_value_ret. }
  apply agree_forEach. intros side.
  apply agree_forEach. intros depth.
  apply agree_forEach. intros i.
  apply agree_backgroundSubsegment.
Qed.

Lemma agree_value_getRandomPoint available :
  agree_value (getRandomPoint (W := W1) available) (getRandomPoint (W := W2) available).
Proof.
  unfold getRandomPoint. case_bool_decide.
  - apply agree_value_ret.
  - apply agree_value_bind; [apply agree_value_liftM | intros r; apply agree_value_ret].
Qed.

Lemma agree_decorationLoop count available
    (place1 : nat -> SamplePoint -> E W1 unit) (place2 : nat -> SamplePoint -> E W2 unit) :
  (forall i p, keeps_terrain (place1 i p)) -> (forall i p, keeps_terrain (place2 i p)) ->
  agree (decorationLoop count available place1) (decorationLoop count available place2).
Proof.
  intros H1 H2. unfold decorationLoop. apply agree_forEach. intros i.
  apply agree_bind; [apply agree_value_getRandomPoint | intros [p|]].
  - apply agree_keeps; [apply H1 | apply H2].
  - apply agree_of_value, agree_value_ret.
Qed.

Lemma agree_addTerrainDecorations startX points c :
  agree (addTerrainDecorations (H := C1) startX points c)
        (addTerrainDecorations (H := C2) startX points c).
Proof.
  unfold addTerrainDecorations. apply agree_forEach. intros zone.
  unfold decorateZone.
  apply agree_bind.
  { apply agree_unit, agree_when, agree_decorationLoop;
      intros; apply keeps_terrain_placeRock. }
  intros _. apply agree_bind.
  { apply agree_unit, agree_when, agree_decorationLoop;
      intros; apply keeps_terrain_placeTree. }
  intros _. apply agree_when. apply agree_bind.
  { apply agree_unit, agree_keeps; apply keeps_terrain_placeKeySign. }
  intros _. apply agree_decorationLoop; intros; apply keeps_terrain_placeSign.
Qed.

Lemma agree_value_createTerrainSegment startX :
  agree_value (createTerrainSegment (H0 := C1) startX)
              (createTerrainSegment (H0 := C2) startX).
Proof.
  unfold createTerrainSegment.
  apply agree_value_bind; [apply agree_value_liftM | intros c].
  apply agree_value_bind; [apply agree_value_liftM | intros segs].
  destruct (previousEndHeight segs) as [prev|]; [|apply agree_value_ret].
  apply agree_value_bind; [apply agree_value_liftM | intros points].
  do 3 (apply agree_value_bind_world;
        [apply agree_keeps; apply keeps_terrain_ext | intros _ _]).
  apply agree_value_bind; [apply agree_unit, agree_createPhysicsForSegment | intros _].
  apply agree_value_bind; [apply agree_unit, agree_addTerrainDecorations | intros _].
  apply agree_value_bind; [apply agree_value_liftM | intros _].
  apply agree_value_ret.
Qed.

Lemma agree_value_createTerrainSegments xs :
  agree_value (createTerrainSegments (H0 := C1) xs) (createTerrainSegments (H0 := C2) xs).
Proof.
  induction xs as [|x xs IH]; simpl.
  - apply agree_value_ret.
  - apply agree_value_bind; [apply agree_value_createTerrainSegment | intros r].
    apply agree_value_bind; [apply IH | intros rs; apply agree_value_ret].
Qed.

Lemma agree_value_initialize_loop n : forall i,
  agree_value (initialize_loop (H0 := C1) n i) (initialize_loop (H0 := C2) n i).
Proof.
  induction n as [|n IH]; intros i; simpl.
  - apply agree_value_ret.
  - apply agree_value_bind; [apply agree_value_createTerrainSegment | intros [s|]].
    + apply IH.
    + apply agree_value_ret.
Qed.

End Determinism.

(** C1: two terrains constructed with the same seed, each with its own
    collaborators and its own [Math.random], that are then asked for the
    same start positions in the same order, hold the same samples [x], [y],
    [height] in every segment and the same chunk types; indeed they are the
    same terrain state and every call returned the same segment. *)
Theorem same_seed_same_terrain `{JSMath} {W1 W2 : Type}
    (C1 : Collaborators W1) (C2 : Collaborators W2)
    (seed : Z) (w1 : W1) (w2 : W2) (xs : list Qc) :
  let start1 := constructor (H0 := C1) seed w1 in
  let start2 := constructor (H0 := C2) seed w2 in
  let run1 := createTerrainSegments (H0 := C1) xs start1.1.2 start1.2 in
  let run2 := createTerrainSegments (H0 := C2) xs start2.1.2 start2.2 in
  profileOf run1.2 = profileOf run2.2
  ∧ run1.2 = run2.2
  ∧ run1.1.1 = run2.1.1.
Proof.
  intros start1 start2 run1 run2.
  assert (Hstart : start1.2 = start2.2).
  { apply (agree_value_initialize_loop C1 C2). }
  destruct (agree_value_createTerrainSegments C1 C2 xs start1.1.2 start2.1.2 start1.2)
    as [Hvalue Hterrain].
  subst run1 run2. rewrite <- Hstart.
  split; [f_equal; exact Hterrain|]. split; assumption.
Qed.

(** * Further properties of the code *)

(** ** The generator stays in its range *)

Lemma seededRandom_run (t : Terrain) :
  seededRandom t
  = (ofZ (Z.rem (seed t * 9301 + 49297) 233280) / num 233280,
     set_seed (Z.rem (seed t * 9301 + 49297) 233280) t).
Proof. reflexivity. Qed.

Lemma unit_fraction (z : Z) :
  (0 ≤ z < 233280)%Z -> 0 ≤ ofZ z / num 233280 ∧ ofZ z / num 233280 < 1.
Proof.
  intros [Hlo Hhi].
  assert (H0 : (inject_Z 0 <= inject_Z z)%Q) by (rewrite <- Zle_Qle; exact Hlo).
  assert (H1 : (inject_Z z < inject_Z 233280)%Q) by (rewrite <- Zlt_Qlt; exact Hhi).
  unfold Qcle, Qclt. push_this.
  change (this 0) with 0%Q. change (this 1) with 1%Q.
  change (inject_Z 0) with 0%Q in H0. change (inject_Z 233280) with 233280%Q in H1.
  set (q := inject_Z z) in *. clearbody q.
  unfold Qdiv. change (/ 233280)%Q with (1 # 233280)%Q. lra.
Qed.

(** X1: from a non-negative seed, [seededRandom] returns a number in
    [0, 1) and leaves a seed in [0, 233280); so do all later draws. *)
Theorem seededRandom_in_unit_interval (t : Terrain) :
  (0 ≤ seed t)%Z ->
  0 ≤ eval seededRandom t ∧ eval seededRandom t < 1
  ∧ (0 ≤ seed (exec seededRandom t) < 233280)%Z.
Proof.
  intros Hseed. unfold eval, exec. rewrite seededRandom_run. cbn [fst snd set_seed seed].
  assert (Hrange : (0 ≤ Z.rem (seed t * 9301 + 49297) 233280 < 233280)%Z).
  { apply Z.rem_bound_pos; lia. }
  destruct (unit_fraction _ Hrange) as [Hlo Hhi]. auto.
Qed.

Lemma seededRandom_in_unit_interval_witness :
  0 ≤ eval seededRandom (newTerrain 42) ∧ eval seededRandom (newTerrain 42) < 1
  ∧ (0 ≤ seed (exec seededRandom (newTerrain 42)) < 233280)%Z.
Proof. apply seededRandom_in_unit_interval. vm_compute. discriminate. Defined.

(** ** Easing curves *)

(** Polynomial goals over [Qc], sent to [Q]. *)
Ltac qc_poly :=
  unfold Qclt, Qcle in *; try apply Qc_is_canon; push_this;
  change (this 0) with 0%Q in *; change (this 1) with 1%Q in *; inv_consts.

Lemma Qsquare_nonneg (x : Q) : (0 <= x * x)%Q.
Proof. nra. Qed.

Lemma cubicInterpolation_range (t : Qc) :
  0 ≤ t -> t ≤ 1 -> 0 ≤ cubicInterpolation t ∧ cubicInterpolation t ≤ 1.
Proof.
  intros H0 H1. unfold cubicInterpolation. split; qc_poly.
  - set (x := this t) in *. clearbody x.
    apply Qmult_le_0_compat; [apply Qsquare_nonneg | lra].
  - set (x := this t) in *. clearbody x.
    assert (0 <= ((1 - x) * (1 - x)) * (1 + 2 * x))%Q
      by (apply Qmult_le_0_compat; [apply Qsquare_nonneg | lra]).
    lra.
Qed.

Lemma quinticInterpolation_range (t : Qc) :
  0 ≤ t -> t ≤ 1 -> 0 ≤ quinticInterpolation t ∧ quinticInterpolation t ≤ 1.
Proof.
  intros H0 H1. unfold quinticInterpolation. split; qc_poly.
  - set (x := this t) in *. clearbody x.
    assert (Hq : (0 <= 6 * ((x - (5 # 4)) * (x - (5 # 4))) + (5 # 8))%Q)
      by (pose proof (Qsquare_nonneg (x - (5 # 4))); lra).
    assert (0 <= x * (x * x))%Q
      by (apply Qmult_le_0_compat; [lra | apply Qsquare_nonneg]).
    assert (0 <= (x * (x * x)) * (6 * ((x - (5 # 4)) * (x - (5 # 4))) + (5 # 8)))%Q
      by (apply Qmult_le_0_compat; assumption).
    lra.
  - set (x := this t) in *. clearbody x.
    assert (0 <= (1 - x) * ((1 - x) * (1 - x)))%Q
      by (apply Qmult_le_0_compat; [lra | apply Qsquare_nonneg]).
    assert (0 <= 6 * (x * x) + 3 * x + 1)%Q
      by (pose proof (Qsquare_nonneg x); lra).
    assert (0 <= ((1 - x) * ((1 - x) * (1 - x))) * (6 * (x * x) + 3 * x + 1))%Q
      by (apply Qmult_le_0_compat; assumption).
    lra.
Qed.

Lemma cubicInterpolation_monotone (s t : Qc) :
  0 ≤ s -> s ≤ t -> t ≤ 1 -> cubicInterpolation s ≤ cubicInterpolation t.
Proof.
  intros H0 Hst H1. unfold cubicInterpolation. qc_poly.
  set (x := this s) in *. set (y := this t) in *. clearbody x y.
  (* with a = x, b = 1 - y, d = y - x:  c(y) - c(x) = d (6ab + 3ad + 3bd + d^2) *)
  assert (Ha : (0 <= x * (1 - y))%Q) by (apply Qmult_le_0_compat; lra).
  assert (Hb : (0 <= x * (y - x))%Q) by (apply Qmult_le_0_compat; lra).
  assert (Hc : (0 <= (1 - y) * (y - x))%Q) by (apply Qmult_le_0_compat; lra).
  assert (Hd : (0 <= (y - x) * (y - x))%Q) by apply Qsquare_nonneg.
  assert (0 <= (y - x) * (6 * (x * (1 - y)) + 3 * (x * (y - x))
                          + 3 * ((1 - y) * (y - x)) + (y - x) * (y - x)))%Q
    by (apply Qmult_le_0_compat; lra).
  lra.
Qed.

Lemma quinticInterpolation_monotone (s t : Qc) :
  0 ≤ s -> s ≤ t -> t ≤ 1 -> quinticInterpolation s ≤ quinticInterpolation t.
Proof.
  intros H0 Hst H1. unfold quinticInterpolation. qc_poly.
  set (x := this s) in *. set (y := this t) in *. clearbody x y.
  set (a := x). set (b := (1 - y)%Q). set (d := (y - x)%Q).
  assert (Ha : (0 <= a)%Q) by (unfold a; lra).
  assert (Hb : (0 <= b)%Q) by (unfold b; lra).
  assert (Hd : (0 <= d)%Q) by (unfold d; lra).
  assert (Hab : (0 <= a * b)%Q) by (apply Qmult_le_0_compat; assumption).
  assert (Had : (0 <= a * d)%Q) by (apply Qmult_le_0_compat; assumption).
  assert (Hbd : (0 <= b * d)%Q) by (apply Qmult_le_0_compat; assumption).
  assert (Hdd : (0 <= d * d)%Q) by apply Qsquare_nonneg.
  assert (H1' : (0 <= (a * b) * (a * b))%Q) by apply Qsquare_nonneg.
  assert (H2' : (0 <= (a * b) * (a * d))%Q) by (apply Qmult_le_0_compat; assumption).
  assert (H3' : (0 <= (a * d) * (a * d))%Q) by apply Qsquare_nonneg.
  assert (H4' : (0 <= (a * b) * (b * d))%Q) by (apply Qmult_le_0_compat; assumption).
  assert (H5' : (0 <= (a * d) * (b * d))%Q) by (apply Qmult_le_0_compat; assumption).
  assert (H6' : (0 <= (a * d) * (d * d))%Q) by (apply Qmult_le_0_compat; assumption).
  assert (H7' : (0 <= (b * d) * (b * d))%Q) by apply Qsquare_nonneg.
  assert (H8' : (0 <= (b * d) * (d * d))%Q) by (apply Qmult_le_0_compat; assumption).
  assert (H9' : (0 <= (d * d) * (d * d))%Q) by apply Qsquare_nonneg.
  assert (Hsum : (0 <= d * (30 * ((a * b) * (a * b)) + 30 * ((a * b) * (a * d))
                            + 10 * ((a * d) * (a * d)) + 30 * ((a * b) * (b * d))
                            + 20 * ((a * d) * (b * d)) + 5 * ((a * d) * (d * d))
                            + 10 * ((b * d) * (b * d)) + 5 * ((b * d) * (d * d))
                            + (d * d) * (d * d)))%Q)
    by (apply Qmult_le_0_compat; lra).
  subst a b d. lra.
Qed.

Lemma cubicInterpolation_symmetric (t : Qc) :
  cubicInterpolation (1 - t) = 1 - cubicInterpolation t.
Proof. unfold cubicInterpolation. qc_poly. ring. Qed.

Lemma quinticInterpolation_symmetric (t : Qc) :
  quinticInterpolation (1 - t) = 1 - quinticInterpolation t.
Proof. unfold quinticInterpolation. qc_poly. ring. Qed.

Lemma cubicInterpolation_0 : cubicInterpolation 0 = 0.
Proof. apply Qc_is_canon. reflexivity. Qed.
Lemma cubicInterpolation_1 : cubicInterpolation 1 = 1.
Proof. apply Qc_is_canon. reflexivity. Qed.
Lemma quinticInterpolation_0 : quinticInterpolation 0 = 0.
Proof. apply Qc_is_canon. reflexivity. Qed.
Lemma quinticInterpolation_1 : quinticInterpolation 1 = 1.
Proof. apply Qc_is_canon. reflexivity. Qed.

(** X2: both easing curves fix 0 and 1, map [0, 1] into [0, 1], do not
    decrease on it, and are symmetric about the midpoint:
    [f (1 - t) = 1 - f t]. *)
Theorem easing_curves (f : Qc -> Qc) :
  f = cubicInterpolation ∨ f = quinticInterpolation ->
  f 0 = 0 ∧ f 1 = 1
  ∧ (forall t, 0 ≤ t -> t ≤ 1 -> 0 ≤ f t ∧ f t ≤ 1)
  ∧ (forall s t, 0 ≤ s -> s ≤ t -> t ≤ 1 -> f s ≤ f t)
  ∧ (forall t, f (1 - t) = 1 - f t).
Proof.
  intros [-> | ->].
  - split; [apply cubicInterpolation_0|]. split; [apply cubicInterpolation_1|].
    split; [apply cubicInterpolation_range|].
    split; [apply cubicInterpolation_monotone | apply cubicInterpolation_symmetric].
  - split; [apply quinticInterpolation_0|]. split; [apply quinticInterpolation_1|].
    split; [apply quinticInterpolation_range|].
    split; [apply quinticInterpolation_monotone | apply quinticInterpolation_symmetric].
Qed.

Lemma easing_curves_witness :
  quinticInterpolation 0 = 0 ∧ quinticInterpolation 1 = 1.
Proof.
  destruct (easing_curves quinticInterpolation) as (H0 & H1 & _); [right; reflexivity|].
  split; assumption.
Defined.

(** A blend [a (1 - f) + b f] with [f] in [0, 1] lies between [a] and [b]. *)
Lemma blend_between (a b f : Qc) :
  0 ≤ f -> f ≤ 1 ->
  Math_min a b ≤ a * (1 - f) + b * f ∧ a * (1 - f) + b * f ≤ Math_max a b.
Proof.
  intros H0 H1. unfold Math_min, Math_max.
  case_bool_decide as Hab.
  - split; qc_poly;
      set (x := this a) in *; set (y := this b) in *; set (z := this f) in *;
      clearbody x y z;
      assert (0 <= (y - x) * z)%Q by (apply Qmult_le_0_compat; lra);
      assert (0 <= (y - x) * (1 - z))%Q by (apply Qmult_le_0_compat; lra); lra.
  - apply Qcnot_le_lt in Hab.
    split; qc_poly;
      set (x := this a) in *; set (y := this b) in *; set (z := this f) in *;
      clearbody x y z;
      assert (0 <= (x - y) * z)%Q by (apply Qmult_le_0_compat; lra);
      assert (0 <= (x - y) * (1 - z))%Q by (apply Qmult_le_0_compat; lra); lra.
Qed.

(** X3: for [t] in [0, 1] and every smoothness, [smoothTransition] starts at
    [startHeight], ends at [endHeight] and stays between the two. *)
Theorem smoothTransition_between (t startHeight endHeight : Qc) (smoothness : Smoothness) :
  0 ≤ t -> t ≤ 1 ->
  smoothTransition 0 startHeight endHeight smoothness = startHeight
  ∧ smoothTransition 1 startHeight endHeight smoothness = endHeight
  ∧ Math_min startHeight endHeight ≤ smoothTransition t startHeight endHeight smoothness
  ∧ smoothTransition t startHeight endHeight smoothness ≤ Math_max startHeight endHeight.
Proof.
  intros H0 H1. unfold smoothTransition. split; [|split].
  - destruct smoothness;
      rewrite ?cubicInterpolation_0, ?quinticInterpolation_0; ring.
  - destruct smoothness;
      rewrite ?cubicInterpolation_1, ?quinticInterpolation_1; ring.
  - destruct smoothness.
    + apply (blend_between startHeight endHeight t); assumption.
    + apply (blend_between startHeight endHeight (cubicInterpolation t));
        apply cubicInterpolation_range; assumption.
    + apply (blend_between startHeight endHeight (quinticInterpolation t));
        apply quinticInterpolation_range; assumption.
Qed.

Lemma smoothTransition_between_witness :
  Math_min 1 (num 3) ≤ smoothTransition (num 0.25) 1 (num 3) quintic
  ∧ smoothTransition (num 0.25) 1 (num 3) quintic ≤ Math_max 1 (num 3).
Proof.
  destruct (smoothTransition_between (num 0.25) 1 (num 3) quintic) as (_ & _ & Hlo & Hhi).
  - vm_compute. discriminate.
  - vm_compute. discriminate.
  - split; assumption.
Defined.

(** ** Bézier segments *)

Lemma bezierInterpolation_hull (t p0 p1 p2 p3 lo hi : Qc) :
  0 ≤ t -> t ≤ 1 ->
  lo ≤ p0 -> lo ≤ p1 -> lo ≤ p2 -> lo ≤ p3 ->
  p0 ≤ hi -> p1 ≤ hi -> p2 ≤ hi -> p3 ≤ hi ->
  lo ≤ bezierInterpolation t p0 p1 p2 p3 ∧ bezierInterpolation t p0 p1 p2 p3 ≤ hi.
Proof.
  intros Ht0 Ht1 L0 L1 L2 L3 U0 U1 U2 U3. unfold bezierInterpolation.
  split; qc_poly;
    set (x := this t) in *; set (a := this p0) in *; set (b := this p1) in *;
    set (c := this p2) in *; set (d := this p3) in *;
    set (l := this lo) in *; set (h := this hi) in *; clearbody x a b c d l h.
  all: assert (W0 : (0 <= (1 - x) * ((1 - x) * (1 - x)))%Q)
         by (apply Qmult_le_0_compat; [lra | apply Qsquare_nonneg]).
  all: assert (W1 : (0 <= ((1 - x) * (1 - x)) * x)%Q)
         by (apply Qmult_le_0_compat; [apply Qsquare_nonneg | lra]).
  all: assert (W2 : (0 <= (1 - x) * (x * x))%Q)
         by (apply Qmult_le_0_compat; [lra | apply Qsquare_nonneg]).
  all: assert (W3 : (0 <= x * (x * x))%Q)
         by (apply Qmult_le_0_compat; [lra | apply Qsquare_nonneg]).
  - assert (0 <= ((1 - x) * ((1 - x) * (1 - x))) * (a - l))%Q
      by (apply Qmult_le_0_compat; lra).
    assert (0 <= (((1 - x) * (1 - x)) * x) * (b - l))%Q
      by (apply Qmult_le_0_compat; lra).
    assert (0 <= ((1 - x) * (x * x)) * (c - l))%Q
      by (apply Qmult_le_0_compat; lra).
    assert (0 <= (x * (x * x)) * (d - l))%Q
      by (apply Qmult_le_0_compat; lra).
    lra.
  - assert (0 <= ((1 - x) * ((1 - x) * (1 - x))) * (h - a))%Q
      by (apply Qmult_le_0_compat; lra).
    assert (0 <= (((1 - x) * (1 - x)) * x) * (h - b))%Q
      by (apply Qmult_le_0_compat; lra).
    assert (0 <= ((1 - x) * (x * x)) * (h - c))%Q
      by (apply Qmult_le_0_compat; lra).
    assert (0 <= (x * (x * x)) * (h - d))%Q
      by (apply Qmult_le_0_compat; lra).
    lra.
Qed.

Lemma bezierInterpolation_ends (p0 p1 p2 p3 : Qc) :
  bezierInterpolation 0 p0 p1 p2 p3 = p0 ∧ bezierInterpolation 1 p0 p1 p2 p3 = p3.
Proof. unfold bezierInterpolation. split; qc_poly; ring. Qed.

(** X4: a Bézier segment starts at [p0], ends at [p3], and for [t] in
    [0, 1] never leaves the range spanned by its four control values. *)
Theorem bezierInterpolation_within_control_values (t p0 p1 p2 p3 lo hi : Qc) :
  0 ≤ t -> t ≤ 1 ->
  (forall p, p ∈ [p0; p1; p2; p3] -> lo ≤ p ∧ p ≤ hi) ->
  bezierInterpolation 0 p0 p1 p2 p3 = p0
  ∧ bezierInterpolation 1 p0 p1 p2 p3 = p3
  ∧ lo ≤ bezierInterpolation t p0 p1 p2 p3
  ∧ bezierInterpolation t p0 p1 p2 p3 ≤ hi.
Proof.
  intros Ht0 Ht1 Hp.
  destruct (bezierInterpolation_ends p0 p1 p2 p3) as [E0 E1].
  split; [exact E0|]. split; [exact E1|].
  apply bezierInterpolation_hull; try assumption; apply Hp; repeat constructor.
Qed.

Lemma bezierInterpolation_within_control_values_witness :
  0 ≤ bezierInterpolation (num 0.5) 0 1 (num 3) (num 4)
  ∧ bezierInterpolation (num 0.5) 0 1 (num 3) (num 4) ≤ num 4.
Proof.
  destruct (bezierInterpolation_within_control_values (num 0.5) 0 1 (num 3) (num 4) 0 (num 4))
    as (_ & _ & Hlo & Hhi).
  - vm_compute. discriminate.
  - vm_compute. discriminate.
  - intros p Hp.
    repeat (apply elem_of_cons in Hp as [-> | Hp]; [vm_compute; split; discriminate|]).
    apply elem_of_nil in Hp. destruct Hp.
  - split; assumption.
Defined.

Lemma Qc_div_unit (a b : Qc) : 0 ≤ a -> a ≤ b -> 0 < b -> 0 ≤ a / b ∧ a / b ≤ 1.
Proof.
  intros Ha Hab Hb. unfold Qcle, Qclt in *. push_this.
  change (this 0) with 0%Q in *. change (this 1) with 1%Q.
  split.
  - apply Qle_shift_div_l; [exact Hb | lra].
  - apply Qle_shift_div_r; [exact Hb | lra].
Qed.

Lemma Math_abs_nonneg (a : Qc) : 0 ≤ Math_abs a.
Proof.
  unfold Math_abs. case_bool_decide as Hneg.
  - qc_poly. lra.
  - apply Qcnot_lt_le. exact Hneg.
Qed.

Lemma controlPointDistance_range (d : Qc) :
  0 ≤ d ->
  num 0.3 ≤ Math_min (num 0.3 + d * num 0.05) (num 0.5)
  ∧ Math_min (num 0.3 + d * num 0.05) (num 0.5) ≤ num 0.5.
Proof.
  intros Hd. unfold Math_min. case_bool_decide as Hle.
  - split; [|exact Hle]. qc_poly. lra.
  - split; [|apply Qcle_refl]. qc_poly. lra.
Qed.

(** X5: on a span of positive length, [bezierTransition] takes the first
    height at [segment1End], the second at [segment2Start], and in between
    stays within the two heights. *)
Theorem bezierTransition_between (x segment1End segment2Start h1 h2 : Qc) :
  segment1End < segment2Start ->
  segment1End ≤ x -> x ≤ segment2Start ->
  bezierTransition segment1End segment1End segment2Start h1 h2 = h1
  ∧ bezierTransition segment2Start segment1End segment2Start h1 h2 = h2
  ∧ Math_min h1 h2 ≤ bezierTransition x segment1End segment2Start h1 h2
  ∧ bezierTransition x segment1End segment2Start h1 h2 ≤ Math_max h1 h2.
Proof.
  intros Hspan Hlo Hhi.
  assert (Hpos : 0 < segment2Start - segment1End) by (qc_poly; lra).
  unfold bezierTransition. cbv zeta. split; [|split].
  - replace ((segment1End - segment1End) / (segment2Start - segment1End)) with 0.
    + exact (proj1 (bezierInterpolation_ends _ _ _ _)).
    + unfold Qcdiv. ring.
  - replace ((segment2Start - segment1End) / (segment2Start - segment1End)) with 1.
    + exact (proj2 (bezierInterpolation_ends _ _ _ _)).
    + symmetry. apply Qcmult_inv_r. intros Hz. rewrite Hz in Hpos.
      exact (Qclt_not_le _ _ Hpos (Qcle_refl 0)).
  - destruct (Qc_div_unit (x - segment1End) (segment2Start - segment1End)) as [Ht0 Ht1];
      [qc_poly; lra | qc_poly; lra | exact Hpos |].
    destruct (controlPointDistance_range (Math_abs (h2 - h1)) (Math_abs_nonneg _))
      as [Hc0 Hc1].
    set (c := Math_min (num 0.3 + Math_abs (h2 - h1) * num 0.05) (num 0.5)) in *.
    clearbody c.
    apply bezierInterpolation_hull; try assumption;
      unfold Math_min, Math_max; case_bool_decide as Hh;
      try apply Qcnot_le_lt in Hh; qc_poly;
      set (a := this h1) in *; set (b := this h2) in *; set (k := this c) in *;
      clearbody a b k;
      first [ lra
            | assert (0 <= (b - a) * k)%Q by (apply Qmult_le_0_compat; lra);
              assert (0 <= (b - a) * (1 - k))%Q by (apply Qmult_le_0_compat; lra); lra
            | assert (0 <= (a - b) * k)%Q by (apply Qmult_le_0_compat; lra);
              assert (0 <= (a - b) * (1 - k))%Q by (apply Qmult_le_0_compat; lra); lra ].
Qed.

Lemma bezierTransition_between_witness :
  Math_min 1 (num 3) ≤ bezierTransition (num 50) (num 40) (num 80) 1 (num 3)
  ∧ bezierTransition (num 50) (num 40) (num 80) 1 (num 3) ≤ Math_max 1 (num 3).
Proof.
  destruct (bezierTransition_between (num 50) (num 40) (num 80) 1 (num 3))
    as (_ & _ & Hlo & Hhi).
  - vm_compute. reflexivity.
  - vm_compute. discriminate.
  - vm_compute. discriminate.
  - split; assumption.
Defined.

(** ** Bounds of the noise *)

Lemma ofZ_succ (z : Z) : ofZ (z + 1) = ofZ z + 1.
Proof.
  apply Qc_is_canon. push_this. rewrite inject_Z_plus.
  change (this 1) with 1%Q. reflexivity.
Qed.

Lemma floor_fraction (x : Qc) :
  0 ≤ x - ofZ (Math_floor x) ∧ x - ofZ (Math_floor x) < 1.
Proof.
  pose proof (proj1 (floor_ge (Math_floor x) x) (Z.le_refl _)) as Hlo.
  assert (Hhi : x < ofZ (Math_floor x + 1)) by (apply floor_lt; lia).
  rewrite ofZ_succ in Hhi.
  set (f := ofZ (Math_floor x)) in *. clearbody f.
  split; qc_poly; lra.
Qed.

(** One lattice value of [noise]. *)
Lemma lattice_value_range (n : Qc) :
  - (1) ≤ (n - ofZ (Math_floor n)) * num 2 - 1 ∧ (n - ofZ (Math_floor n)) * num 2 - 1 ≤ 1.
Proof.
  destruct (floor_fraction n) as [Hlo Hhi].
  set (f := n - ofZ (Math_floor n)) in *. clearbody f.
  split; qc_poly; lra.
Qed.

Lemma noise_range `{JSMath} (x : Qc) (t : Terrain) :
  - (1) ≤ eval (noise x) t ∧ eval (noise x) t ≤ 1.
Proof.
  unfold eval, noise. rewrite M_bind_eq. cbn [gets fst snd mret M_ret].
  destruct (floor_fraction x) as [Hf0 Hf1].
  set (f := x - ofZ (Math_floor x)) in *.
  destruct (cubicInterpolation_range f Hf0 (Qclt_le_weak _ _ Hf1)) as [Hc0 Hc1].
  unfold cubicInterpolation in Hc0, Hc1.
  set (fadeX := f * f * (num 3 - num 2 * f)) in *. clearbody fadeX. clearbody f.
  match goal with
  | |- _ ≤ ?r1 + _ * (?r2 - _) ∧ _ =>
      set (res1 := r1); set (res2 := r2)
  end.
  assert (H1 : - (1) ≤ res1 ∧ res1 ≤ 1) by apply lattice_value_range.
  assert (H2 : - (1) ≤ res2 ∧ res2 ≤ 1) by apply lattice_value_range.
  clearbody res1 res2. destruct H1 as [L1 U1], H2 as [L2 U2].
  split; qc_poly;
    set (a := this res1) in *; set (b := this res2) in *; set (k := this fadeX) in *;
    clearbody a b k.
  - assert (0 <= (a + 1) * (1 - k))%Q by (apply Qmult_le_0_compat; lra).
    assert (0 <= (b + 1) * k)%Q by (apply Qmult_le_0_compat; lra). lra.
  - assert (0 <= (1 - a) * (1 - k))%Q by (apply Qmult_le_0_compat; lra).
    assert (0 <= (1 - b) * k)%Q by (apply Qmult_le_0_compat; lra). lra.
Qed.

(** X6: whatever the state and the sine, [noise] answers a number in
    [-1, 1]. *)
Theorem noise_bounded `{JSMath} (x : Qc) (t : Terrain) :
  Math_abs (eval (noise x) t) ≤ 1.
Proof.
  destruct (noise_range x t) as [Hlo Hhi]. unfold Math_abs.
  case_bool_decide; [|exact Hhi]. qc_poly. lra.
Qed.

Lemma improvedNoise_loop_range `{JSMath} (i : nat) :
  forall seedX frequency persistence lacunarity total amplitude maxValue t,
  0 ≤ persistence -> 0 ≤ amplitude ->
  - maxValue ≤ total -> total ≤ maxValue ->
  let r := eval (improvedNoise_loop i seedX frequency persistence lacunarity
                   total amplitude maxValue) t in
  - r.2 ≤ r.1 ∧ r.1 ≤ r.2 ∧ maxValue ≤ r.2
  ∧ ((0 < i)%nat -> maxValue + amplitude ≤ r.2).
Proof.
  induction i as [|i IH]; intros seedX frequency persistence lacunarity total amplitude
    maxValue t Hp Ha Hlo Hhi; cbn zeta.
  - unfold eval. cbn. split; [exact Hlo|]. split; [exact Hhi|].
    split; [apply Qcle_refl | lia].
  - unfold eval. cbn [improvedNoise_loop]. rewrite M_bind_eq.
    assert (Hro : (noise (seedX * frequency) t).2 = t) by apply readonly_noise.
    rewrite Hro. clear Hro.
    destruct (noise_range (seedX * frequency) t) as [Hn0 Hn1]. unfold eval in Hn0, Hn1.
    set (n := (noise (seedX * frequency) t).1) in *. clearbody n.
    assert (Hp' : 0 ≤ amplitude * persistence).
    { qc_poly. apply Qmult_le_0_compat; assumption. }
    assert (Hlo' : - (maxValue + amplitude) ≤ total + n * amplitude).
    { qc_poly. set (a := this amplitude) in *. set (k := this n) in *.
      assert (0 <= (k + 1) * a)%Q by (apply Qmult_le_0_compat; lra). lra. }
    assert (Hhi' : total + n * amplitude ≤ maxValue + amplitude).
    { qc_poly. set (a := this amplitude) in *. set (k := this n) in *.
      assert (0 <= (1 - k) * a)%Q by (apply Qmult_le_0_compat; lra). lra. }
    specialize (IH seedX (frequency * lacunarity) persistence lacunarity
                  (total + n * amplitude) (amplitude * persistence) (maxValue + amplitude)
                  t Hp Hp' Hlo' Hhi').
    cbn zeta in IH. unfold eval in IH. destruct IH as (I1 & I2 & I3 & _).
    split; [exact I1|]. split; [exact I2|].
    assert (maxValue ≤ maxValue + amplitude) by (qc_poly; lra).
    split; [|intros _; exact I3].
    eapply Qcle_trans; eassumption.
Qed.

Lemma improvedNoise_range `{JSMath}
    (x frequency : Qc) (octaves : nat) (persistence lacunarity : Qc) (t : Terrain) :
  (0 < octaves)%nat -> 0 ≤ persistence ->
  - (1) ≤ eval (improvedNoise x frequency octaves persistence lacunarity) t
  ∧ eval (improvedNoise x frequency octaves persistence lacunarity) t ≤ 1.
Proof.
  intros Hoct Hp. unfold eval, improvedNoise.
  rewrite M_bind_eq. cbn [gets fst snd]. rewrite M_bind_eq. cbn [mret M_ret fst].
  pose proof (improvedNoise_loop_range octaves (x + ofZ (noiseOffsetX t)) frequency
                persistence lacunarity 0 1 0 t Hp) as Hr.
  cbn zeta in Hr. unfold eval in Hr.
  destruct Hr as (Hlo & Hhi & _ & Hmax);
    [vm_compute; discriminate | vm_compute; discriminate | vm_compute; discriminate |].
  specialize (Hmax Hoct).
  set (r := (improvedNoise_loop _ _ _ _ _ _ _ _ t).1) in *. clearbody r.
  destruct r as [total maxValue]. cbn [fst snd] in *.
  assert (Hpos : (0 < this maxValue)%Q).
  { unfold Qcle in Hmax. push_this. change (this 0) with 0%Q in Hmax.
    change (this 1) with 1%Q in Hmax. lra. }
  unfold Qcle in *. push_this. change (this 1) with 1%Q.
  split.
  - apply Qle_shift_div_l; [exact Hpos | lra].
  - apply Qle_shift_div_r; [exact Hpos | lra].
Qed.

Lemma Math_abs_le (a b : Qc) : Math_abs a ≤ b <-> - b ≤ a ∧ a ≤ b.
Proof.
  unfold Math_abs. case_bool_decide as Hneg.
  - split.
    + intros Hb. split; qc_poly; lra.
    + intros [Hlo Hhi]. qc_poly. lra.
  - apply Qcnot_lt_le in Hneg. split.
    + intros Hb. split; qc_poly; lra.
    + intros [Hlo Hhi]. exact Hhi.
Qed.

(** X7: with at least one octave and a non-negative persistence,
    [improvedNoise] answers a number in [-1, 1]. *)
Theorem improvedNoise_bounded `{JSMath}
    (x frequency : Qc) (octaves : nat) (persistence lacunarity : Qc) (t : Terrain) :
  (0 < octaves)%nat -> 0 ≤ persistence ->
  Math_abs (eval (improvedNoise x frequency octaves persistence lacunarity) t) ≤ 1.
Proof.
  intros Hoct Hp. apply Math_abs_le.
  destruct (improvedNoise_range x frequency octaves persistence lacunarity t Hoct Hp)
    as [Hlo Hhi].
  split; [exact Hlo | exact Hhi].
Qed.

Lemma improvedNoise_bounded_witness :
  Math_abs (eval (improvedNoise (H := approxMath) (num 3) (num 0.05) 3 (num 0.5) (num 2.0))
                 (newTerrain 42)) ≤ 1.
Proof.
  apply (improvedNoise_bounded (H := approxMath)).
  - lia.
  - vm_compute. discriminate.
Defined.

(** ** The hills generator *)

Lemma getTerrainHeightNear_run (x : Qc) (t : Terrain) :
  getTerrainHeightNear x t = (eval (getTerrainHeightNear x) t, t).
Proof. apply readonly_run, readonly_getTerrainHeightNear. Qed.

Lemma improvedNoise_run `{JSMath} x f o p l (t : Terrain) :
  improvedNoise x f o p l t = (eval (improvedNoise x f o p l) t, t).
Proof. apply readonly_run, readonly_improvedNoise. Qed.

(** X8: when the store holds a height [p] half a unit to the left of [x],
    and [x] is at least one unit away from both ends of the span,
    [generateHills] never answers more than 0.15 away from [p]: a raw height
    further off is replaced by [p] itself, and a raw height within 0.15 of
    [p] is returned as it is. *)
Theorem generateHills_slope_limit `{JSMath} (x startX endX difficulty p : Qc) (t : Terrain) :
  eval (getTerrainHeightNear (x - num 0.5)) t = JNum p ->
  num 1.0 ≤ x - startX -> num 1.0 ≤ endX - x ->
  let raw := rawHeight x difficulty t in
  let result := eval (generateHills x startX endX difficulty) t in
  Math_abs (result - p) ≤ num 0.15
  ∧ (num 0.15 < Math_abs (raw - p) -> result = p)
  ∧ (Math_abs (raw - p) ≤ num 0.15 -> result = raw).
Proof.
  intros Hnear Hstart Hend raw result. subst raw result.
  unfold generateHills, generateHills_with, eval, rawHeight.
  rewrite M_bind_eq, improvedNoise_run. cbn [fst snd].
  rewrite M_bind_eq, improvedNoise_run. cbn [fst snd].
  rewrite M_bind_eq, getTerrainHeightNear_run. cbn [fst snd]. rewrite Hnear.
  cbv zeta. unfold eval.
  set (raw := (improvedNoise x (num 0.05) 3 (num 0.5) (num 2.0) t).1 * _ + _).
  clearbody raw.
  case_bool_decide as Hdelta.
  - assert (Hq : quinticInterpolation (1 - Math_min (Math_abs (raw - p) / num 0.15) 1) = 0).
    { unfold Math_min.
      rewrite (bool_decide_eq_false_2 (Math_abs (raw - p) / num 0.15 ≤ 1)).
      - replace (1 - 1) with 0 by ring. apply quinticInterpolation_0.
      - apply Qclt_not_le.
        set (d := Math_abs (raw - p)) in *. clearbody d. qc_poly. lra. }
    cbn [mret M_ret fst]. rewrite Hq.
    replace (p + (raw - p) * 0) with p by ring.
    split; [|split].
    + apply Math_abs_le. split; qc_poly; lra.
    + intros _. reflexivity.
    + intros Hle. exfalso. apply (Qclt_not_le _ _ Hdelta). exact Hle.
  - rewrite (bool_decide_eq_false_2 (x - startX < num 1.0)) by (apply Qcle_not_lt; exact Hstart).
    rewrite (bool_decide_eq_false_2 (endX - x < num 1.0)) by (apply Qcle_not_lt; exact Hend).
    cbn [mret M_ret fst].
    split; [|split].
    + apply Qcnot_lt_le. exact Hdelta.
    + intros Hlt. contradiction.
    + intros _. reflexivity.
Qed.

Lemma generateHills_slope_limit_witness :
  let t := set_terrainMeshes [stub 0] (newTerrain 42) in
  Math_abs (eval (generateHills (H := approxMath) (num 20) 0 (num 40) (num 0.1)) t - 0)
    ≤ num 0.15
  ∧ (num 0.15 < Math_abs (rawHeight (H := approxMath) (num 20) (num 0.1) t - 0) ->
     eval (generateHills (H := approxMath) (num 20) 0 (num 40) (num 0.1)) t = 0).
Proof.
  cbv zeta.
  destruct (generateHills_slope_limit (H := approxMath) (num 20) 0 (num 40) (num 0.1) 0
              (set_terrainMeshes [stub 0] (newTerrain 42))) as (Hbound & Hfar & _).
  - vm_compute. reflexivity.
  - vm_compute. discriminate.
  - vm_compute. discriminate.
  - split; [exact Hbound | exact Hfar].
Defined.

Lemma getTerrainHeightNear_uncovered (x : Qc) (t : Terrain) :
  find (covers x) (terrainMeshes t) = None ->
  eval (getTerrainHeightNear x) t = JUndefined.
Proof.
  intros Hnone. unfold eval, getTerrainHeightNear. rewrite M_bind_eq.
  cbn [gets fst snd mret M_ret]. rewrite Hnone. reflexivity.
Qed.

(** X9: where the store covers neither [x] nor the point half a unit to its
    left (on an empty store, everywhere), [getTerrainHeightAt] answers a
    number, never [null], and it lies within 1.6614 of zero. *)
Theorem getTerrainHeightAt_fallback_bounded `{JSMath} (x : Qc) (t : Terrain) :
  find (covers x) (terrainMeshes t) = None ->
  find (covers (x - num 0.5)) (terrainMeshes t) = None ->
  exists h, (getTerrainHeightAt x t).1 = JNum h ∧ Math_abs h ≤ num 1.6614.
Proof.
  intros Hx Hnear. rewrite (getTerrainHeightAt_uncovered x t Hx). cbn [fst].
  eexists. split; [reflexivity|].
  unfold generateHills, generateHills_with, eval.
  rewrite M_bind_eq, improvedNoise_run. cbn [fst snd].
  rewrite M_bind_eq, improvedNoise_run. cbn [fst snd].
  rewrite M_bind_eq, getTerrainHeightNear_run. cbn [fst snd].
  rewrite (getTerrainHeightNear_uncovered _ _ Hnear).
  rewrite local_span_start, local_span_end. cbn [mret M_ret fst].
  destruct (improvedNoise_range x (num 0.05) 3 (num 0.5) (num 2.0) t) as [B0 B1];
    [lia | vm_compute; discriminate |].
  destruct (improvedNoise_range x (num 0.2) 2 (num 0.3) (num 2.5) t) as [D0 D1];
    [lia | vm_compute; discriminate |].
  set (b := eval (improvedNoise x (num 0.05) 3 (num 0.5) (num 2.0)) t) in *.
  set (d := eval (improvedNoise x (num 0.2) 2 (num 0.3) (num 2.5)) t) in *.
  clearbody b d.
  replace (Math_min (num 1.2 + Math_min (num 0.1 * num 0.6) (num 0.5) * num 1.3) (num 1.8))
    with (num 1.278) by (apply Qc_is_canon; reflexivity).
  apply Math_abs_le. split; qc_poly; lra.
Qed.

Lemma getTerrainHeightAt_fallback_bounded_witness :
  exists h, (getTerrainHeightAt (H := approxMath) (num 3) (newTerrain 42)).1 = JNum h
            ∧ Math_abs h ≤ num 1.6614.
Proof.
  apply (getTerrainHeightAt_fallback_bounded (H := approxMath)); reflexivity.
Defined.

(** ** Reading a stored segment *)

Lemma find_covers (x : Qc) (segs : list Segment) (segment : Segment) :
  find (covers x) segs = Some segment ->
  segment ∈ segs ∧ startX segment ≤ x ∧ x < startX segment + segmentWidth.
Proof.
  intros Hfind. apply find_some in Hfind as [Hin Hc]. split.
  - apply list_elem_of_In. exact Hin.
  - unfold covers in Hc. apply andb_prop in Hc as [Hlo Hhi].
    split; [exact (bool_decide_eq_true_1 _ Hlo) | exact (bool_decide_eq_true_1 _ Hhi)].
Qed.

Lemma segmentWidth_nonzero : segmentWidth ≠ 0.
Proof. intros Heq. apply (f_equal this) in Heq. discriminate. Qed.

(** The interpolation parameter is the fractional part of the scaled
    offset. *)
Lemma interpolation_parameter (s x L : Qc) (i : Z) :
  L ≠ 0 ->
  (x - (s + ofZ i / L * segmentWidth))
    / (s + ofZ (i + 1) / L * segmentWidth - (s + ofZ i / L * segmentWidth))
  = (x - s) / segmentWidth * L - ofZ i.
Proof.
  intros HL. rewrite ofZ_succ. pose proof segmentWidth_nonzero as HW.
  set (W := segmentWidth) in *. clearbody W. field. split; [exact HW | exact HL].
Qed.

Lemma ofZ_pos_nonzero (z : Z) : (0 < z)%Z -> ofZ z ≠ 0.
Proof.
  intros Hz Heq. apply (f_equal this) in Heq. rewrite this_ofZ in Heq.
  change (this 0) with (inject_Z 0) in Heq. injection Heq. lia.
Qed.

(** What [getTerrainHeightAt] computes in a segment of at least two
    samples: [null] on a sample without ground, else the cubic blend of the
    sample and its right neighbour. *)
Lemma heightInSegment_blend segment pts x :
  points segment = Some pts -> (1 < length pts)%nat ->
  startX segment ≤ x -> x < startX segment + segmentWidth ->
  let scaled := (x - startX segment) / segmentWidth * ofZ (Z.of_nat (length pts) - 1) in
  let i := Z.to_nat (Math_floor scaled) in
  exists p1 p2,
    pts !! i = Some p1 ∧ pts !! S i = Some p2
    ∧ heightInSegment segment x
      = match pt_height p1 with
        | None => JNull
        | Some _ =>
            let c := cubicInterpolation (scaled - ofZ (Math_floor scaled)) in
            JNum (toNumber (pt_y p1) * (1 - c) + toNumber (pt_y p2) * c)
        end.
Proof.
  intros Hpts Hlen Hlo Hhi scaled i.
  assert (Hne : pts ≠ []) by (intros ->; simpl in Hlen; lia).
  destruct (sample_index_in_range pts (startX segment) x Hne Hlo Hhi) as [[p1 Hp1] Hnext].
  pose proof (sampleIndex_nonneg (length pts) (startX segment) x ltac:(lia) Hlo) as H0.
  pose proof (sampleIndex_below (length pts) (startX segment) x Hlen Hhi) as H1.
  destruct (Hnext H1) as [p2 Hp2].
  fold scaled in Hp1, Hp2, H0, H1. unfold sampleIndex in Hp1, Hp2, H0, H1.
  fold scaled in Hp1, Hp2, H0, H1.
  exists p1, p2.
  assert (Hl1 : pts !! i = Some p1).
  { unfold at_index in Hp1. rewrite bool_decide_eq_true_2 in Hp1 by exact H0. exact Hp1. }
  assert (Hl2 : pts !! S i = Some p2).
  { unfold at_index in Hp2. rewrite bool_decide_eq_true_2 in Hp2 by lia.
    replace (Z.to_nat (Math_floor scaled + 1)) with (S i) in Hp2 by (unfold i; lia).
    exact Hp2. }
  split; [exact Hl1|]. split; [exact Hl2|].
  unfold heightInSegment. rewrite Hpts.
  destruct pts as [|q pts']; [contradiction|].
  fold scaled. rewrite Hp1.
  destruct (pt_height p1) as [h|]; [|reflexivity].
  rewrite bool_decide_eq_true_2 by exact H1. rewrite Hp2.
  rewrite interpolation_parameter; [reflexivity|].
  apply ofZ_pos_nonzero. simpl length in *. lia.
Qed.

(** X10: inside a stored segment of at least two samples the query reads
    the sample at the floor of the scaled offset and its right neighbour
    (the last sample is only ever a right neighbour): it answers [null] when
    the sample has no ground, and otherwise a number between the two [y]. *)
Theorem getTerrainHeightAt_between_neighbours `{JSMath}
    (t : Terrain) (x : Qc) (segment : Segment) (pts : list SamplePoint) :
  find (covers x) (terrainMeshes t) = Some segment ->
  points segment = Some pts -> (1 < length pts)%nat ->
  let i := Z.to_nat (sampleIndex (length pts) (startX segment) x) in
  (i + 1 < length pts)%nat
  ∧ exists p1 p2,
      pts !! i = Some p1 ∧ pts !! S i = Some p2
      ∧ (pt_height p1 = None -> (getTerrainHeightAt x t).1 = JNull)
      ∧ (is_Some (pt_height p1) ->
         exists h, (getTerrainHeightAt x t).1 = JNum h
           ∧ Math_min (toNumber (pt_y p1)) (toNumber (pt_y p2)) ≤ h
           ∧ h ≤ Math_max (toNumber (pt_y p1)) (toNumber (pt_y p2))).
Proof.
  intros Hfind Hpts Hlen i.
  destruct (find_covers _ _ _ Hfind) as (_ & Hlo & Hhi).
  rewrite (getTerrainHeightAt_covered x t segment Hfind). cbn [fst].
  pose proof (sampleIndex_nonneg (length pts) (startX segment) x ltac:(lia) Hlo) as H0.
  pose proof (sampleIndex_below (length pts) (startX segment) x Hlen Hhi) as H1.
  split; [unfold i; lia|].
  destruct (heightInSegment_blend segment pts x Hpts Hlen Hlo Hhi)
    as (p1 & p2 & Hp1 & Hp2 & Hval).
  exists p1, p2. split; [exact Hp1|]. split; [exact Hp2|].
  rewrite Hval. split.
  - intros ->. reflexivity.
  - intros [h Hh]. rewrite Hh. cbv zeta. eexists. split; [reflexivity|].
    match goal with
    | |- context [cubicInterpolation ?f] =>
        destruct (floor_fraction ((x - startX segment) / segmentWidth
                                  * ofZ (Z.of_nat (length pts) - 1))) as [Hf0 Hf1];
        destruct (cubicInterpolation_range f Hf0 (Qclt_le_weak _ _ Hf1)) as [Hc0 Hc1]
    end.
    apply blend_between; assumption.
Qed.

Lemma getTerrainHeightAt_between_neighbours_witness :
  let t := set_terrainMeshes
             [ {| startX := 0;
                  points := Some [ {| pt_x := 0; pt_y := Some 1; pt_height := Some 1 |};
                                   {| pt_x := num 40; pt_y := Some (num 3);
                                      pt_height := Some (num 3) |} ];
                  chunkType := hills |} ] (newTerrain 42) in
  exists h, (getTerrainHeightAt (H := approxMath) (num 10) t).1 = JNum h
            ∧ 1 ≤ h ∧ h ≤ num 3.
Proof.
  intros t.
  destruct (getTerrainHeightAt_between_neighbours (H := approxMath) t (num 10)
              {| startX := 0;
                 points := Some [ {| pt_x := 0; pt_y := Some 1; pt_height := Some 1 |};
                                  {| pt_x := num 40; pt_y := Some (num 3);
                                     pt_height := Some (num 3) |} ];
                 chunkType := hills |}
              [ {| pt_x := 0; pt_y := Some 1; pt_height := Some 1 |};
                {| pt_x := num 40; pt_y := Some (num 3); pt_height := Some (num 3) |} ])
    as (_ & p1 & p2 & Hp1 & Hp2 & _ & Hnum).
  - reflexivity.
  - reflexivity.
  - simpl. lia.
  - vm_compute in Hp1, Hp2.
    injection Hp1 as <-. injection Hp2 as <-.
    destruct Hnum as (h & Hh & Hlo & Hhi); [eexists; reflexivity|].
    exists h. split; [exact Hh|]. split; [exact Hlo | exact Hhi].
Defined.

Lemma Math_floor_ofZ (z : Z) : Math_floor (ofZ z) = z.
Proof. unfold Math_floor. rewrite this_ofZ. apply Qfloor_Z. Qed.

(** X11: a query at the abscissa of a stored sample, the last one of the
    segment excepted, reads that sample back when the sample and its left
    neighbour both have ground: the answer is its [y].  When neither has
    ground the answer is [null].  The left neighbour is part of the
    statement because the index [Math.floor(normalizedX * (length - 1))],
    evaluated in double precision at a stored abscissa, may come out one
    short, and the query then starts from the neighbour. *)
Theorem getTerrainHeightAt_reads_sample_back `{JSMath}
    (t : Terrain) (segment : Segment) (pts : list SamplePoint) (i : nat)
    (p neighbour : SamplePoint) :
  let x := startX segment
           + ofZ (Z.of_nat i) / ofZ (Z.of_nat (length pts) - 1) * segmentWidth in
  find (covers x) (terrainMeshes t) = Some segment ->
  points segment = Some pts -> (i + 1 < length pts)%nat ->
  pts !! i = Some p -> pts !! pred i = Some neighbour ->
  (is_Some (pt_height p) -> is_Some (pt_height neighbour) ->
   (getTerrainHeightAt x t).1 = JNum (toNumber (pt_y p)))
  ∧ (pt_height p = None -> pt_height neighbour = None ->
     (getTerrainHeightAt x t).1 = JNull).
Proof.
  intros x Hfind Hpts Hi Hp _.
  destruct (find_covers _ _ _ Hfind) as (_ & Hlo & Hhi).
  rewrite (getTerrainHeightAt_covered x t segment Hfind). cbn [fst].
  destruct (heightInSegment_blend segment pts x Hpts ltac:(lia) Hlo Hhi)
    as (p1 & p2 & Hp1 & Hp2 & Hval).
  assert (HL : ofZ (Z.of_nat (length pts) - 1) ≠ 0) by (apply ofZ_pos_nonzero; lia).
  assert (Hscaled : (x - startX segment) / segmentWidth * ofZ (Z.of_nat (length pts) - 1)
                    = ofZ (Z.of_nat i)).
  { unfold x. pose proof segmentWidth_nonzero as HW.
    set (W := segmentWidth) in *. set (L := ofZ (Z.of_nat (length pts) - 1)) in *.
    clearbody W L. field. split; assumption. }
  rewrite Hscaled, Math_floor_ofZ, Nat2Z.id in Hp1.
  rewrite Hscaled, Math_floor_ofZ in Hval.
  assert (p1 = p) by congruence. subst p1.
  rewrite Hval. split.
  - intros [h Hh] _. rewrite Hh.
    cbv zeta. replace (ofZ (Z.of_nat i) - ofZ (Z.of_nat i)) with 0 by ring.
    rewrite cubicInterpolation_0. f_equal. ring.
  - intros Hnone _. rewrite Hnone. reflexivity.
Qed.

Lemma getTerrainHeightAt_reads_sample_back_witness :
  let t := set_terrainMeshes
             [ {| startX := 0;
                  points := Some [ {| pt_x := 0; pt_y := Some 1; pt_height := Some 1 |};
                                   {| pt_x := num 20; pt_y := Some (num 2);
                                      pt_height := Some (num 2) |};
                                   {| pt_x := num 40; pt_y := Some (num 3);
                                      pt_height := Some (num 3) |} ];
                  chunkType := hills |} ] (newTerrain 42) in
  (getTerrainHeightAt (H := approxMath)
     (0 + ofZ (Z.of_nat 1) / ofZ (Z.of_nat 3 - 1) * segmentWidth) t).1
  = JNum (num 2).
Proof.
  intros t.
  apply (getTerrainHeightAt_reads_sample_back (H := approxMath) t
           {| startX := 0;
              points := Some [ {| pt_x := 0; pt_y := Some 1; pt_height := Some 1 |};
                               {| pt_x := num 20; pt_y := Some (num 2);
                                  pt_height := Some (num 2) |};
                               {| pt_x := num 40; pt_y := Some (num 3);
                                  pt_height := Some (num 3) |} ];
              chunkType := hills |}
           [ {| pt_x := 0; pt_y := Some 1; pt_height := Some 1 |};
             {| pt_x := num 20; pt_y := Some (num 2); pt_height := Some (num 2) |};
             {| pt_x := num 40; pt_y := Some (num 3); pt_height := Some (num 3) |} ]
           1%nat {| pt_x := num 20; pt_y := Some (num 2); pt_height := Some (num 2) |}
           {| pt_x := 0; pt_y := Some 1; pt_height := Some 1 |}).
  - reflexivity.
  - reflexivity.
  - simpl. lia.
  - reflexivity.
  - reflexivity.
  - cbn. eauto.
  - cbn. eauto.
Defined.

Lemma nearIndex_in_range (pts : list SamplePoint) (s x : Qc) :
  pts ≠ [] -> s ≤ x -> x < s + segmentWidth ->
  is_Some (at_index pts (Math_floor ((x - s) / segmentWidth * ofZ (Z.of_nat (length pts))))).
Proof.
  intros Hne Hlo Hhi.
  assert (Hlen : (0 < length pts)%nat) by (destruct pts; [contradiction | simpl; lia]).
  set (scaled := (x - s) / segmentWidth * ofZ (Z.of_nat (length pts))).
  assert (HL : (0 < inject_Z (Z.of_nat (length pts)))%Q).
  { change 0%Q with (inject_Z 0). rewrite <- Zlt_Qlt. lia. }
  assert (H0 : (0 ≤ Math_floor scaled)%Z).
  { apply floor_ge. unfold scaled. unfold Qcle, Qclt, segmentWidth in *. push_this.
    change (this (Q2Qc 0)) with 0%Q. change (inject_Z 0) with 0%Q.
    set (L := inject_Z (Z.of_nat (length pts))) in *. clearbody L.
    unfold Qdiv. change (/ 40)%Q with (1 # 40)%Q.
    apply Qmult_le_0_compat; lra. }
  assert (H1 : (Math_floor scaled < Z.of_nat (length pts))%Z).
  { apply floor_lt. unfold scaled. unfold Qcle, Qclt, segmentWidth in *. push_this.
    set (L := inject_Z (Z.of_nat (length pts))) in *. clearbody L.
    unfold Qdiv. change (/ 40)%Q with (1 # 40)%Q.
    assert (0 < (1 - (this x - this s) * (1 # 40)) * L)%Q
      by (apply Qmult_lt_0_compat; lra).
    lra. }
  unfold at_index. rewrite bool_decide_eq_true_2 by exact H0.
  apply lookup_lt_is_Some. lia.
Qed.

(** X12: [getTerrainHeightNear] answers [undefined] exactly when no stored
    segment contains [x] or the first one that does has no sample; inside a
    segment with samples it always finds one, and it never changes the
    state. *)
Theorem getTerrainHeightNear_undefined (t : Terrain) (x : Qc) :
  (eval (getTerrainHeightNear x) t = JUndefined
   <-> match find (covers x) (terrainMeshes t) with
       | None => True
       | Some segment => points segment = None ∨ points segment = Some []
       end)
  ∧ exec (getTerrainHeightNear x) t = t.
Proof.
  split; [|apply readonly_getTerrainHeightNear].
  unfold eval, getTerrainHeightNear. rewrite M_bind_eq. cbn [gets fst snd mret M_ret].
  destruct (find (covers x) (terrainMeshes t)) as [segment|] eqn:Hfind; [|tauto].
  destruct (find_covers _ _ _ Hfind) as (_ & Hlo & Hhi).
  destruct (points segment) as [pts|]; [|tauto].
  destruct (decide (pts = [])) as [->|Hne].
  - split; [intros _; right; reflexivity | intros _].
    unfold at_index. case_bool_decide; reflexivity.
  - destruct (nearIndex_in_range pts (startX segment) x Hne Hlo Hhi) as [p Hp].
    rewrite Hp. split.
    + destruct (pt_y p); discriminate.
    + intros [Hnone | Hnil]; [discriminate | congruence].
Qed.

(** ** The samples of a built segment *)

Lemma samplePoint_ground `{JSMath} c d startX prev i t :
  c ≠ gap ->
  exists v, pt_y (samplePoint c d startX prev i t).1 = Some v
            ∧ pt_height (samplePoint c d startX prev i t).1 = Some v.
Proof.
  intros Hc. unfold samplePoint. rewrite M_bind_eq. cbn [mret M_ret fst].
  rewrite (bool_decide_eq_false_2 (c = gap)) by exact Hc. cbn [andb].
  assert (Hgen : exists g,
    (match c with
     | hills => Some <$> generateHills (sampleX startX i) startX (startX + segmentWidth) d
     | plateau => Some <$> generatePlateau (sampleX startX i) startX (startX + segmentWidth) d
     | ramp => Some <$> generateRamp (sampleX startX i) startX (startX + segmentWidth) d
     | gap => generateGap (sampleX startX i) startX (startX + segmentWidth) d
     | washboard =>
         Some <$> generateWashboard (sampleX startX i) startX (startX + segmentWidth) d
     | valley => Some <$> generateValley (sampleX startX i) startX (startX + segmentWidth) d
     end t).1 = Some g).
  { destruct c; try contradiction; rewrite M_fmap_eq; eexists; reflexivity. }
  destruct Hgen as [g Hg]. fold (sampleX startX i). rewrite Hg.
  destruct prev as [prev|]; [|eauto].
  destruct (bool_decide (0 < i)%nat && bool_decide (i < 5)%nat); eauto.
Qed.

Lemma samplePoint_gap_void_y `{JSMath} d startX prev i t :
  (9 ≤ i)%nat -> (i ≤ 20)%nat ->
  pt_y (samplePoint gap d startX prev i t).1 = Some (num (-24)).
Proof.
  intros Hlo Hhi. unfold samplePoint. rewrite M_bind_eq. cbn [mret M_ret fst pt_y].
  rewrite (bool_decide_eq_true_2 (gap = gap)) by reflexivity. cbn [andb].
  rewrite isGap_index by (unfold nbPoints; lia).
  replace (9 <=? i)%nat with true by (symmetry; apply Nat.leb_le; exact Hlo).
  replace (i <=? 20)%nat with true by (symmetry; apply Nat.leb_le; exact Hhi).
  reflexivity.
Qed.

(** The samples a segment is built with, after the smoothing pass. *)
Lemma buildPoints_profile `{JSMath} c d startX prev t i :
  (i < nbPoints)%nat ->
  exists p, eval (buildPoints c d startX prev) t !! i = Some p
    ∧ pt_x p = sampleX startX i
    ∧ if bool_decide (c = gap ∧ 9 ≤ i ∧ i ≤ 20)%nat
      then pt_y p = Some (num (-24)) ∧ pt_height p = None
      else exists v, pt_y p = Some v ∧ pt_height p = Some v.
Proof.
  intros Hi. unfold eval, buildPoints. rewrite M_bind_eq. cbn [mret M_ret fst].
  set (raw := (mapM (samplePoint c d startX prev) (seq 0 nbPoints) t).1).
  assert (Hraw : raw !! i = Some (samplePoint c d startX prev i t).1)
    by (apply rawPoints_lookup; exact Hi).
  pose proof (samplePoint_x c d startX prev i t) as Hx.
  case_bool_decide as Hhole.
  - destruct Hhole as (-> & Hlo & Hhi).
    pose proof (samplePoint_gap_void d startX prev i t Hlo Hhi) as Hnone.
    eexists. split; [apply smoothSegmentPoints_gap; [exact Hraw | exact Hnone]|].
    split; [exact Hx|]. split; [apply samplePoint_gap_void_y; assumption | exact Hnone].
  - assert (Hground : exists v, pt_y (samplePoint c d startX prev i t).1 = Some v
                        ∧ pt_height (samplePoint c d startX prev i t).1 = Some v).
    { destruct (decide (c = gap)) as [->|Hc].
      - assert (¬ (9 ≤ i ∧ i ≤ 20)%nat) by (intros ?; apply Hhole; auto).
        apply samplePoint_gap_ground; [exact Hi | lia].
      - apply samplePoint_ground. exact Hc. }
    destruct Hground as (v & Hy & Hh).
    set (p := (samplePoint c d startX prev i t).1) in *.
    pose proof (rawPoints_NoDup c d startX prev t) as Hnodup. fold raw in Hnodup.
    destruct (decide (5 ≤ length (validFrom 0 raw))%nat) as [Hn|Hn].
    + assert (Hin : i ∈ validFrom 0 raw) by (apply valid_elem; exists p; rewrite Hh; eauto).
      apply list_elem_of_lookup_1 in Hin as [k Hk].
      rewrite (smoothSegmentPoints_valid raw k i p Hnodup Hn Hk Hraw).
      eexists. split; [reflexivity|]. case_bool_decide.
      * cbn. split; [exact Hx|]. eauto.
      * cbn. split; [exact Hx|]. rewrite Hy. eauto.
    + rewrite smoothSegmentPoints_short by lia.
      exists p. split; [exact Hraw|]. split; [exact Hx|]. eauto.
Qed.

(** X13: when the last stored segment (if any) has a sample to join to,
    [createTerrainSegment(x)] returns a segment that starts at [x], adds it
    at the end of the store and leaves the stored ones as they were; it has
    30 samples, on the even grid from [x] to [x + segmentWidth]. *)
Theorem createTerrainSegment_appends `{JSMath} `{Collaborators W}
    (x : Qc) (w : W) (t : Terrain) (previous : option Qc) :
  previousEndHeight (terrainMeshes t) = Some previous ->
  exists segment pts,
    (createTerrainSegment x w t).1.1 = Some segment
    ∧ terrainMeshes (createTerrainSegment x w t).2 = terrainMeshes t ++ [segment]
    ∧ startX segment = x
    ∧ chunkType segment = eval (selectChunkType (difficultyAt x)) t
    ∧ points segment = Some pts
    ∧ length pts = 30%nat
    ∧ pt_x <$> pts
      = (fun i : nat => x + ofZ (Z.of_nat i) / ofZ 29 * segmentWidth) <$> seq 0 30.
Proof.
  intros Hprev.
  destruct (createTerrainSegment_builds x w t previous Hprev) as [Hres Hstore].
  destruct (builtSegment_fields x previous t) as (Hsx & Hct & Hpts).
  eexists _, _. split; [exact Hres|]. split; [exact Hstore|].
  split; [exact Hsx|]. split; [exact Hct|]. split; [exact Hpts|].
  split; [apply length_buildPoints|].
  apply list_eq. intros i. rewrite !list_lookup_fmap.
  destruct (decide (i < nbPoints)%nat) as [Hi|Hi].
  - destruct (buildPoints_profile (chunkType (builtSegment x previous t)) (difficultyAt x)
                x previous (exec (selectChunkType (difficultyAt x)) t) i Hi)
      as (p & Hp & Hx & _).
    rewrite Hp. rewrite lookup_seq_lt by exact Hi. cbn. rewrite Hx. reflexivity.
  - rewrite lookup_ge_None_2 by (rewrite length_buildPoints; lia).
    rewrite lookup_ge_None_2 by (rewrite length_seq; unfold nbPoints in Hi; lia).
    reflexivity.
Qed.

Lemma createTerrainSegment_appends_witness :
  exists segment pts,
    (createTerrainSegment (H := approxMath) (H0 := idleWorld) 0 0%nat (newTerrain 42)).1.1
      = Some segment
    ∧ points segment = Some pts ∧ length pts = 30%nat.
Proof.
  destruct (createTerrainSegment_appends (H := approxMath) (H0 := idleWorld)
              0 0%nat (newTerrain 42) None)
    as (segment & pts & Hres & _ & _ & _ & Hpts & Hlen & _); [reflexivity|].
  exists segment, pts. auto.
Defined.

(** X14: every sample of a built segment carries a number in [y]; its
    [height] is that same number, except at the samples 9 to 20 of a gap
    segment, where [y] is -24 and [height] is [null].  No other chunk type
    has a sample without ground. *)
Theorem createTerrainSegment_holes_only_in_gaps `{JSMath} `{Collaborators W}
    (x : Qc) (w : W) (t : Terrain) (segment : Segment)
    (pts : list SamplePoint) (i : nat) (p : SamplePoint) :
  (createTerrainSegment x w t).1.1 = Some segment ->
  points segment = Some pts -> pts !! i = Some p ->
  (pt_height p = None <-> chunkType segment = gap ∧ (9 ≤ i ≤ 20)%nat)
  ∧ exists v, pt_y p = Some v
      ∧ (pt_height p = None -> v = num (-24))
      ∧ (pt_height p ≠ None -> pt_height p = Some v).
Proof.
  intros Hres Hpts Hp.
  destruct (previousEndHeight (terrainMeshes t)) as [previous|] eqn:Hprev.
  2: { destruct (createTerrainSegment_throws x w t Hprev) as [Hnone _]. congruence. }
  destruct (createTerrainSegment_builds x w t previous Hprev) as [Hbuilt _].
  assert (segment = builtSegment x previous t) by congruence. subst segment.
  destruct (builtSegment_fields x previous t) as (_ & _ & Hfield).
  clear Hres Hbuilt.
  set (segment := builtSegment x previous t) in *. clearbody segment.
  set (c := chunkType segment) in *. clearbody c.
  set (t1 := exec (selectChunkType (difficultyAt x)) t) in *. clearbody t1.
  assert (Hi : (i < nbPoints)%nat).
  { rewrite <- (length_buildPoints c (difficultyAt x) x previous t1).
    apply lookup_lt_is_Some. exists p. congruence. }
  destruct (buildPoints_profile c (difficultyAt x) x previous t1 i Hi)
    as (p' & Hp' & _ & Hprofile).
  assert (p' = p) by congruence. subst p'. clear Hp' Hfield Hpts Hp.
  case_bool_decide as Hhole.
  - destruct Hprofile as [Hy Hh]. destruct Hhole as (Hc & Hlo & Hhi). split.
    + split; [intros _; split; [exact Hc | lia] | intros _; exact Hh].
    + exists (num (-24)). split; [exact Hy|]. split; [reflexivity | congruence].
  - destruct Hprofile as (v & Hy & Hh). split.
    + split; [congruence | intros [Hc Hr]; exfalso; apply Hhole; split; [exact Hc | lia]].
    + exists v. split; [exact Hy|]. split; [congruence | intros _; exact Hh].
Qed.

Lemma createTerrainSegment_holes_only_in_gaps_witness :
  let segment := builtSegment (H := approxMath) 0 None (newTerrain 42) in
  let pts := default [] (points segment) in
  let p := default {| pt_x := 0; pt_y := None; pt_height := None |} (pts !! 3%nat) in
  pt_height p = None <-> chunkType segment = gap ∧ (9 ≤ 3 ≤ 20)%nat.
Proof.
  intros segment pts p.
  apply (createTerrainSegment_holes_only_in_gaps (H := approxMath) (H0 := idleWorld)
           0 0%nat (newTerrain 42) segment pts 3%nat p).
  - vm_compute. reflexivity.
  - vm_compute. reflexivity.
  - vm_compute. reflexivity.
Defined.

(** ** When the builder throws *)

Lemma previousEndHeight_None (segs : list Segment) :
  previousEndHeight segs = None
  <-> exists s, list.last segs = Some s ∧ (points s = None ∨ points s = Some []).
Proof.
  unfold previousEndHeight. destruct (list.last segs) as [s|].
  - destruct (points s) as [pts|] eqn:Hpts.
    + destruct (list.last pts) as [p|] eqn:Hlast; cbn.
      * split; [discriminate|]. intros (s' & Hs & [Hn | Hn]).
        -- injection Hs as <-. congruence.
        -- injection Hs as <-. rewrite Hpts in Hn. injection Hn as ->. discriminate.
      * apply last_None in Hlast. subst pts. split; [|reflexivity].
        intros _. exists s. auto.
    + split; [|reflexivity]. intros _. exists s. auto.
  - split; [discriminate|]. intros (s & Hs & _). discriminate.
Qed.

Lemma createTerrainSegment_throws_run `{JSMath} `{Collaborators W} x (w : W) t :
  previousEndHeight (terrainMeshes t) = None ->
  createTerrainSegment x w t = (None, w, exec seededRandom t).
Proof.
  intros Hprev. unfold createTerrainSegment.
  rewrite E_bind_eq, liftM_eq. cbn [fst snd].
  set (sc := selectChunkType (difficultyAt x) t).
  rewrite E_bind_eq, liftM_eq. cbn [fst snd gets].
  subst sc. rewrite selectChunkType_store, Hprev.
  cbn [mret E_ret fst snd]. reflexivity.
Qed.

(** X15: [createTerrainSegment] throws exactly when the last stored segment
    has no sample to join to ([points] missing or empty).  By then the chunk
    type has been drawn: the store is untouched and no collaborator has been
    called, but the seed has moved on by one draw. *)
Theorem createTerrainSegment_throws_iff `{JSMath} `{Collaborators W}
    (x : Qc) (w : W) (t : Terrain) :
  ((createTerrainSegment x w t).1.1 = None
   <-> exists s, list.last (terrainMeshes t) = Some s
                 ∧ (points s = None ∨ points s = Some []))
  ∧ ((createTerrainSegment x w t).1.1 = None ->
     (createTerrainSegment x w t).1.2 = w
     ∧ (createTerrainSegment x w t).2 = exec seededRandom t
     ∧ terrainMeshes (createTerrainSegment x w t).2 = terrainMeshes t
     ∧ seed (createTerrainSegment x w t).2 = Z.rem (seed t * 9301 + 49297) 233280).
Proof.
  destruct (previousEndHeight (terrainMeshes t)) as [previous|] eqn:Hprev.
  - destruct (createTerrainSegment_builds x w t previous Hprev) as [Hres _].
    split.
    + rewrite <- previousEndHeight_None, Hprev, Hres. split; discriminate.
    + rewrite Hres. discriminate.
  - rewrite (createTerrainSegment_throws_run x w t Hprev). cbn [fst snd]. split.
    + rewrite <- previousEndHeight_None. tauto.
    + intros _. repeat split; reflexivity.
Qed.

Lemma createTerrainSegment_throws_iff_witness :
  let t := set_terrainMeshes
             [ {| startX := 0; points := Some []; chunkType := hills |} ] (newTerrain 42) in
  (createTerrainSegment (H := approxMath) (H0 := busyWorld) (num 40) 0%nat t).1.1 = None
  ∧ (createTerrainSegment (H := approxMath) (H0 := busyWorld) (num 40) 0%nat t).1.2 = 0%nat.
Proof.
  intros t.
  destruct (createTerrainSegment_throws_iff (H := approxMath) (H0 := busyWorld)
              (num 40) 0%nat t) as [Hiff Hstate].
  assert (Hnone : (createTerrainSegment (H := approxMath) (H0 := busyWorld)
                     (num 40) 0%nat t).1.1 = None).
  { apply Hiff. eexists. split; [reflexivity|]. right. reflexivity. }
  split; [exact Hnone | apply Hstate, Hnone].
Defined.

(** ** The constructor *)

Lemma initialize_loop_builds `{JSMath} `{Collaborators W} (n : nat) :
  forall (i : Z) (w : W) (t : Terrain),
  previousEndHeight (terrainMeshes t) ≠ None ->
  (initialize_loop n i w t).1.1 = Some tt
  ∧ exists built,
      terrainMeshes (initialize_loop n i w t).2 = terrainMeshes t ++ built
      ∧ startX <$> built
        = (fun k : nat => ofZ (i + Z.of_nat k) * segmentWidth) <$> seq 0 n
      ∧ Forall (fun s => exists pts, points s = Some pts ∧ length pts = 30%nat) built.
Proof.
  induction n as [|n IH]; intros i w t Hprev.
  - split; [reflexivity|]. exists []. rewrite app_nil_r. auto.
  - destruct (previousEndHeight (terrainMeshes t)) as [previous|] eqn:Hp; [|contradiction].
    destruct (createTerrainSegment_run (ofZ i * segmentWidth) w t previous Hp)
      as (w' & t' & Hrun & Hstore).
    destruct (builtSegment_fields (ofZ i * segmentWidth) previous t) as (Hsx & _ & Hpts).
    cbn [initialize_loop]. rewrite E_bind_eq, Hrun. cbn [fst snd].
    set (segment := builtSegment (ofZ i * segmentWidth) previous t) in *. clearbody segment.
    destruct (IH (i + 1)%Z w' t') as (Hres & built & Hbuilt & Hxs & Hall).
    { rewrite Hstore.
      destruct (previousEndHeight_snoc (terrainMeshes t) segment _ Hpts) as [h Hh];
        [|rewrite Hh; discriminate].
      intros Hnil. apply (f_equal length) in Hnil.
      rewrite length_buildPoints in Hnil. discriminate. }
    split; [exact Hres|].
    exists (segment :: built). split; [|split].
    + rewrite Hbuilt, Hstore, <- app_assoc. reflexivity.
    + cbn [fmap list_fmap seq]. rewrite Hsx. f_equal.
      * rewrite Z.add_0_r. reflexivity.
      * change (list_fmap _ _ startX built) with (startX <$> built). rewrite Hxs.
        rewrite <- fmap_S_seq, <- list_fmap_compose. apply list_fmap_ext.
        intros _ k _. cbn. do 2 f_equal. lia.
    + constructor; [|exact Hall].
      eexists. split; [exact Hpts | apply length_buildPoints].
Qed.

(** X16: for every seed and whatever the collaborators answer, the
    constructor returns normally and leaves exactly twenty segments, at the
    start positions -200, -160, ..., 560 in this order, each with 30
    samples. *)
Theorem constructor_builds_twenty_segments `{JSMath} `{Collaborators W}
    (seed : Z) (w : W) :
  (constructor seed w).1.1 = Some tt
  ∧ startX <$> terrainMeshes (constructor seed w).2
    = (fun k : nat => ofZ (Z.of_nat k - 5) * segmentWidth) <$> seq 0 20
  ∧ Forall (fun s => exists pts, points s = Some pts ∧ length pts = 30%nat)
      (terrainMeshes (constructor seed w).2).
Proof.
  unfold constructor, initialize.
  destruct (initialize_loop_builds 20 (-5) w (newTerrain seed))
    as (Hres & built & Hstore & Hxs & Hall); [discriminate|].
  split; [exact Hres|]. rewrite Hstore. cbn [newTerrain terrainMeshes app].
  split; [|exact Hall]. rewrite Hxs. apply list_fmap_ext.
  intros _ k _. cbn. do 2 f_equal. lia.
Qed.

(** ** The tick: when it aborts *)

Lemma validIndex_Fin (q : Qc) :
  validIndex (Fin q)
  = if bool_decide (q < 0) then None else Some (Finite (Math_floor (q / segmentWidth))).
Proof.
  unfold validIndex, segmentIndexOf.
  assert (Hiff : ofZ (Math_floor (q / segmentWidth)) < 0 <-> q < 0).
  { transitivity (Math_floor (q / segmentWidth) < 0)%Z.
    - unfold Qclt. rewrite this_ofZ. change (this 0) with (inject_Z 0).
      rewrite <- Zlt_Qlt. reflexivity.
    - rewrite floor_lt, ofZ_0. split; intros Hq; qc_lra. }
  rewrite Math_floor_ofZ.
  case_bool_decide as H1; case_bool_decide as H2; tauto.
Qed.

Lemma finishTick_outcome `{JSMath} `{Collaborators W} x index c (w : W) t :
  (finishTick x index c w t).1.1 ≠ Some Aborted.
Proof.
  unfold finishTick. destruct x as [| | |q]; try discriminate.
  destruct index as [i|]; [|discriminate].
  rewrite !E_bind_eq. discriminate.
Qed.

Lemma selfHeal_outcome `{JSMath} `{Collaborators W} x index c existing (w : W) t :
  (selfHeal x index c existing w t).1.1 ≠ Some Aborted.
Proof.
  unfold selfHeal. rewrite E_bind_eq, liftM_eq. cbn [gets fst snd].
  destruct (existsb (coversNumber x) (terrainMeshes t)); [apply finishTick_outcome|].
  rewrite E_bind_eq. destruct x as [| | |q].
  1-3: rewrite E_bind_eq, E_bind_eq;
       match goal with |- context [previousEndHeight ?s] => destruct (previousEndHeight s) end;
       discriminate.
  case_bool_decide; [apply finishTick_outcome|].
  rewrite E_bind_eq.
  match goal with |- context [createTerrainSegment ?a ?b ?c] =>
    destruct (createTerrainSegment a b c).1.1 end;
    [apply finishTick_outcome | discriminate].
Qed.

(** X17: [update] returns at its validity test exactly when the position is
    missing or its [x] is [NaN], [-Infinity] or a negative number.  The tick
    then only writes one warning: the terrain state is untouched. *)
Theorem update_aborts_iff `{JSMath} `{Collaborators W}
    (budget : nat) (vehiclePosition : Position) (w : W) (t : Terrain) :
  let invalid :=
    match vehiclePosition with
    | NoPosition | PositionX NaN | PositionX NegInf => True
    | PositionX PosInf => False
    | PositionX (Fin q) => q < 0
    end in
  ((update budget vehiclePosition w t).1.1 = Some Aborted <-> invalid)
  ∧ (invalid ->
     update budget vehiclePosition w t = (Some Aborted, (answer ConsoleWarn w).2, t)).
Proof.
  intros invalid.
  assert (Hrun : invalid ->
            update budget vehiclePosition w t = (Some Aborted, (answer ConsoleWarn w).2, t)).
  { subst invalid. destruct vehiclePosition as [|[| | |q]]; intros Hinv.
    - apply abort_run.
    - apply update_invalid_index. reflexivity.
    - contradiction.
    - apply update_invalid_index. reflexivity.
    - apply update_invalid_index. rewrite validIndex_Fin.
      rewrite bool_decide_eq_true_2 by exact Hinv. reflexivity. }
  split; [|exact Hrun]. split; [|intros Hinv; rewrite (Hrun Hinv); reflexivity].
  intros Habort. subst invalid.
  destruct vehiclePosition as [|x]; [exact I|].
  destruct (validIndex x) as [index|] eqn:Hvalid.
  2: { destruct x as [| | |q]; try exact I; try discriminate.
       rewrite validIndex_Fin in Hvalid. case_bool_decide; [assumption | discriminate]. }
  exfalso. revert Habort. unfold update. rewrite Hvalid.
  rewrite E_bind_eq, liftM_eq. cbn [gets fst snd].
  rewrite E_bind_eq. rewrite E_bind_eq, liftM_eq. cbn [modify fst snd].
  rewrite E_bind_eq.
  match goal with |- context [generateAhead ?b ?i ?e ?w0 ?t0] =>
    destruct (generateAhead b i e w0 t0) as [[[existing|] w1] t1] end;
    cbn [fst snd]; [|discriminate].
  rewrite E_bind_eq, liftM_eq. cbn [gets fst snd].
  rewrite E_bind_eq. rewrite E_bind_eq, liftM_eq. cbn [modify fst snd].
  apply selfHeal_outcome.
Qed.

Lemma update_aborts_iff_witness :
  update (H := approxMath) (H0 := busyWorld) 5 (PositionX (Fin (num (-3)))) 0%nat
    (newTerrain 42)
  = (Some Aborted, 1%nat, newTerrain 42).
Proof.
  apply (update_aborts_iff (H := approxMath) (H0 := busyWorld) 5
           (PositionX (Fin (num (-3)))) 0%nat (newTerrain 42)).
  vm_compute. reflexivity.
Defined.

(** ** The tick on a store without repeated start positions *)

Lemma uniqueSegments_NoDup `{JSMath} `{Collaborators W} (segs : list Segment) :
  forall processed (w : W) t,
  NoDup (startX <$> segs) ->
  (forall s, s ∈ segs -> startX s ∉ processed) ->
  uniqueSegments segs processed w t = (segs, w, t).
Proof.
  induction segs as [|segment rest IH]; intros processed w t Hnodup Hfresh; [reflexivity|].
  cbn [uniqueSegments].
  rewrite bool_decide_eq_false_2 by (apply Hfresh; left).
  rewrite E_bind_eq. rewrite fmap_cons in Hnodup. apply list.NoDup_cons in Hnodup as [Hhead Htail].
  rewrite IH; [reflexivity | exact Htail |].
  intros s Hs Hin. apply elem_of_cons in Hin as [Heq | Hin].
  - apply Hhead. rewrite <- Heq. apply list_elem_of_fmap. exists s. auto.
  - apply (Hfresh s); [right; exact Hs | exact Hin].
Qed.

Lemma set_terrainMeshes_same (t : Terrain) : set_terrainMeshes (terrainMeshes t) t = t.
Proof. destruct t. reflexivity. Qed.

(** The start of a tick at a valid index, on a store without repeated start
    positions. *)
Lemma update_from_generation `{JSMath} `{Collaborators W}
    (budget : nat) (x : jsnumber) (index : Index) (w : W) (t : Terrain) :
  validIndex x = Some index ->
  NoDup (startX <$> terrainMeshes t) ->
  update budget (PositionX x) w t
  = (generated ← generateAhead budget index (map startX (terrainMeshes t));
     match generated with
     | None => mret None
     | Some existingSegmentsStartX =>
         segs ← liftM (gets terrainMeshes);
         evicted ← evictBehind index segs existingSegmentsStartX;
         _ ← liftM (modify (set_terrainMeshes evicted.1));
         selfHeal x index
           match find (coversNumber x) (terrainMeshes t) with
           | Some currentSegment => chunkType currentSegment
           | None => hills
           end evicted.2
     end) w t.
Proof.
  intros Hvalid Hnodup. unfold update. rewrite Hvalid.
  rewrite E_bind_eq, liftM_eq. cbn [gets fst snd].
  rewrite E_bind_eq. rewrite uniqueSegments_NoDup; [|exact Hnodup|intros s _; apply not_elem_of_nil].
  cbn [fst snd]. rewrite E_bind_eq, liftM_eq. cbn [modify fst snd].
  rewrite set_terrainMeshes_same. reflexivity.
Qed.

Lemma generateAhead_stalls `{JSMath} `{Collaborators W} (budget : nat) :
  forall (i : Z) existing (w : W) t lastSegment,
  list.last (terrainMeshes t) = Some lastSegment ->
  (indexOfSegment lastSegment < i + VISIBLE_CHUNKS_AHEAD)%Z ->
  startX lastSegment + segmentWidth ∈ existing ->
  (generateAhead budget (Finite i) existing w t).1.1 = None
  ∧ (generateAhead budget (Finite i) existing w t).2 = t.
Proof.
  induction budget as [|budget IH]; intros i existing w t lastSegment Hlast Hshort Hin.
  - split; reflexivity.
  - rewrite generateAhead_S, E_bind_eq, liftM_eq. cbn [gets fst snd]. rewrite Hlast.
    cbn [reaches]. rewrite bool_decide_eq_false_2 by lia.
    rewrite bool_decide_eq_true_2 by exact Hin.
    rewrite E_bind_eq, ext_eq. cbn [fst snd].
    apply (IH i existing _ t lastSegment); assumption.
Qed.

(** X18: the generation loop has no way out when the start position after
    the last stored segment is already stored and the last segment does not
    reach five segments ahead of the vehicle: every round warns and changes
    nothing, so [update] does not return, whatever the number of rounds. *)
Theorem update_stalls_on_stored_successor `{JSMath} `{Collaborators W}
    (x : Qc) (w : W) (t : Terrain) (lastSegment : Segment) :
  0 ≤ x ->
  NoDup (startX <$> terrainMeshes t) ->
  list.last (terrainMeshes t) = Some lastSegment ->
  (indexOfSegment lastSegment < Math_floor (x / segmentWidth) + 5)%Z ->
  startX lastSegment + segmentWidth ∈ (startX <$> terrainMeshes t) ->
  forall budget,
    (update budget (PositionX (Fin x)) w t).1.1 = None
    ∧ (update budget (PositionX (Fin x)) w t).2 = t.
Proof.
  intros Hx Hnodup Hlast Hshort Hin budget.
  assert (Hvalid : validIndex (Fin x) = Some (Finite (Math_floor (x / segmentWidth)))).
  { rewrite validIndex_Fin. rewrite bool_decide_eq_false_2; [reflexivity|].
    apply Qcle_not_lt. exact Hx. }
  rewrite (update_from_generation budget (Fin x) _ w t Hvalid Hnodup).
  rewrite E_bind_eq.
  destruct (generateAhead_stalls budget (Math_floor (x / segmentWidth))
              (map startX (terrainMeshes t)) w t lastSegment Hlast Hshort Hin) as [Hnone Hsame].
  rewrite Hnone, Hsame. split; reflexivity.
Qed.

Lemma update_stalls_on_stored_successor_witness :
  (update (H := approxMath) (H0 := busyWorld) 1000 (PositionX (Fin (num 10))) 0%nat
     (set_terrainMeshes [stub (num 40); stub 0] (newTerrain 42))).1.1 = None.
Proof.
  apply (update_stalls_on_stored_successor (H := approxMath) (H0 := busyWorld)
           (num 10) 0%nat (set_terrainMeshes [stub (num 40); stub 0] (newTerrain 42))
           (stub 0)).
  - vm_compute. discriminate.
  - apply (bool_decide_unpack _). vm_compute. reflexivity.
  - reflexivity.
  - vm_compute. reflexivity.
  - apply (bool_decide_unpack _). vm_compute. reflexivity.
Defined.

(** ** The tick on a settled store *)

Lemma keeps_terrain_gets {W A} (f : Terrain -> A) : keeps_terrain (W := W) (liftM (gets f)).
Proof. intros w t. reflexivity. Qed.

Lemma keeps_terrain_finishTick `{JSMath} `{Collaborators W} x index c :
  keeps_terrain (finishTick x index c).
Proof.
  unfold finishTick, applyLODToSegments.
  destruct x; try apply keeps_terrain_ret.
  destruct index; [|apply keeps_terrain_ret].
  pose proof (@keeps_terrain_gets W (list Segment) terrainMeshes).
  terrain_tac.
Qed.

Lemma finishTick_completes `{JSMath} `{Collaborators W} q i c (w : W) t :
  (finishTick (Fin q) (Finite i) c w t).1.1 = Some Completed.
Proof. unfold finishTick. rewrite !E_bind_eq. reflexivity. Qed.

Lemma validIndex_nonneg (x : Qc) :
  0 ≤ x -> validIndex (Fin x) = Some (Finite (Math_floor (x / segmentWidth))).
Proof.
  intros Hx. rewrite validIndex_Fin. rewrite bool_decide_eq_false_2; [reflexivity|].
  apply Qcle_not_lt. exact Hx.
Qed.

Lemma evictBehind_idle `{JSMath} `{Collaborators W} (i : Z) segs existing (w : W) t :
  ((length segs ≤ 10)%nat ∨ (i ≤ 5)%Z
   ∨ exists firstSegment,
       head segs = Some firstSegment ∧ (i - 5 ≤ indexOfSegment firstSegment)%Z) ->
  evictBehind (Finite i) segs existing w t = ((segs, existing), w, t).
Proof.
  intros Hidle. destruct segs as [|firstSegment rest]; [reflexivity|].
  cbn [evictBehind exceeds behind].
  unfold VISIBLE_CHUNKS_AHEAD, VISIBLE_CHUNKS_BEHIND.
  destruct Hidle as [Hlen | [Hi | (f & Hf & Hidx)]].
  - rewrite bool_decide_eq_false_2 by lia. reflexivity.
  - rewrite (bool_decide_eq_false_2 (5 < i)%Z) by lia. rewrite andb_false_r. reflexivity.
  - injection Hf as <-.
    rewrite (bool_decide_eq_false_2 (indexOfSegment firstSegment < i - 5)%Z) by lia.
    destruct (_ && _); reflexivity.
Qed.

(** X19: on a settled store a tick builds nothing and evicts nothing: it
    runs to its end and leaves the terrain state, seed included, exactly as
    it was. *)
Theorem update_settled_store_untouched `{JSMath} `{Collaborators W}
    (budget : nat) (x : Qc) (w : W) (t : Terrain) :
  0 ≤ x -> settled x (terrainMeshes t) -> (0 < budget)%nat ->
  (update budget (PositionX (Fin x)) w t).1.1 = Some Completed
  ∧ (update budget (PositionX (Fin x)) w t).2 = t.
Proof.
  intros Hx (Hnodup & (lastSegment & Hlast & Hreach) & Hidle & Hcov) Hbudget.
  rewrite (update_from_generation budget (Fin x) _ w t (validIndex_nonneg x Hx) Hnodup).
  destruct budget as [|budget]; [lia|].
  rewrite E_bind_eq, generateAhead_S.
  rewrite E_bind_eq, liftM_eq. cbn [gets fst snd]. rewrite Hlast.
  cbn [reaches]. unfold VISIBLE_CHUNKS_AHEAD. rewrite bool_decide_eq_true_2 by exact Hreach.
  cbn [mret E_ret fst snd].
  rewrite E_bind_eq, liftM_eq. cbn [gets fst snd].
  rewrite E_bind_eq, evictBehind_idle by exact Hidle. cbn [fst snd].
  rewrite E_bind_eq, liftM_eq. cbn [modify fst snd]. rewrite set_terrainMeshes_same.
  unfold selfHeal. rewrite E_bind_eq, liftM_eq. cbn [gets fst snd].
  change (coversNumber (Fin x)) with (covers x). rewrite Hcov. split; [apply finishTick_completes | apply keeps_terrain_finishTick].
Qed.

Lemma update_settled_store_untouched_witness :
  let t := set_terrainMeshes
             [stub 0; stub (num 40); stub (num 80); stub (num 120); stub (num 160);
              stub (num 200)] (newTerrain 42) in
  (update (H := approxMath) (H0 := busyWorld) 1 (PositionX (Fin (num 10))) 0%nat t).2 = t.
Proof.
  intros t.
  apply (update_settled_store_untouched (H := approxMath) (H0 := busyWorld)
           1 (num 10) 0%nat t).
  - vm_compute. discriminate.
  - split; [apply (bool_decide_unpack _); vm_compute; reflexivity|].
    split; [exists (stub (num 200)); split; [reflexivity | vm_compute; discriminate]|].
    split; [left; simpl; lia | vm_compute; reflexivity].
  - lia.
Defined.

(** ** The tick on a contiguous store *)

Lemma segment_start_inj (z z' : Z) : ofZ z * segmentWidth = ofZ z' * segmentWidth -> z = z'.
Proof.
  intros Heq.
  assert (Hq : (this (ofZ z * segmentWidth) == this (ofZ z' * segmentWidth))%Q)
    by (rewrite Heq; reflexivity).
  unfold segmentWidth in Hq. revert Hq. push_this. intros Hq.
  apply inject_Z_injective. lra.
Qed.

Lemma indexOfSegment_at (s : Segment) (k : Z) :
  startX s = ofZ k * segmentWidth -> indexOfSegment s = k.
Proof.
  intros Hs. unfold indexOfSegment. rewrite Hs.
  replace (ofZ k * segmentWidth / segmentWidth) with (ofZ k).
  - apply Math_floor_ofZ.
  - pose proof segmentWidth_nonzero. field. assumption.
Qed.

Lemma contiguousFrom_lookup (a : Z) (segs : list Segment) :
  contiguousFrom a segs
  <-> forall k s, segs !! k = Some s -> startX s = ofZ (a + Z.of_nat k) * segmentWidth.
Proof.
  unfold contiguousFrom. split.
  - intros Heq k s Hk.
    assert (Hx : (startX <$> segs) !! k = Some (startX s))
      by (rewrite list_lookup_fmap, Hk; reflexivity).
    rewrite Heq, list_lookup_fmap in Hx.
    rewrite lookup_seq_lt in Hx by (apply lookup_lt_is_Some; eauto).
    cbn in Hx. congruence.
  - intros Hall. apply list_eq. intros k. rewrite !list_lookup_fmap.
    destruct (segs !! k) as [s|] eqn:Hk.
    + rewrite lookup_seq_lt by (apply lookup_lt_is_Some; eauto).
      cbn. f_equal. apply Hall. exact Hk.
    + rewrite lookup_ge_None_2; [reflexivity|].
      rewrite length_seq. apply lookup_ge_None. exact Hk.
Qed.

Lemma contiguousFrom_snoc a segs s :
  contiguousFrom a segs ->
  startX s = ofZ (a + Z.of_nat (length segs)) * segmentWidth ->
  contiguousFrom a (segs ++ [s]).
Proof.
  rewrite !contiguousFrom_lookup. intros Hall Hs k s' Hk.
  apply lookup_app_Some in Hk as [Hk | [Hge Hk]]; [apply Hall; exact Hk|].
  apply list_lookup_singleton_Some in Hk as [Hz <-].
  rewrite Hs. do 2 f_equal. lia.
Qed.

Lemma contiguousFrom_drop a segs k :
  contiguousFrom a segs -> contiguousFrom (a + Z.of_nat k) (drop k segs).
Proof.
  rewrite !contiguousFrom_lookup. intros Hall j s Hj.
  rewrite lookup_drop in Hj. rewrite (Hall _ _ Hj). do 2 f_equal. lia.
Qed.

Lemma contiguousFrom_NoDup a segs : contiguousFrom a segs -> NoDup (startX <$> segs).
Proof.
  intros Hc. apply NoDup_alt. intros j k x Hj Hk.
  rewrite list_lookup_fmap in Hj, Hk.
  destruct (segs !! j) as [sj|] eqn:Ej; [|discriminate].
  destruct (segs !! k) as [sk|] eqn:Ek; [|discriminate].
  rewrite contiguousFrom_lookup in Hc.
  cbn in Hj, Hk. injection Hj as <-. injection Hk as Hk.
  rewrite (Hc _ _ Ej), (Hc _ _ Ek) in Hk.
  apply segment_start_inj in Hk. lia.
Qed.

Lemma contiguousFrom_last a segs lastSegment :
  contiguousFrom a segs -> list.last segs = Some lastSegment ->
  startX lastSegment = ofZ (a + Z.of_nat (length segs) - 1) * segmentWidth
  ∧ indexOfSegment lastSegment = (a + Z.of_nat (length segs) - 1)%Z.
Proof.
  intros Hc Hlast. rewrite last_lookup in Hlast.
  rewrite contiguousFrom_lookup in Hc. pose proof (Hc _ _ Hlast) as Hs.
  assert (Hlen : (0 < length segs)%nat).
  { destruct segs; [discriminate | simpl; lia]. }
  replace (a + Z.of_nat (Nat.pred (length segs)))%Z
    with (a + Z.of_nat (length segs) - 1)%Z in Hs by lia.
  split; [exact Hs | apply indexOfSegment_at; exact Hs].
Qed.

Lemma previousEndHeight_sampled segs :
  sampled segs -> exists previous, previousEndHeight segs = Some previous.
Proof.
  intros Hs. unfold previousEndHeight.
  destruct (list.last segs) as [s|] eqn:Hlast; [|eauto].
  assert (Hin : s ∈ segs).
  { rewrite last_lookup in Hlast. eapply list_elem_of_lookup_2. exact Hlast. }
  unfold sampled in Hs. rewrite list.Forall_forall in Hs.
  destruct (Hs s Hin) as (pts & -> & Hne).
  destruct (list.last pts) as [p|] eqn:Hp; [cbn; eauto|].
  apply last_None in Hp. contradiction.
Qed.

Lemma generateAhead_contiguous `{JSMath} `{Collaborators W} (budget : nat) :
  forall (m : nat) (a i : Z) existing (w : W) t,
  terrainMeshes t ≠ [] ->
  contiguousFrom a (terrainMeshes t) -> sampled (terrainMeshes t) ->
  (forall e, e ∈ existing -> e ∈ (startX <$> terrainMeshes t)) ->
  (i + 5 - (a + Z.of_nat (length (terrainMeshes t)) - 1) ≤ Z.of_nat m)%Z ->
  (m < budget)%nat ->
  exists existing' new,
    (generateAhead budget (Finite i) existing w t).1.1 = Some existing'
    ∧ terrainMeshes (generateAhead budget (Finite i) existing w t).2
      = terrainMeshes t ++ new
    ∧ contiguousFrom a (terrainMeshes t ++ new)
    ∧ sampled (terrainMeshes t ++ new)
    ∧ (i + 5 ≤ a + Z.of_nat (length (terrainMeshes t ++ new)) - 1)%Z.
Proof.
  induction budget as [|budget IH];
    intros m a i existing w t Hne Hcont Hsampled Hexisting Hmissing Hbudget; [lia|].
  destruct (list.last (terrainMeshes t)) as [lastSegment|] eqn:Hlast.
  2: { apply last_None in Hlast. contradiction. }
  destruct (contiguousFrom_last a _ _ Hcont Hlast) as [Hlx Hli].
  rewrite generateAhead_S, E_bind_eq, liftM_eq. cbn [gets fst snd]. rewrite Hlast.
  cbn [reaches]. unfold VISIBLE_CHUNKS_AHEAD. rewrite Hli.
  case_bool_decide as Hreach.
  - exists existing, []. rewrite app_nil_r. cbn [mret E_ret fst snd].
    split; [reflexivity|]. split; [reflexivity|]. split; [exact Hcont|].
    split; [exact Hsampled | lia].
  - assert (Hnext : startX lastSegment + segmentWidth
                    = ofZ (a + Z.of_nat (length (terrainMeshes t))) * segmentWidth).
    { assert (Hz : ofZ (a + Z.of_nat (length (terrainMeshes t)))
                   = ofZ (a + Z.of_nat (length (terrainMeshes t)) - 1) + 1)
        by (rewrite <- ofZ_succ; f_equal; lia).
      rewrite Hlx, Hz. ring. }
    rewrite Hnext.
    rewrite bool_decide_eq_false_2.
    2: { intros Hin. apply Hexisting in Hin.
         apply list_elem_of_fmap in Hin as (s & Hs & Hin).
         apply list_elem_of_lookup_1 in Hin as [k Hk].
         pose proof (lookup_lt_Some _ _ _ Hk) as Hlt.
         rewrite contiguousFrom_lookup in Hcont. rewrite (Hcont _ _ Hk) in Hs.
         apply segment_start_inj in Hs. lia. }
    destruct (previousEndHeight_sampled _ Hsampled) as [previous Hprev].
    set (next := ofZ (a + Z.of_nat (length (terrainMeshes t))) * segmentWidth) in *.
    destruct (createTerrainSegment_run next w t previous Hprev) as (w' & t' & Hrun & Hstore).
    destruct (builtSegment_fields next previous t) as (Hsx & _ & Hpts).
    pose proof (length_buildPoints (chunkType (builtSegment next previous t))
                  (difficultyAt next) next previous
                  (exec (selectChunkType (difficultyAt next)) t)) as Hlen.
    rewrite E_bind_eq, Hrun. cbn [fst snd].
    set (segment := builtSegment next previous t) in *. clearbody segment.
    destruct (IH (Nat.pred m) a i (next :: existing) w' t')
      as (existing' & new & Hres & Hfinal & Hc' & Hs' & Hreach').
    + rewrite Hstore. intros Hnil. apply app_eq_nil in Hnil as [_ Hnil]. discriminate.
    + rewrite Hstore. apply contiguousFrom_snoc; [exact Hcont | exact Hsx].
    + rewrite Hstore. unfold sampled. apply Forall_app. split; [exact Hsampled|].
      constructor; [|constructor]. eexists. split; [exact Hpts|].
      intros Hnil. rewrite Hnil in Hlen. discriminate.
    + rewrite Hstore. intros e He. rewrite fmap_app. apply elem_of_app.
      apply elem_of_cons in He as [-> | He].
      * right. rewrite <- Hsx. cbn. left.
      * left. apply Hexisting. exact He.
    + rewrite Hstore, length_app. cbn [length]. lia.
    + lia.
    + rewrite Hstore, <- app_assoc in Hfinal, Hc', Hs', Hreach'.
      exists existing', ([segment] ++ new). auto.
Qed.

Lemma evictBehind_contiguous `{JSMath} `{Collaborators W} (i : Z) (segs : list Segment) :
  forall (a : Z) existing (w : W) t,
  contiguousFrom a segs ->
  exists k : nat,
    (evictBehind (Finite i) segs existing w t).1.1.1 = drop k segs
    ∧ (evictBehind (Finite i) segs existing w t).2 = t
    ∧ (k = 0%nat ∨ ((k + 10 ≤ length segs)%nat ∧ (a + Z.of_nat k ≤ i - 5)%Z))
    ∧ ((length (drop k segs) ≤ 10)%nat ∨ (i ≤ 5)%Z
       ∨ exists firstSegment,
           head (drop k segs) = Some firstSegment
           ∧ (i - 5 ≤ indexOfSegment firstSegment)%Z).
Proof.
  induction segs as [|firstSegment rest IH]; intros a existing w t Hcont.
  - exists 0%nat. cbn. split; [reflexivity|]. split; [reflexivity|].
    split; [left; reflexivity | left; lia].
  - assert (Hfirst : indexOfSegment firstSegment = a).
    { apply indexOfSegment_at. rewrite contiguousFrom_lookup in Hcont.
      rewrite (Hcont 0%nat firstSegment eq_refl). do 2 f_equal. lia. }
    cbn [evictBehind exceeds behind]. unfold VISIBLE_CHUNKS_AHEAD, VISIBLE_CHUNKS_BEHIND.
    rewrite Hfirst.
    destruct (decide (5 + 5 < Z.of_nat (length (firstSegment :: rest)))%Z) as [Hlen|Hlen].
    2: { rewrite bool_decide_eq_false_2 by exact Hlen. exists 0%nat. cbn [andb drop].
         split; [reflexivity|]. split; [reflexivity|].
         split; [left; reflexivity | left; lia]. }
    rewrite bool_decide_eq_true_2 by exact Hlen.
    destruct (decide (5 < i)%Z) as [Hi|Hi].
    2: { rewrite bool_decide_eq_false_2 by exact Hi. exists 0%nat. cbn [andb drop].
         split; [reflexivity|]. split; [reflexivity|].
         split; [left; reflexivity | right; left; lia]. }
    rewrite bool_decide_eq_true_2 by exact Hi. cbn [andb].
    destruct (decide (a < i - 5)%Z) as [Hbehind|Hbehind].
    2: { rewrite bool_decide_eq_false_2 by exact Hbehind. exists 0%nat. cbn [drop].
         split; [reflexivity|]. split; [reflexivity|].
         split; [left; reflexivity|]. right. right. exists firstSegment.
         split; [reflexivity | lia]. }
    rewrite bool_decide_eq_true_2 by exact Hbehind.
    rewrite E_bind_eq, ext_eq. cbn [fst snd].
    pose proof (contiguousFrom_drop a _ 1 Hcont) as Hrest. cbn [drop] in Hrest.
    destruct (IH (a + Z.of_nat 1)%Z
                (filter (fun s => s ≠ startX firstSegment) existing)
                (answer (RemoveSegment firstSegment) w).2 t Hrest)
      as (k & Hk & Ht & Hbound & Hidle).
    exists (S k). cbn [drop]. split; [exact Hk|]. split; [exact Ht|].
    split; [|exact Hidle]. right. cbn [length] in *.
    destruct Hbound as [-> | [Hk1 Hk2]]; lia.
Qed.

Lemma covers_at_index (x : Qc) (s : Segment) :
  startX s = ofZ (Math_floor (x / segmentWidth)) * segmentWidth -> covers x s = true.
Proof.
  intros Hs. unfold covers. rewrite Hs.
  destruct (floor_fraction (x / segmentWidth)) as [Hlo Hhi].
  set (f := ofZ (Math_floor (x / segmentWidth))) in *. clearbody f.
  rewrite !bool_decide_eq_true_2; [reflexivity | |]; qc_lra.
Qed.

(** X20: on a store whose segments sit side by side, all with samples, and
    whose first segment is not ahead of the vehicle, a tick with enough
    rounds runs to its end.  It only adds segments at the end and drops
    segments from the front; what it leaves is again side by side, reaches
    five segments ahead of the vehicle, contains the vehicle, and is settled:
    a second tick at the same position finds nothing to do. *)
Theorem update_extends_contiguous_store `{JSMath} `{Collaborators W}
    (budget : nat) (x : Qc) (a : Z) (w : W) (t : Terrain) :
  0 ≤ x ->
  terrainMeshes t ≠ [] ->
  contiguousFrom a (terrainMeshes t) -> sampled (terrainMeshes t) ->
  (a ≤ Math_floor (x / segmentWidth))%Z ->
  (Z.max 0 (Math_floor (x / segmentWidth) + 5
            - (a + Z.of_nat (length (terrainMeshes t)) - 1)) < Z.of_nat budget)%Z ->
  (update budget (PositionX (Fin x)) w t).1.1 = Some Completed
  ∧ exists dropped new : list Segment,
      terrainMeshes t ++ new
      = dropped ++ terrainMeshes (update budget (PositionX (Fin x)) w t).2
      ∧ contiguousFrom (a + Z.of_nat (length dropped))
          (terrainMeshes (update budget (PositionX (Fin x)) w t).2)
      ∧ sampled (terrainMeshes (update budget (PositionX (Fin x)) w t).2)
      ∧ settled x (terrainMeshes (update budget (PositionX (Fin x)) w t).2).
Proof.
  intros Hx Hne Hcont Hsampled Hbehind Hbudget.
  set (i := Math_floor (x / segmentWidth)) in *.
  rewrite (update_from_generation budget (Fin x) _ w t (validIndex_nonneg x Hx)
             (contiguousFrom_NoDup a _ Hcont)).
  fold i. rewrite E_bind_eq.
  destruct (generateAhead_contiguous budget
              (Z.to_nat (Z.max 0 (i + 5 - (a + Z.of_nat (length (terrainMeshes t)) - 1))))
              a i (map startX (terrainMeshes t)) w t Hne Hcont Hsampled)
    as (existing' & new & Hres & Hstore & Hcont1 & Hsampled1 & Hreach); [auto | lia | lia |].
  destruct (generateAhead budget (Finite i) (map startX (terrainMeshes t)) w t)
    as [[generated w1] t1].
  cbn [fst snd] in Hres, Hstore |- *. subst generated.
  rewrite E_bind_eq, liftM_eq. cbn [gets fst snd]. rewrite Hstore.
  set (store1 := terrainMeshes t ++ new) in *.
  destruct (evictBehind_contiguous i store1 a existing' w1 t1 Hcont1)
    as (k & Hk & Ht & Hbound & Hidle).
  rewrite E_bind_eq.
  destruct (evictBehind (Finite i) store1 existing' w1 t1) as [[evicted w2] t2].
  cbn [fst snd] in Hk, Ht |- *. subst t2.
  rewrite E_bind_eq, liftM_eq. cbn [modify fst snd]. rewrite Hk.
  set (store2 := drop k store1) in *.
  assert (Hlen1 : (0 < length store1)%nat).
  { unfold store1. rewrite length_app. destruct (terrainMeshes t); [contradiction|].
    cbn [length]. lia. }
  assert (Hk' : (k < length store1)%nat) by (destruct Hbound as [-> | [? ?]]; lia).
  assert (Hlen2 : length store2 = (length store1 - k)%nat) by apply length_drop.
  assert (Hcont2 : contiguousFrom (a + Z.of_nat k) store2)
    by (apply contiguousFrom_drop; exact Hcont1).
  assert (Hfront : (a + Z.of_nat k ≤ i)%Z) by (destruct Hbound as [-> | [? ?]]; lia).
  (* the segment under the vehicle *)
  destruct (lookup_lt_is_Some_2 store2 (Z.to_nat (i - (a + Z.of_nat k)))) as [current Hcur];
    [lia|].
  assert (Hcovers : covers x current = true).
  { apply covers_at_index. fold i. rewrite contiguousFrom_lookup in Hcont2.
    rewrite (Hcont2 _ _ Hcur). do 2 f_equal. lia. }
  assert (Hexists : existsb (covers x) store2 = true).
  { apply existsb_exists. exists current. split; [|exact Hcovers].
    apply list_elem_of_In. eapply list_elem_of_lookup_2. exact Hcur. }
  unfold selfHeal. rewrite E_bind_eq, liftM_eq. cbn [gets fst snd set_terrainMeshes terrainMeshes].
  change (coversNumber (Fin x)) with (covers x). rewrite Hexists.
  split; [apply finishTick_completes|].
  rewrite keeps_terrain_finishTick. cbn [set_terrainMeshes terrainMeshes].
  exists (take k store1), new. split; [symmetry; apply take_drop|].
  rewrite length_take, Nat.min_l by lia.
  split; [exact Hcont2|].
  split; [apply Forall_drop; exact Hsampled1|].
  split; [apply (contiguousFrom_NoDup _ _ Hcont2)|].
  split; [|split; [exact Hidle | exact Hexists]].
  destruct (list.last store2) as [lastSegment|] eqn:Hlast.
  - exists lastSegment. split; [reflexivity|].
    destruct (contiguousFrom_last _ _ _ Hcont2 Hlast) as [_ ->]. lia.
  - apply last_None in Hlast. rewrite Hlast in Hlen2. cbn in Hlen2. lia.
Qed.

Lemma update_extends_contiguous_store_witness :
  (update (H := approxMath) (H0 := idleWorld) 6 (PositionX (Fin (num 10))) 0%nat
     (set_terrainMeshes [stub 0] (newTerrain 42))).1.1 = Some Completed.
Proof.
  apply (update_extends_contiguous_store (H := approxMath) (H0 := idleWorld)
           6 (num 10) 0 0%nat (set_terrainMeshes [stub 0] (newTerrain 42))).
  - vm_compute. discriminate.
  - discriminate.
  - vm_compute. reflexivity.
  - constructor; [|constructor]. eexists. split; [reflexivity | discriminate].
  - vm_compute. discriminate.
  - vm_compute. reflexivity.
Defined.

(** ** What the smoothing pass keeps *)

Lemma fmap_pt_x_writeBack points k : pt_x <$> writeBack points k = pt_x <$> points.
Proof.
  unfold writeBack. destruct (points !! k) as [validPoint|]; [|reflexivity].
  destruct (list_find _ points) as [[j originalPoint]|] eqn:Hfind; [|reflexivity].
  destruct (pt_height originalPoint); [|reflexivity].
  apply list_find_Some in Hfind as (Hj & _ & _).
  rewrite list_fmap_insert. cbn [pt_x]. apply list_insert_id.
  rewrite list_lookup_fmap, Hj. reflexivity.
Qed.

Lemma fmap_pt_x_foldl_writeBack ks : forall points,
  pt_x <$> foldl writeBack points ks = pt_x <$> points.
Proof.
  induction ks as [|k ks IH]; intros points; [reflexivity|].
  cbn [foldl]. rewrite IH. apply fmap_pt_x_writeBack.
Qed.

Lemma fmap_pt_x_smoothSegmentPoints points :
  pt_x <$> smoothSegmentPoints points = pt_x <$> points.
Proof.
  destruct (decide (5 ≤ length (validFrom 0 points))%nat) as [Hn|Hn].
  - rewrite smoothSegmentPoints_unfold by exact Hn.
    rewrite fmap_pt_x_foldl_writeBack. apply foldl_updateAt_fmap.
    intros i p. reflexivity.
  - rewrite smoothSegmentPoints_short by lia. reflexivity.
Qed.

(** X21: the smoothing pass never adds, drops or moves a sample: the array
    keeps its length and every [x]; a sample without ground comes out as it
    went in; with fewer than five samples with ground nothing changes at
    all; otherwise (the [x] being distinct) every sample with ground comes
    out with its [height] equal to its [y]. *)
Theorem smoothSegmentPoints_keeps_skeleton (points : list SamplePoint) :
  length (smoothSegmentPoints points) = length points
  ∧ pt_x <$> smoothSegmentPoints points = pt_x <$> points
  ∧ (forall j p, points !! j = Some p -> pt_height p = None ->
       smoothSegmentPoints points !! j = Some p)
  ∧ ((length (validFrom 0 points) < 5)%nat -> smoothSegmentPoints points = points)
  ∧ ((5 ≤ length (validFrom 0 points))%nat -> NoDup (pt_x <$> points) ->
     forall j p, points !! j = Some p -> is_Some (pt_height p) ->
       exists p', smoothSegmentPoints points !! j = Some p'
                  ∧ pt_x p' = pt_x p ∧ pt_height p' = pt_y p').
Proof.
  split; [apply length_smoothSegmentPoints|].
  split; [apply fmap_pt_x_smoothSegmentPoints|].
  split; [apply smoothSegmentPoints_gap|].
  split; [apply smoothSegmentPoints_short|].
  intros Hn Hnodup j p Hj Hh.
  assert (Hin : j ∈ validFrom 0 points) by (apply valid_elem; eauto).
  apply list_elem_of_lookup_1 in Hin as [i Hi].
  rewrite (smoothSegmentPoints_valid points i j p Hnodup Hn Hi Hj).
  eexists. split; [reflexivity|]. case_bool_decide; cbn; auto.
Qed.

Lemma smoothSegmentPoints_keeps_skeleton_witness :
  smoothSegmentPoints (profile [Some 1; None; Some (num 3)])
  = profile [Some 1; None; Some (num 3)].
Proof.
  apply (smoothSegmentPoints_keeps_skeleton (profile [Some 1; None; Some (num 3)])).
  vm_compute. lia.
Defined.

(** ** Where decorations are anchored *)

Lemma availableFrom_elem (points : list SamplePoint) : forall (i len : nat) (p : SamplePoint),
  p ∈ availableFrom i len points
  <-> exists j, points !! j = Some p ∧ (2 < i + j)%nat ∧ (i + j + 3 < len)%nat
                ∧ is_Some (pt_height p).
Proof.
  induction points as [|q points IH]; intros i len p; cbn [availableFrom].
  - split; [intros Hin; apply elem_of_nil in Hin; contradiction|].
    intros (j & Hj & _). discriminate.
  - assert (Hrest : p ∈ availableFrom (S i) len points
                    <-> exists j, (q :: points) !! S j = Some p ∧ (2 < i + S j)%nat
                          ∧ (i + S j + 3 < len)%nat ∧ is_Some (pt_height p)).
    { rewrite IH. split; intros (j & Hj & H1 & H2 & H3); exists j;
        (split; [exact Hj|]); (split; [lia|]); (split; [lia | exact H3]). }
    destruct (bool_decide (2 < i)%nat && bool_decide (i + 3 < len)%nat
              && bool_decide (is_Some (pt_height q))) eqn:Hkeep.
    + apply andb_prop in Hkeep as [Hkeep H3]. apply andb_prop in Hkeep as [H1 H2].
      apply bool_decide_eq_true_1 in H1, H2, H3.
      rewrite elem_of_cons, Hrest. split.
      * intros [-> | (j & Hj)]; [|eauto].
        exists 0%nat. split; [reflexivity|]. split; [lia|]. split; [lia | exact H3].
      * intros ([|j] & Hj & Hr); [left; injection Hj as <-; reflexivity | right; eauto].
    + rewrite Hrest. split; [intros (j & Hj); eauto|].
      intros ([|j] & Hj & H1 & H2 & H3); [|eauto].
      exfalso. injection Hj as ->.
      rewrite !bool_decide_eq_true_2 in Hkeep by (first [exact H3 | lia]). discriminate.
Qed.

Lemma scaledIndex_in_range (r : Qc) (n : nat) :
  0 ≤ r -> r < 1 -> (0 < n)%nat ->
  (0 ≤ Math_floor (r * ofZ (Z.of_nat n)) < Z.of_nat n)%Z.
Proof.
  intros H0 H1 Hn.
  assert (HL : (0 < inject_Z (Z.of_nat n))%Q).
  { change 0%Q with (inject_Z 0). rewrite <- Zlt_Qlt. lia. }
  split.
  - apply floor_ge. rewrite ofZ_0. qc_poly.
    apply Qmult_le_0_compat; lra.
  - apply floor_lt. qc_poly.
    set (L := inject_Z (Z.of_nat n)) in *. clearbody L.
    assert (0 < (1 - this r) * L)%Q by (apply Qmult_lt_0_compat; lra). lra.
Qed.

(** X22: [getRandomPoint] answers [null] without a draw when no sample is
    available.  Otherwise, from a non-negative seed, it spends one draw of
    the seeded generator, calls no collaborator, and answers a sample of the
    segment that has ground and lies more than two samples away from both
    ends. *)
Theorem getRandomPoint_anchor {W : Type}
    (points : list SamplePoint) (w : W) (t : Terrain) :
  (availablePoints points = [] ->
   getRandomPoint (availablePoints points) w t = (None, w, t))
  ∧ (availablePoints points ≠ [] -> (0 ≤ seed t)%Z ->
     exists (j : nat) (p : SamplePoint),
       getRandomPoint (availablePoints points) w t = (Some p, w, exec seededRandom t)
       ∧ points !! j = Some p ∧ (2 < j)%nat ∧ (j + 3 < length points)%nat
       ∧ is_Some (pt_height p)).
Proof.
  unfold getRandomPoint. split.
  - intros ->. reflexivity.
  - intros Hne Hseed. set (available := availablePoints points) in *.
    assert (Hlen : (0 < length available)%nat)
      by (destruct available; [contradiction | cbn; lia]).
    rewrite bool_decide_eq_false_2 by lia.
    rewrite E_bind_eq, liftM_eq. cbn [fst snd mret E_ret].
    destruct (unit_fraction (Z.rem (seed t * 9301 + 49297) 233280)) as [Hr0 Hr1];
      [apply Z.rem_bound_pos; lia|].
    change (ofZ (Z.rem (seed t * 9301 + 49297) 233280) / num 233280)
      with (seededRandom t).1 in Hr0, Hr1.
    destruct (scaledIndex_in_range _ _ Hr0 Hr1 Hlen) as [Hi0 Hi1].
    unfold at_index. rewrite bool_decide_eq_true_2 by exact Hi0.
    destruct (lookup_lt_is_Some_2 available
                (Z.to_nat (Math_floor ((seededRandom t).1 * ofZ (Z.of_nat (length available))))))
      as [p Hp]; [lia|].
    rewrite Hp.
    assert (Hin : p ∈ availableFrom 0 (length points) points)
      by (eapply list_elem_of_lookup_2; exact Hp).
    apply availableFrom_elem in Hin as (j & Hj & H1 & H2 & H3).
    exists j, p. split; [reflexivity|]. auto.
Qed.

Lemma getRandomPoint_anchor_witness :
  let points := profile [Some 1; Some 1; Some 1; Some (num 2); Some 1; Some 1; Some 1] in
  exists (j : nat) (p : SamplePoint),
    getRandomPoint (W := nat) (availablePoints points) 0%nat (newTerrain 42)
    = (Some p, 0%nat, exec seededRandom (newTerrain 42))
    ∧ points !! j = Some p ∧ (2 < j)%nat ∧ (j + 3 < length points)%nat
    ∧ is_Some (pt_height p).
Proof.
  intros points.
  apply (getRandomPoint_anchor (W := nat) points 0%nat (newTerrain 42)).
  - vm_compute. discriminate.
  - vm_compute. discriminate.
Defined.

(** ** The void of a gap and the profile of a ramp *)

Lemma gapWidth_range (difficulty : Qc) :
  0 ≤ difficulty ->
  num 3 ≤ Math_min (num 3 + Math_min (difficulty * num 0.7) (num 0.6) * num 2) (num 5.0)
  ∧ Math_min (num 3 + Math_min (difficulty * num 0.7) (num 0.6) * num 2) (num 5.0) ≤ num 4.2.
Proof.
  intros Hd. unfold Math_min.
  repeat case_bool_decide; split; qc_poly; lra.
Qed.

(** X23: on a span with [startX ≤ endX], [generateGap] answers [null]
    exactly for [gapStart ≤ x < gapEnd], a window centred on the middle of
    the span and, for a non-negative difficulty, between 3 and 4.2 wide;
    everywhere else it answers a number.  It never changes the state. *)
Theorem generateGap_void_window `{JSMath} (x startX endX difficulty : Qc) (t : Terrain) :
  startX ≤ endX ->
  (eval (generateGap x startX endX difficulty) t = None
   <-> gapStart startX endX difficulty ≤ x ∧ x < gapEnd startX endX difficulty)
  ∧ gapStart startX endX difficulty + gapEnd startX endX difficulty = startX + endX
  ∧ (0 ≤ difficulty ->
     num 3 ≤ gapEnd startX endX difficulty - gapStart startX endX difficulty
     ∧ gapEnd startX endX difficulty - gapStart startX endX difficulty ≤ num 4.2)
  ∧ exec (generateGap x startX endX difficulty) t = t.
Proof.
  intros Hspan. split; [|split; [|split]].
  - unfold eval, generateGap. cbv zeta.
    set (gs := gapStart startX endX difficulty).
    set (ge := gapEnd startX endX difficulty).
    assert (Htl : 0 ≤ (endX - startX) * num 0.15) by (qc_poly; lra).
    set (tl := (endX - startX) * num 0.15) in *. clearbody tl gs ge.
    repeat case_bool_decide; rewrite ?M_bind_eq; cbn [mret M_ret fst];
      (split; [try discriminate; intros _ | try (intros _; reflexivity); intros [Hlo Hhi]]);
      try (exfalso; qc_poly; lra);
      try (split; qc_poly; lra).
  - unfold gapStart, gapEnd. cbv zeta.
    set (w := Math_min _ (num 5.0)). clearbody w. qc_poly. field.
  - intros Hd. destruct (gapWidth_range difficulty Hd) as [Hlo Hhi].
    unfold gapStart, gapEnd. cbv zeta.
    set (w := Math_min _ (num 5.0)) in *. clearbody w. split; qc_poly; lra.
  - apply readonly_generateGap.
Qed.

Lemma generateGap_void_window_witness :
  eval (generateGap (H := approxMath) (num 20) 0 (num 40) (num 0.5)) (newTerrain 42) = None.
Proof.
  apply (generateGap_void_window (H := approxMath) (num 20) 0 (num 40) (num 0.5)
           (newTerrain 42)).
  - vm_compute. discriminate.
  - split; vm_compute; [discriminate | reflexivity].
Defined.

Lemma rampHeight_range (difficulty : Qc) :
  0 ≤ difficulty -> num 3 ≤ rampHeight difficulty ∧ rampHeight difficulty ≤ num 3.9.
Proof.
  intros Hd. unfold rampHeight, Math_min.
  repeat case_bool_decide; split; qc_poly; lra.
Qed.

Lemma generateHills_run `{JSMath} x startX endX d (t : Terrain) :
  generateHills x startX endX d t = (eval (generateHills x startX endX d) t, t).
Proof. apply readonly_run, readonly_generateHills. Qed.

Lemma bezierInterpolation_reverse (t p0 p1 p2 p3 : Qc) :
  bezierInterpolation t p0 p1 p2 p3 = bezierInterpolation (1 - t) p3 p2 p1 p0.
Proof. unfold bezierInterpolation. qc_poly. ring. Qed.

(** The value of [generateRamp] on the two slopes. *)
Lemma generateRamp_on_ramp `{JSMath} (x startX endX difficulty : Qc) (t : Terrain) :
  rampStart startX endX ≤ x -> x < rampEnd startX endX ->
  let base := eval (generateHills (rampStart startX endX) startX (rampStart startX endX)
                      (Math_min (difficulty * num 0.7) (num 0.6) * num 0.3)) t in
  let h := rampHeight difficulty in
  eval (generateRamp x startX endX difficulty) t
  = if bool_decide (x < rampPeak startX endX) then
      bezierInterpolation
        ((x - rampStart startX endX) / (rampPeak startX endX - rampStart startX endX))
        base (base + h * num 0.3) (base + h * num 0.7) (base + h)
    else
      bezierInterpolation
        ((x - rampPeak startX endX) / (rampEnd startX endX - rampPeak startX endX))
        (base + h) (base + h - h * num 0.3) (base + h - h * num 0.7) base.
Proof.
  intros Hlo Hhi base h. subst base h.
  unfold rampStart, rampEnd, rampPeak, rampHeight in *.
  unfold eval, generateRamp. cbv zeta.
  rewrite (bool_decide_eq_false_2 (x < _ - _)) by (apply Qcle_not_lt; exact Hlo).
  case_bool_decide.
  - rewrite M_bind_eq, generateHills_run. reflexivity.
  - rewrite (bool_decide_eq_true_2 (x < _ + _)) by exact Hhi.
    rewrite M_bind_eq, generateHills_run. reflexivity.
Qed.

(** X24: on a span with [startX < endX] and a non-negative difficulty, the
    ramp of [generateRamp] starts at the hills height [base] of its foot,
    peaks at exactly [base + rampHeight] in the middle of the span, with
    [rampHeight] between 3 and 3.9, stays between [base] and the peak on
    both slopes, and its two slopes mirror each other about the middle. *)
Theorem generateRamp_profile `{JSMath} (x startX endX difficulty : Qc) (t : Terrain) :
  startX < endX -> 0 ≤ difficulty ->
  let base := eval (generateHills (rampStart startX endX) startX (rampStart startX endX)
                      (Math_min (difficulty * num 0.7) (num 0.6) * num 0.3)) t in
  let ramp := fun x => eval (generateRamp x startX endX difficulty) t in
  ramp (rampStart startX endX) = base
  ∧ ramp (rampPeak startX endX) = base + rampHeight difficulty
  ∧ num 3 ≤ rampHeight difficulty ∧ rampHeight difficulty ≤ num 3.9
  ∧ (rampStart startX endX ≤ x -> x < rampEnd startX endX ->
     base ≤ ramp x ∧ ramp x ≤ base + rampHeight difficulty)
  ∧ (rampStart startX endX < x -> x < rampPeak startX endX ->
     ramp (rampPeak startX endX + (rampPeak startX endX - x)) = ramp x).
Proof.
  intros Hspan Hd base ramp.
  destruct (rampHeight_range difficulty Hd) as [Hh3 Hh4].
  assert (Hhalf : rampPeak startX endX - rampStart startX endX
                  = (endX - startX) * num 0.3).
  { unfold rampPeak, rampStart. qc_poly. field. }
  assert (Hhalf' : rampEnd startX endX - rampPeak startX endX
                   = (endX - startX) * num 0.3).
  { unfold rampPeak, rampEnd. qc_poly. field. }
  assert (Hpos : 0 < (endX - startX) * num 0.3) by (qc_poly; lra).
  assert (Hnz : (endX - startX) * num 0.3 ≠ 0).
  { intros Hz. rewrite Hz in Hpos. exact (Qclt_not_le _ _ Hpos (Qcle_refl 0)). }
  assert (Hsp : rampStart startX endX < rampPeak startX endX).
  { rewrite <- Hhalf in Hpos. qc_poly. lra. }
  assert (Hpe : rampPeak startX endX < rampEnd startX endX).
  { rewrite <- Hhalf' in Hpos. qc_poly. lra. }
  split; [|split; [|split; [exact Hh3 | split; [exact Hh4 | split]]]].
  - unfold ramp. rewrite generateRamp_on_ramp;
      [|apply Qcle_refl | eapply Qclt_trans; eassumption].
    cbv zeta. rewrite bool_decide_eq_true_2 by exact Hsp.
    replace ((rampStart startX endX - rampStart startX endX)
             / (rampPeak startX endX - rampStart startX endX)) with 0
      by (unfold Qcdiv; ring).
    exact (proj1 (bezierInterpolation_ends _ _ _ _)).
  - unfold ramp. rewrite generateRamp_on_ramp;
      [|apply Qclt_le_weak; exact Hsp | exact Hpe].
    cbv zeta. rewrite bool_decide_eq_false_2
      by (apply Qcle_not_lt, Qcle_refl).
    replace ((rampPeak startX endX - rampPeak startX endX)
             / (rampEnd startX endX - rampPeak startX endX)) with 0
      by (unfold Qcdiv; ring).
    exact (proj1 (bezierInterpolation_ends _ _ _ _)).
  - intros Hlo Hhi. unfold ramp. rewrite generateRamp_on_ramp by assumption.
    cbv zeta. set (h := rampHeight difficulty) in *. clearbody h. fold base.
    set (b := base). clearbody b.
    case_bool_decide as Hside.
    + destruct (Qc_div_unit (x - rampStart startX endX)
                  (rampPeak startX endX - rampStart startX endX)) as [Ht0 Ht1];
        [qc_poly; lra | qc_poly; lra | rewrite Hhalf; exact Hpos |].
      apply bezierInterpolation_hull; try assumption; qc_poly; lra.
    + apply Qcnot_lt_le in Hside.
      destruct (Qc_div_unit (x - rampPeak startX endX)
                  (rampEnd startX endX - rampPeak startX endX)) as [Ht0 Ht1];
        [qc_poly; lra | qc_poly; lra | rewrite Hhalf'; exact Hpos |].
      apply bezierInterpolation_hull; try assumption; qc_poly; lra.
  - intros Hlo Hhi. unfold ramp.
    assert (HE : rampEnd startX endX = rampPeak startX endX + (endX - startX) * num 0.3)
      by (rewrite <- Hhalf'; ring).
    assert (HS : rampStart startX endX = rampPeak startX endX - (endX - startX) * num 0.3)
      by (rewrite <- Hhalf; ring).
    rewrite (generateRamp_on_ramp x);
      [|apply Qclt_le_weak; exact Hlo | eapply Qclt_trans; eassumption].
    rewrite (generateRamp_on_ramp (rampPeak startX endX + (rampPeak startX endX - x))).
    2: { rewrite HS in *. set (P := rampPeak startX endX) in *.
         set (w := (endX - startX) * num 0.3) in *. clearbody P w. qc_poly. lra. }
    2: { rewrite HS, HE in *. set (P := rampPeak startX endX) in *.
         set (w := (endX - startX) * num 0.3) in *. clearbody P w. qc_poly. lra. }
    cbv zeta. rewrite (bool_decide_eq_true_2 (x < rampPeak startX endX)) by exact Hhi.
    rewrite bool_decide_eq_false_2.
    2: { apply Qcle_not_lt. set (P := rampPeak startX endX) in *. clearbody P.
         qc_poly. lra. }
    rewrite Hhalf, Hhalf'. rewrite bezierInterpolation_reverse.
    set (h := rampHeight difficulty) in *. fold base. clearbody base h.
    f_equal.
    + rewrite HS. set (P := rampPeak startX endX). set (w := (endX - startX) * num 0.3) in *.
      field. exact Hnz.
    + qc_poly. ring.
    + qc_poly. ring.
Qed.

Lemma generateRamp_profile_witness :
  eval (generateRamp (H := approxMath) (rampPeak 0 (num 40)) 0 (num 40) (num 0.5))
       (newTerrain 42)
  = eval (generateHills (H := approxMath) (rampStart 0 (num 40)) 0 (rampStart 0 (num 40))
            (Math_min (num 0.5 * num 0.7) (num 0.6) * num 0.3)) (newTerrain 42)
    + rampHeight (num 0.5).
Proof.
  apply (generateRamp_profile (H := approxMath) (num 20) 0 (num 40) (num 0.5)
           (newTerrain 42)).
  - vm_compute. reflexivity.
  - vm_compute. discriminate.
Defined.

(** ** Object pools *)

Lemma lookupPool_assignPool name pool pools :
  Pools.lookupPool name (Pools.assignPool name pool pools) = Some pool.
Proof.
  induction pools as [|[key old] rest IH]; cbn.
  - rewrite String.eqb_refl. reflexivity.
  - destruct (String.eqb key name) eqn:Hk; cbn; rewrite Hk; [reflexivity | exact IH].
Qed.

Lemma lookupPool_assignPool_other name other pool pools :
  other ≠ name ->
  Pools.lookupPool other (Pools.assignPool name pool pools) = Pools.lookupPool other pools.
Proof.
  intros Hne. induction pools as [|[key old] rest IH]; cbn.
  - destruct (String.eqb name other) eqn:Hk; [|reflexivity].
    apply String.eqb_eq in Hk. congruence.
  - destruct (String.eqb key name) eqn:Hk; cbn.
    + apply String.eqb_eq in Hk. subst key.
      destruct (String.eqb name other) eqn:Hk'; [|reflexivity].
      apply String.eqb_eq in Hk'. congruence.
    + destruct (String.eqb key other); [reflexivity | exact IH].
Qed.

Lemma assignPool_back name pool other pools :
  Pools.lookupPool name pools = Some pool ->
  Pools.assignPool name pool (Pools.assignPool name other pools) = pools.
Proof.
  induction pools as [|[key old] rest IH]; cbn; [discriminate|].
  destruct (String.eqb key name) eqn:Hk; cbn; rewrite Hk.
  - intros Hp. injection Hp as ->. reflexivity.
  - intros Hp. rewrite (IH Hp). reflexivity.
Qed.

(** X25: an object returned to an existing pool comes back at the next
    [getFromPool] on that pool, hidden ([visible = false]); the pools are
    then exactly what they were before the return, [createFunc] has not been
    called and nothing has been logged. *)
Theorem getFromPool_after_returnToPool `{Collaborators W}
    (poolName : String.string) (object : Pools.PoolObject)
    (createFunc : W -> Pools.PoolObject * W)
    (pools : list (String.string * Pools.Pool)) (pool : Pools.Pool) (w : W) :
  Pools.lookupPool poolName pools = Some pool ->
  let returned := Pools.returnToPool poolName object (Some pools) w in
  Pools.lookupPool poolName (default [] returned.1) = Some (pool ++ [Pools.hidden object])
  ∧ Pools.getFromPool poolName createFunc returned.1 returned.2
    = (Pools.hidden object, Some pools, w).
Proof.
  intros Hpool returned. subst returned. unfold Pools.returnToPool.
  cbn [mbind option_bind]. rewrite Hpool. cbn -[Pools.lookupPool Pools.assignPool].
  rewrite lookupPool_assignPool. split; [reflexivity|].
  unfold Pools.getFromPool. cbn [mbind option_bind]. rewrite lookupPool_assignPool.
  rewrite last_snoc, removelast_last. cbn -[Pools.lookupPool Pools.assignPool].
  rewrite (assignPool_back poolName pool _ pools Hpool). reflexivity.
Qed.

Lemma getFromPool_after_returnToPool_witness :
  let pools := [(Pools.DECORATION_ROCK, [ {| Pools.handle := 1; Pools.visible := false |} ]);
                (Pools.DECORATION_TREE, [])] in
  let returned :=
    Pools.returnToPool (H := busyWorld) Pools.DECORATION_TREE
      {| Pools.handle := 7; Pools.visible := true |} (Some pools) 0%nat in
  Pools.getFromPool (H := busyWorld) Pools.DECORATION_TREE
    (fun n => ({| Pools.handle := n; Pools.visible := true |}, S n)) returned.1 returned.2
  = ({| Pools.handle := 7; Pools.visible := false |}, Some pools, 0%nat).
Proof.
  intros pools returned.
  apply (getFromPool_after_returnToPool (H := busyWorld) Pools.DECORATION_TREE
           {| Pools.handle := 7; Pools.visible := true |}
           (fun n => ({| Pools.handle := n; Pools.visible := true |}, S n)) pools [] 0%nat).
  reflexivity.
Defined.

(** X26: on a pool that does not exist ([objectPools] undefined, or without
    that key) [returnToPool] only warns: the object is dropped and stays
    visible, the pools are unchanged.  [getFromPool] warns, creates the
    pool, empty, beside the others, and answers a new object from
    [createFunc], so a dropped object is never handed out. *)
Theorem pool_missing `{Collaborators W}
    (poolName : String.string) (object : Pools.PoolObject)
    (createFunc : W -> Pools.PoolObject * W) (objectPools : Pools.ObjectPools) (w : W) :
  objectPools ≫= Pools.lookupPool poolName = None ->
  let warned := (answer ConsoleWarn w).2 in
  Pools.returnToPool poolName object objectPools w = (objectPools, warned)
  ∧ (Pools.getFromPool poolName createFunc objectPools w).1.1 = (createFunc warned).1
  ∧ (Pools.getFromPool poolName createFunc objectPools w).2 = (createFunc warned).2
  ∧ exists pools,
      (Pools.getFromPool poolName createFunc objectPools w).1.2 = Some pools
      ∧ Pools.lookupPool poolName pools = Some []
      ∧ forall other, other ≠ poolName ->
          Pools.lookupPool other pools = objectPools ≫= Pools.lookupPool other.
Proof.
  intros Hmissing warned. unfold Pools.returnToPool, Pools.getFromPool.
  unfold Pools.ObjectPools, Pools.Pool in *. rewrite Hmissing.
  split; [reflexivity|]. fold warned.
  destruct (createFunc warned) as [newObject w'] eqn:Hcreate. cbn [fst snd].
  split; [reflexivity|]. split; [reflexivity|].
  eexists. split; [reflexivity|]. split; [apply lookupPool_assignPool|].
  intros other Hne. rewrite lookupPool_assignPool_other by exact Hne.
  destruct objectPools; reflexivity.
Qed.

Lemma pool_missing_witness :
  Pools.returnToPool (H := busyWorld) Pools.DECORATION_SIGN
    {| Pools.handle := 7; Pools.visible := true |} None 0%nat
  = (None, 1%nat).
Proof.
  apply (pool_missing (H := busyWorld) Pools.DECORATION_SIGN
           {| Pools.handle := 7; Pools.visible := true |}
           (fun n => ({| Pools.handle := n; Pools.visible := true |}, S n)) None 0%nat).
  reflexivity.
Defined.

(** ** The single-mesh builder *)

Lemma keeps_terrain_liftM {W A} (m : M A) : readonly m -> keeps_terrain (W := W) (liftM m).
Proof. intros Hm w t. rewrite liftM_eq. cbn [snd]. apply Hm. Qed.

Lemma keeps_terrain_call `{Classic.World W} (c : Classic.Call) :
  keeps_terrain (Classic.call c).
Proof. intros w t. reflexivity. Qed.

#[local] Hint Resolve keeps_terrain_call : terrain.

Lemma keeps_terrain_Classic_createPhysicsSegment `{Classic.World W} points :
  keeps_terrain (Classic.createPhysicsSegment points).
Proof. unfold Classic.createPhysicsSegment. terrain_tac. Qed.

Lemma keeps_terrain_physicsAroundGaps `{Classic.World W} points ranges :
  forall start, keeps_terrain (Classic.physicsAroundGaps points ranges start).
Proof.
  induction ranges as [|[s e] ranges IH]; intros start; cbn [Classic.physicsAroundGaps].
  - apply keeps_terrain_ret.
  - apply keeps_terrain_bind;
      [apply keeps_terrain_when, keeps_terrain_Classic_createPhysicsSegment|].
    intros _. apply keeps_terrain_bind; [|intros _; apply IH].
    unfold Classic.createBottomBarrier. terrain_tac.
Qed.

Lemma keeps_terrain_createPhysics `{Classic.World W} points :
  keeps_terrain (Classic.createPhysics points).
Proof.
  unfold Classic.createPhysics.
  apply keeps_terrain_bind; [apply keeps_terrain_physicsAroundGaps|]. intros start.
  apply keeps_terrain_bind;
    [|intros _]; apply keeps_terrain_when, keeps_terrain_Classic_createPhysicsSegment.
Qed.

Lemma keeps_terrain_addDecoration `{JSMath} `{Classic.World W} startX c :
  keeps_terrain (Classic.addDecoration startX c).
Proof.
  unfold Classic.addDecoration.
  destruct c; try apply keeps_terrain_ret;
    (apply keeps_terrain_bind;
     [apply keeps_terrain_liftM, readonly_getTerrainHeightAt
     | intros; apply keeps_terrain_call]).
Qed.

Lemma readonly_Classic_samplePoint `{JSMath} c startX prev i :
  readonly (Classic.samplePoint c startX prev i).
Proof.
  unfold Classic.samplePoint. apply readonly_bind; [|intros; apply readonly_ret].
  assert (Hgen : readonly
            match c with
            | hills =>
                y ← generateHills (startX + ofZ (Z.of_nat i)
                                            / ofZ (Z.of_nat Classic.nbPoints - 1) * segmentWidth)
                      startX (startX + segmentWidth) (Classic.difficultyOf startX);
                mret (Some y, false)
            | plateau =>
                y ← generatePlateau (startX + ofZ (Z.of_nat i)
                                              / ofZ (Z.of_nat Classic.nbPoints - 1) * segmentWidth)
                      startX (startX + segmentWidth) (Classic.difficultyOf startX);
                mret (Some y, false)
            | ramp =>
                y ← generateRamp (startX + ofZ (Z.of_nat i)
                                           / ofZ (Z.of_nat Classic.nbPoints - 1) * segmentWidth)
                      startX (startX + segmentWidth) (Classic.difficultyOf startX);
                mret (Some y, false)
            | gap =>
                y ← generateGap (startX + ofZ (Z.of_nat i)
                                          / ofZ (Z.of_nat Classic.nbPoints - 1) * segmentWidth)
                      startX (startX + segmentWidth) (Classic.difficultyOf startX);
                mret (y, bool_decide (y = None))
            | washboard =>
                y ← generateWashboard (startX + ofZ (Z.of_nat i)
                                                / ofZ (Z.of_nat Classic.nbPoints - 1) * segmentWidth)
                      startX (startX + segmentWidth) (Classic.difficultyOf startX);
                mret (Some y, false)
            | valley =>
                y ← generateValley (startX + ofZ (Z.of_nat i)
                                             / ofZ (Z.of_nat Classic.nbPoints - 1) * segmentWidth)
                      startX (startX + segmentWidth) (Classic.difficultyOf startX);
                mret (Some y, false)
            end).
  { destruct c; (apply readonly_bind; [|intros; apply readonly_ret]).
    - apply readonly_generateHills.
    - apply readonly_generatePlateau.
    - apply readonly_generateRamp.
    - apply readonly_generateGap.
    - apply readonly_generateWashboard.
    - apply readonly_generateValley. }
  destruct i as [|i], prev as [prev|]; first [apply readonly_ret | exact Hgen].
Qed.

Lemma readonly_Classic_buildPoints `{JSMath} c startX prev :
  readonly (Classic.buildPoints c startX prev).
Proof.
  unfold Classic.buildPoints. apply readonly_bind; [|intros; apply readonly_ret].
  apply readonly_mapM. intros i. apply readonly_Classic_samplePoint.
Qed.

(** The segment the single-mesh builder stores. *)
Lemma Classic_createTerrainSegment_run `{JSMath} `{Classic.World W}
    (startX : Qc) (w : W) (t : Terrain) (previous : option Qc) :
  Classic.previousEndHeight startX (terrainMeshes t) = Some previous ->
  exists w',
    Classic.createTerrainSegment startX w t
    = (Some tt, w',
       push {| startX := startX;
               points := Some (eval (Classic.buildPoints
                                       (eval (selectChunkType (Classic.difficultyOf startX)) t)
                                       startX previous)
                                    (exec (selectChunkType (Classic.difficultyOf startX)) t));
               chunkType := eval (selectChunkType (Classic.difficultyOf startX)) t |}
            (exec (selectChunkType (Classic.difficultyOf startX)) t)).
Proof.
  intros Hprev. unfold Classic.createTerrainSegment, eval, exec.
  pose proof (selectChunkType_store (Classic.difficultyOf startX) t) as Hsc.
  unfold mbind at 1. unfold E_bind at 1. unfold liftM at 1.
  destruct (selectChunkType (Classic.difficultyOf startX) t) as [c t1]. cbn [fst snd] in *.
  unfold mbind at 1. unfold E_bind at 1. unfold liftM at 1. cbn [gets].
  rewrite Hsc, Hprev.
  unfold mbind at 1. unfold E_bind at 1. unfold liftM at 1.
  pose proof (readonly_Classic_buildPoints c startX previous t1) as Hro.
  destruct (Classic.buildPoints c startX previous t1) as [pts t2]. cbn [fst snd] in *.
  subst t2.
  unfold mbind at 1. unfold E_bind at 1. unfold Classic.call at 1.
  unfold mbind at 1. unfold E_bind at 1.
  match goal with |- context [Classic.createPhysics pts ?w0 t1] =>
    pose proof (keeps_terrain_createPhysics pts w0 t1) as Hphys;
    destruct (Classic.createPhysics pts w0 t1) as [[? wp] t3] end.
  cbn [fst snd] in Hphys. subst t3.
  unfold mbind at 1. unfold E_bind at 1.
  pose proof (keeps_terrain_addDecoration startX c wp t1) as Hdeco.
  destruct (Classic.addDecoration startX c wp t1) as [[? wd] t4].
  cbn [fst snd] in Hdeco. subst t4.
  unfold mbind at 1. unfold E_bind at 1. unfold liftM at 1.
  cbn [fst snd modify mret E_ret].
  eexists. reflexivity.
Qed.

(** *** The join of the single-mesh builder *)

Lemma Classic_samplePoint_x `{JSMath} c startX prev i t :
  pt_x (Classic.samplePoint c startX prev i t).1
  = startX + ofZ (Z.of_nat i) / ofZ 49 * segmentWidth.
Proof. unfold Classic.samplePoint. rewrite M_bind_eq. reflexivity. Qed.

Lemma Classic_grid_inj (startX : Qc) (i j : nat) :
  startX + ofZ (Z.of_nat i) / ofZ 49 * segmentWidth
  = startX + ofZ (Z.of_nat j) / ofZ 49 * segmentWidth -> i = j.
Proof.
  intros Heq. apply (inj (Qcplus startX)) in Heq.
  assert (Hij : ofZ (Z.of_nat i) = ofZ (Z.of_nat j)).
  { assert (Hc : forall a : Qc, a / ofZ 49 * segmentWidth * num (49 # 40) = a).
    { intros a. apply Qc_is_canon. unfold segmentWidth. push_this.
      change (inject_Z 49) with 49%Q. field. }
    rewrite <- (Hc (ofZ (Z.of_nat i))), Heq, Hc. reflexivity. }
  apply (f_equal this) in Hij. rewrite !this_ofZ in Hij.
  apply (f_equal Qnum) in Hij. simpl in Hij. lia.
Qed.

Lemma Classic_rawPoints_lookup `{JSMath} c startX prev t i :
  (i < Classic.nbPoints)%nat ->
  (mapM (Classic.samplePoint c startX prev) (seq 0 Classic.nbPoints) t).1 !! i
  = Some (Classic.samplePoint c startX prev i t).1.
Proof.
  intros Hi. apply mapM_readonly_lookup.
  - intros a. apply readonly_Classic_samplePoint.
  - apply lookup_seq. split; [reflexivity | exact Hi].
Qed.

Lemma Classic_rawPoints_NoDup `{JSMath} c startX prev t :
  NoDup (pt_x <$> (mapM (Classic.samplePoint c startX prev) (seq 0 Classic.nbPoints) t).1).
Proof.
  apply NoDup_alt. intros i j x Hi Hj.
  rewrite list_lookup_fmap in Hi, Hj.
  assert (Hlen := length_mapM (Classic.samplePoint c startX prev)
                    (seq 0 Classic.nbPoints) t).
  rewrite length_seq in Hlen.
  assert (Hi' : (i < Classic.nbPoints)%nat).
  { rewrite <- Hlen. apply lookup_lt_is_Some. destruct (_ !! i); [eauto | discriminate]. }
  assert (Hj' : (j < Classic.nbPoints)%nat).
  { rewrite <- Hlen. apply lookup_lt_is_Some. destruct (_ !! j); [eauto | discriminate]. }
  rewrite Classic_rawPoints_lookup in Hi, Hj by assumption.
  simpl in Hi, Hj. rewrite Classic_samplePoint_x in Hi, Hj.
  apply (Classic_grid_inj startX). congruence.
Qed.

(** The first sample is the height handed over, whatever the shape. *)
Lemma Classic_samplePoint_first `{JSMath} c startX h t :
  (Classic.samplePoint c startX (Some h) 0 t).1
  = {| pt_x := startX + ofZ 0 / ofZ 49 * segmentWidth;
       pt_y := Some h; pt_height := Some h |}.
Proof. unfold Classic.samplePoint. rewrite M_bind_eq. reflexivity. Qed.

Lemma Classic_buildPoints_first `{JSMath} c startX h t :
  eval (Classic.buildPoints c startX (Some h)) t !! 0%nat
  = Some {| pt_x := startX; pt_y := Some h; pt_height := Some h |}.
Proof.
  unfold eval, Classic.buildPoints. rewrite M_bind_eq. cbn [mret M_ret fst].
  set (raw := (mapM (Classic.samplePoint c startX (Some h)) (seq 0 Classic.nbPoints) t).1).
  assert (Hx0 : startX + ofZ 0 / ofZ 49 * segmentWidth = startX).
  { apply Qc_is_canon. unfold segmentWidth. push_this.
    change (inject_Z 49) with 49%Q. change (inject_Z 0) with 0%Q. field. }
  assert (Hraw : raw !! 0%nat
                 = Some {| pt_x := startX; pt_y := Some h; pt_height := Some h |}).
  { unfold raw. rewrite Classic_rawPoints_lookup by (unfold Classic.nbPoints; lia).
    rewrite Classic_samplePoint_first, Hx0. reflexivity. }
  pose proof (Classic_rawPoints_NoDup c startX (Some h) t) as Hnodup. fold raw in Hnodup.
  destruct (decide (5 ≤ length (validFrom 0 raw))%nat) as [Hn|Hn].
  - assert (Hk : validFrom 0 raw !! 0%nat = Some 0%nat).
    { destruct raw as [|p0 rest]; [discriminate|].
      injection Hraw as ->. reflexivity. }
    rewrite (smoothSegmentPoints_valid raw 0 0 _ Hnodup Hn Hk Hraw).
    rewrite bool_decide_eq_false_2 by lia. reflexivity.
  - rewrite smoothSegmentPoints_short by lia. exact Hraw.
Qed.

(** X27: in the single-mesh builder of [components/Terrain.js], a segment
    built at [x] while the segment that starts at [x - segmentWidth]
    is stored begins exactly where that one ends: the call adds one segment at
    the end of the store, and its first sample is at [x] with [y] and
    [height] both the [y] of the last sample of the stored one. *)
Theorem Classic_createTerrainSegment_joins `{JSMath} `{Classic.World W}
    (x h : Qc) (w : W) (t : Terrain)
    (previousSegment : Segment) (pts : list SamplePoint) (lastPoint : SamplePoint) :
  find (Classic.startsAt (x - segmentWidth)) (terrainMeshes t) = Some previousSegment ->
  points previousSegment = Some pts ->
  list.last pts = Some lastPoint ->
  pt_y lastPoint = Some h ->
  exists segment first rest,
    (Classic.createTerrainSegment x w t).1.1 = Some tt
    ∧ terrainMeshes (Classic.createTerrainSegment x w t).2
      = terrainMeshes t ++ [segment]
    ∧ startX segment = x
    ∧ points segment = Some (first :: rest)
    ∧ pt_x first = x ∧ pt_y first = Some h ∧ pt_height first = Some h.
Proof.
  intros Hfind Hpts Hlast Hy.
  assert (Hprev : Classic.previousEndHeight x (terrainMeshes t) = Some (Some h)).
  { unfold Classic.previousEndHeight. rewrite Hfind, Hpts, Hlast. cbn. rewrite Hy.
    reflexivity. }
  destruct (Classic_createTerrainSegment_run x w t (Some h) Hprev) as [w' Hrun].
  rewrite Hrun. cbn [fst snd].
  set (c := eval (selectChunkType (Classic.difficultyOf x)) t) in *.
  set (t1 := exec (selectChunkType (Classic.difficultyOf x)) t) in *.
  pose proof (Classic_buildPoints_first c x h t1) as Hfirst.
  destruct (eval (Classic.buildPoints c x (Some h)) t1) as [|first rest] eqn:Hbuilt;
    [discriminate|].
  injection Hfirst as ->.
  eexists _, _, rest. split; [reflexivity|].
  split; [reflexivity|]. split; [reflexivity|]. split; [reflexivity|].
  split; [reflexivity|]. split; reflexivity.
Qed.

Lemma Classic_createTerrainSegment_joins_witness :
  let stored := {| startX := ofZ 0;
                   points := Some [ {| pt_x := ofZ 0; pt_y := Some (ofZ 1);
                                       pt_height := Some (ofZ 1) |};
                                    {| pt_x := ofZ 40; pt_y := Some (ofZ 3);
                                       pt_height := Some (ofZ 3) |} ];
                   chunkType := hills |} in
  let t := push stored (newTerrain 42) in
  exists segment first rest,
    terrainMeshes (Classic.createTerrainSegment (H := approxMath) (H0 := Classic.logWorld)
                     (ofZ 40) [] t).2 = [stored; segment]
    ∧ points segment = Some (first :: rest)
    ∧ pt_x first = ofZ 40 ∧ pt_y first = Some (ofZ 3).
Proof.
  cbv zeta.
  set (stored := {| startX := ofZ 0;
                    points := Some [ {| pt_x := ofZ 0; pt_y := Some (ofZ 1);
                                        pt_height := Some (ofZ 1) |};
                                     {| pt_x := ofZ 40; pt_y := Some (ofZ 3);
                                        pt_height := Some (ofZ 3) |} ];
                    chunkType := hills |}).
  destruct (Classic_createTerrainSegment_joins (H := approxMath) (H0 := Classic.logWorld)
              (ofZ 40) (ofZ 3) [] (push stored (newTerrain 42)) stored
              [ {| pt_x := ofZ 0; pt_y := Some (ofZ 1); pt_height := Some (ofZ 1) |};
                {| pt_x := ofZ 40; pt_y := Some (ofZ 3); pt_height := Some (ofZ 3) |} ]
              {| pt_x := ofZ 40; pt_y := Some (ofZ 3); pt_height := Some (ofZ 3) |})
    as (segment & first & rest & _ & Hstore & _ & Hpts & Hx & Hy & _).
  - vm_compute. reflexivity.
  - reflexivity.
  - reflexivity.
  - reflexivity.
  - exists segment, first, rest. auto.
Defined.

(** *** The physics slabs of the single-mesh builder *)

Lemma Classic_gapRangesFrom_ground (points : list SamplePoint) : forall i,
  Forall (fun p => is_Some (pt_height p)) points ->
  Classic.gapRangesFrom i None points = [].
Proof.
  induction points as [|p rest IH]; intros i Hall; [reflexivity|].
  apply list.Forall_cons in Hall as [[v Hp] Hrest].
  cbn [Classic.gapRangesFrom]. rewrite Hp. apply IH. exact Hrest.
Qed.

Lemma Classic_gapRangesFrom_hole (points : list SamplePoint) : forall i start,
  Classic.gapRangesFrom i (Some start) points ≠ [].
Proof.
  induction points as [|p rest IH]; intros i start; [discriminate|].
  cbn [Classic.gapRangesFrom]. destruct (pt_height p); [discriminate | apply IH].
Qed.

Lemma Classic_gapRanges_nil (points : list SamplePoint) :
  Classic.gapRanges points = [] <-> Forall (fun p => is_Some (pt_height p)) points.
Proof.
  unfold Classic.gapRanges. split; [|apply Classic_gapRangesFrom_ground].
  generalize 0%nat. induction points as [|p rest IH]; intros i Hnil; [constructor|].
  cbn [Classic.gapRangesFrom] in Hnil. destruct (pt_height p) as [v|] eqn:Hp.
  - constructor; [rewrite Hp; eauto | apply (IH (S i)); exact Hnil].
  - exfalso. exact (Classic_gapRangesFrom_hole _ _ _ Hnil).
Qed.

(** X28: in the single-mesh builder of [components/Terrain.js], the physics
    of a segment whose samples all have ground is laid twice: the slabs of
    [createPhysicsSegment(points)] are created once as the part after the last
    hole and once more because there is no hole. *)
Theorem Classic_createPhysics_twice `{Classic.World W}
    (points : list SamplePoint) (w : W) (t : Terrain) :
  Forall (fun p => is_Some (pt_height p)) points ->
  Classic.createPhysics points w t
  = (_ ← Classic.createPhysicsSegment points; Classic.createPhysicsSegment points) w t.
Proof.
  intros Hall. apply Classic_gapRanges_nil in Hall.
  unfold Classic.createPhysics. rewrite Hall. cbn [Classic.physicsAroundGaps length].
  rewrite !E_bind_eq. cbn [mret E_ret fst snd].
  rewrite (bool_decide_eq_true_2 (0 = 0)%nat) by reflexivity.
  destruct points as [|p rest].
  - reflexivity.
  - rewrite bool_decide_eq_true_2 by (cbn; lia). reflexivity.
Qed.

Lemma Classic_createPhysics_twice_witness :
  let points := [ {| pt_x := ofZ 0; pt_y := Some (ofZ 1); pt_height := Some (ofZ 1) |};
                  {| pt_x := ofZ 2; pt_y := Some (ofZ 3); pt_height := Some (ofZ 3) |} ] in
  (Classic.createPhysics (H := Classic.logWorld) points [] (newTerrain 42)).1.2
  = [ Classic.PhysicsAddSegment (ofZ 1) (ofZ 2) (ofZ 2) (ofZ 2) (ofZ 2);
      Classic.PhysicsAddSegment (ofZ 1) (ofZ 2) (ofZ 2) (ofZ 2) (ofZ 2) ].
Proof.
  cbv zeta.
  rewrite (Classic_createPhysics_twice (H := Classic.logWorld)).
  - assert (Hcall : forall a a' b b' c c' d d' e e' : Qc,
               a = a' -> b = b' -> c = c' -> d = d' -> e = e' ->
               Classic.PhysicsAddSegment a b c d e = Classic.PhysicsAddSegment a' b' c' d' e')
      by (intros; subst; reflexivity).
    vm_compute. f_equal; [|f_equal]; apply Hcall; apply Qc_is_canon; reflexivity.
  - repeat constructor; cbn; eauto.
Defined.

(** * The join between consecutive segments *)

(** ** The draws of a build *)

Lemma draws_ret {W A} (a : A) : draws (W := W) 0 (mret a).
Proof. intros w t. reflexivity. Qed.

Lemma draws_bind {W A B} (n1 n2 : nat) (m : E W A) (k : A -> E W B) :
  draws n1 m -> (forall a, draws n2 (k a)) -> draws (n1 + n2) (m ≫= k).
Proof.
  intros Hm Hk w t. rewrite E_bind_eq, Hk, Hm.
  rewrite Nat.add_comm. symmetry. apply Nat.iter_add.
Qed.

Lemma draws_keeps_terrain {W A} (m : E W A) : keeps_terrain m -> draws 0 m.
Proof. intros Hm w t. rewrite Hm. reflexivity. Qed.

Lemma draws_seededRandom {W} : draws (W := W) 1 (liftM seededRandom).
Proof. intros w t. reflexivity. Qed.

Lemma draws_forEach {W A} (f : A -> nat) (l : list A) (body : A -> E W unit) :
  (forall a, draws (f a) (body a)) ->
  draws (foldr (fun a n => (f a + n)%nat) 0%nat l) (forEach l body).
Proof.
  intros Hb. induction l as [|a l IH]; simpl.
  - apply draws_ret.
  - apply draws_bind; [apply Hb | intros; apply IH].
Qed.

Lemma draws_forEach_times {W A} (k : nat) (l : list A) (body : A -> E W unit) :
  (forall a, draws k (body a)) -> draws (length l * k) (forEach l body).
Proof.
  intros Hb. induction l as [|a l IH]; simpl.
  - apply draws_ret.
  - apply draws_bind; [apply Hb | intros; apply IH].
Qed.

Lemma draws_when {W} (b : bool) (n : nat) (m : E W unit) :
  draws n m -> draws (if b then n else 0%nat) (when_ b m).
Proof. intros Hm. destruct b; [exact Hm | apply draws_ret]. Qed.

Lemma draws_eq {W A} (n n' : nat) (m : E W A) : n = n' -> draws n m -> draws n' m.
Proof. intros ->. auto. Qed.

Lemma length_groundOf points : length (groundOf points) = length points.
Proof. unfold groundOf. apply length_fmap. Qed.

Lemma length_heightsOf points : length (heightsOf points) = countGround (groundOf points).
Proof.
  unfold heightsOf, countGround, groundOf.
  induction points as [|p ps IH]; [reflexivity|].
  cbn [omap list_omap fmap list_fmap]. rewrite filter_cons.
  destruct (pt_height p) as [h|]; cbn.
  - rewrite decide_True by reflexivity. cbn. f_equal. exact IH.
  - rewrite decide_False by discriminate. exact IH.
Qed.

Lemma length_availableFrom points : forall i len,
  length (availableFrom i len points) = availableCount i len (groundOf points).
Proof.
  induction points as [|p ps IH]; intros i len; [reflexivity|].
  cbn [availableFrom availableCount groundOf fmap list_fmap].
  destruct (bool_decide (2 < i)%nat && bool_decide (i + 3 < len)%nat
            && bool_decide (is_Some (pt_height p))); cbn; rewrite IH; reflexivity.
Qed.

Section Draws.
Context `{Collaborators W}.

Lemma draws_backgroundSubsegment points startX len z depth i :
  draws
    (let g := groundOf points in
     let startIdx := (i * length g / 3)%nat in
     let endIdx := ((i + 1) * length g / 3)%nat in
     if bool_decide (0 < countGround (take (endIdx - startIdx) (drop startIdx g)))%nat
     then 1%nat else 0%nat)
    (backgroundSubsegment points startX len z depth i).
Proof.
  unfold backgroundSubsegment. cbv zeta. rewrite length_groundOf.
  assert (Hg : forall n m, take n (drop m (groundOf points))
                           = groundOf (take n (drop m points)))
    by (intros; unfold groundOf; rewrite fmap_take, fmap_drop; reflexivity).
  rewrite Hg, <- length_heightsOf.
  case_bool_decide.
  - apply (draws_bind 1 0); [apply draws_seededRandom|]. intros r.
    apply draws_keeps_terrain. terrain_tac.
  - apply draws_ret.
Qed.

Lemma draws_createBackgroundPhysics points :
  draws (backgroundDraws (groundOf points)) (createBackgroundPhysics points).
Proof.
  unfold createBackgroundPhysics, backgroundDraws. rewrite length_groundOf.
  case_bool_decide; [apply draws_ret|].
  cbn [forEach seq].
  eapply draws_eq; cycle 1.
  - repeat first
      [ apply draws_ret
      | apply draws_backgroundSubsegment
      | apply draws_bind; [|intros] ].
  - cbv zeta. rewrite !length_groundOf. lia.
Qed.

Lemma draws_createPhysicsForSegment points c :
  draws (backgroundDraws (groundOf points)) (createPhysicsForSegment points c).
Proof.
  unfold createPhysicsForSegment.
  apply (draws_bind 0); [apply draws_keeps_terrain, keeps_terrain_createSideBarriers|].
  intros _.
  apply (draws_bind 0); [apply draws_keeps_terrain, keeps_terrain_createPhysicsSegment|].
  intros _. apply draws_createBackgroundPhysics.
Qed.

Lemma draws_getRandomPoint available :
  draws (if bool_decide (length available = 0)%nat then 0%nat else 1%nat)
    (getRandomPoint (W := W) available).
Proof.
  unfold getRandomPoint. case_bool_decide; [apply draws_ret|].
  apply (draws_bind 1 0); [apply draws_seededRandom | intros; apply draws_ret].
Qed.

Lemma draws_decorationLoop count available (place : nat -> SamplePoint -> E W unit) :
  (forall i p, keeps_terrain (place i p)) ->
  draws (count * (if bool_decide (length available = 0)%nat then 0%nat else 1%nat))
    (decorationLoop count available place).
Proof.
  intros Hplace. unfold decorationLoop.
  eapply draws_eq; [|apply draws_forEach_times].
  - rewrite length_seq. reflexivity.
  - intros i. eapply draws_eq; [|apply draws_bind; [apply draws_getRandomPoint|]].
    + apply Nat.add_0_r.
    + intros [p|]; [apply draws_keeps_terrain, Hplace | apply draws_ret].
Qed.

Lemma draws_decorateZone startX points c zone :
  draws (zoneDraws (groundOf points) c zone) (decorateZone startX points c zone).
Proof.
  unfold decorateZone, zoneDraws, availablePoints. cbv zeta.
  rewrite length_groundOf, <- length_availableFrom.
  apply draws_bind; [|intros _; apply draws_bind; [|intros _]].
  - apply draws_when, draws_decorationLoop. intros. apply keeps_terrain_placeRock.
  - apply draws_when, draws_decorationLoop. intros. apply keeps_terrain_placeTree.
  - apply draws_when.
    apply (draws_bind 0); [apply draws_keeps_terrain, keeps_terrain_placeKeySign|].
    intros _. apply draws_decorationLoop. intros. apply keeps_terrain_placeSign.
Qed.

Lemma draws_addTerrainDecorations startX points c :
  draws (decorationDraws (groundOf points) c) (addTerrainDecorations startX points c).
Proof.
  unfold addTerrainDecorations, decorationDraws.
  apply draws_forEach. intros zone. apply draws_decorateZone.
Qed.

End Draws.

Lemma selectChunkType_chunkFor (d : Qc) (t : Terrain) :
  eval (selectChunkType d) t = chunkFor d (seed t)
  ∧ seed (exec (selectChunkType d) t) = lcg (seed t).
Proof. split; reflexivity. Qed.

(** Which samples of a built segment have ground is fixed by its type. *)
Lemma groundOf_buildPoints `{JSMath} c d startX prev t :
  groundOf (eval (buildPoints c d startX prev) t) = groundPattern c.
Proof.
  apply list_eq. intros i. unfold groundOf, groundPattern.
  rewrite !list_lookup_fmap.
  destruct (decide (i < nbPoints)%nat) as [Hi|Hi].
  - destruct (buildPoints_profile c d startX prev t i Hi) as (p & Hp & _ & Hcase).
    rewrite Hp, lookup_seq_lt by exact Hi. cbn [fmap option_fmap option_map]. f_equal.
    rewrite Nat.add_0_l.
    case_bool_decide as Hhole.
    + destruct Hhole as (-> & Hlo & Hhi). destruct Hcase as [_ Hnone].
      rewrite Hnone.
      rewrite (bool_decide_eq_false_2 (is_Some None)) by (intros [? ?]; discriminate).
      rewrite (bool_decide_eq_true_2 (gap = gap)) by reflexivity.
      apply Nat.leb_le in Hlo. apply Nat.leb_le in Hhi. rewrite Hlo, Hhi. reflexivity.
    + destruct Hcase as (v & _ & Hv). rewrite Hv.
      rewrite bool_decide_eq_true_2 by eauto.
      symmetry. apply negb_true_iff.
      destruct (bool_decide (c = gap)) eqn:Hc; [|reflexivity].
      apply bool_decide_eq_true_1 in Hc.
      destruct (9 <=? i)%nat eqn:Hlo; [|reflexivity].
      destruct (i <=? 20)%nat eqn:Hhi; [|reflexivity].
      exfalso. apply Hhole. apply Nat.leb_le in Hlo. apply Nat.leb_le in Hhi. auto.
  - rewrite lookup_ge_None_2 by (rewrite length_buildPoints; lia).
    rewrite lookup_ge_None_2 by (rewrite length_seq; lia). reflexivity.
Qed.

Section BuildState.
Context `{JSMath} `{Collaborators W}.

#[local] Opaque buildPoints selectChunkType createPhysicsForSegment addTerrainDecorations.

(** What a build that does not throw returns and leaves: the segment, the
    store with it at the end, and the seed after its draws. *)
Lemma createTerrainSegment_state x (w : W) t prev :
  previousEndHeight (terrainMeshes t) = Some prev ->
  exists w' t',
    createTerrainSegment x w t = (Some (builtSegment x prev t), w', t')
    ∧ terrainMeshes t' = terrainMeshes t ++ [builtSegment x prev t]
    ∧ seed t' = seedAfterBuild x (seed t).
Proof.
  intros Hprev. unfold seedAfterBuild. cbv zeta.
  destruct (selectChunkType_chunkFor (difficultyAt x) t) as [Hc Hs].
  rewrite <- Hc, <- Hs.
  rewrite <- (groundOf_buildPoints (eval (selectChunkType (difficultyAt x)) t)
                (difficultyAt x) x prev (exec (selectChunkType (difficultyAt x)) t)).
  clear Hc Hs.
  unfold createTerrainSegment, builtSegment, eval, exec.
  pose proof (selectChunkType_store (difficultyAt x) t) as Hsc.
  unfold mbind at 1. unfold E_bind at 1. unfold liftM at 1.
  destruct (selectChunkType (difficultyAt x) t) as [c t1]. cbn [fst snd] in *.
  unfold mbind at 1. unfold E_bind at 1. unfold liftM at 1. cbn [gets].
  rewrite Hsc, Hprev.
  unfold mbind at 1. unfold E_bind at 1. unfold liftM at 1.
  pose proof (readonly_buildPoints c (difficultyAt x) x prev t1) as Hro.
  destruct (buildPoints c (difficultyAt x) x prev t1) as [pts t2]. cbn [fst snd] in *.
  subst t2.
  do 3 (unfold mbind at 1; unfold E_bind at 1; unfold ext at 1;
        match goal with |- context [answer ?c0 ?w0] => destruct (answer c0 w0) as [? ?] end).
  unfold mbind at 1. unfold E_bind at 1.
  match goal with |- context [createPhysicsForSegment pts c ?w0 t1] =>
    pose proof (keeps_store_createPhysicsForSegment pts c w0 t1) as Hphys;
    pose proof (draws_createPhysicsForSegment pts c w0 t1) as Dphys;
    destruct (createPhysicsForSegment pts c w0 t1) as [[? wp] t3] end.
  unfold mbind at 1. unfold E_bind at 1.
  pose proof (keeps_store_addTerrainDecorations x pts c wp t3) as Hdeco.
  pose proof (draws_addTerrainDecorations x pts c wp t3) as Ddeco.
  destruct (addTerrainDecorations x pts c wp t3) as [[? wd] t4].
  cbn [fst snd] in *.
  unfold mbind at 1. unfold E_bind at 1. unfold liftM at 1.
  cbn [fst snd modify mret E_ret].
  eexists _, _. split; [reflexivity|].
  cbn [push set_terrainMeshes terrainMeshes seed].
  split.
  - rewrite Hdeco, Hphys, Hsc. reflexivity.
  - rewrite Ddeco, Dphys, Nat.add_comm, Nat.iter_add. reflexivity.
Qed.

#[local] Transparent buildPoints selectChunkType createPhysicsForSegment addTerrainDecorations.

Lemma seedAfterLoop_S (step : Qc -> Z -> Z) (n : nat) (i s : Z) :
  seedAfterLoop step (S n) i s = seedAfterLoop step n (i + 1) (step (ofZ i * segmentWidth) s).
Proof. reflexivity. Qed.

Lemma initialize_loop_S (n : nat) (i : Z) (w w' : W) (t t' : Terrain) segment :
  createTerrainSegment (ofZ i * segmentWidth) w t = (Some segment, w', t') ->
  initialize_loop (S n) i w t = initialize_loop n (i + 1) w' t'.
Proof. intros Hrun. cbn [initialize_loop]. rewrite E_bind_eq, Hrun. reflexivity. Qed.

Lemma initialize_loop_state (n : nat) :
  forall (i : Z) (w : W) (t : Terrain),
  previousEndHeight (terrainMeshes t) ≠ None ->
  seed (initialize_loop n i w t).2 = seedAfterBuilds n i (seed t).
Proof.
  induction n as [|n IH]; intros i w t Hprev; [reflexivity|].
  destruct (previousEndHeight (terrainMeshes t)) as [previous|] eqn:Hp; [|contradiction].
  destruct (createTerrainSegment_state (ofZ i * segmentWidth) w t previous Hp)
    as (w' & t' & Hrun & Hstore & Hseed).
  destruct (previousEndHeight_after_build (terrainMeshes t) (ofZ i * segmentWidth) previous t)
    as [h Hh].
  rewrite <- Hstore in Hh.
  rewrite (initialize_loop_S n i w w' t t' _ Hrun), IH by (rewrite Hh; discriminate).
  unfold seedAfterBuilds in *. rewrite seedAfterLoop_S, Hseed. reflexivity.
Qed.

End BuildState.

(** ** The end of a hills segment *)

Lemma difficultyAt_range (x : Qc) : 0 ≤ difficultyAt x ∧ difficultyAt x ≤ num 0.99.
Proof.
  unfold difficultyAt, Math_min, Math_max.
  repeat case_bool_decide; split; qc_poly; lra.
Qed.

(** The raw height stays within 2.34 of zero. *)
Lemma rawHeight_range `{JSMath} (x difficulty : Qc) (t : Terrain) :
  0 ≤ difficulty ->
  - num 2.34 ≤ rawHeight x difficulty t ∧ rawHeight x difficulty t ≤ num 2.34.
Proof.
  intros Hd. unfold rawHeight. cbv zeta.
  destruct (improvedNoise_range x (num 0.05) 3 (num 0.5) (num 2.0) t) as [B0 B1];
    [lia | vm_compute; discriminate |].
  destruct (improvedNoise_range x (num 0.2) 2 (num 0.3) (num 2.5) t) as [D0 D1];
    [lia | vm_compute; discriminate |].
  set (b := eval (improvedNoise x (num 0.05) 3 (num 0.5) (num 2.0)) t) in *.
  set (d := eval (improvedNoise x (num 0.2) 2 (num 0.3) (num 2.5)) t) in *.
  clearbody b d.
  assert (Ha : num 1.2 ≤ Math_min (num 1.2 + Math_min (difficulty * num 0.6) (num 0.5)
                                              * num 1.3) (num 1.8)
               ∧ Math_min (num 1.2 + Math_min (difficulty * num 0.6) (num 0.5) * num 1.3)
                   (num 1.8) ≤ num 1.8).
  { unfold Math_min. repeat case_bool_decide; split; qc_poly; lra. }
  set (a := Math_min _ (num 1.8)) in *. clearbody a. destruct Ha as [A0 A1].
  split; qc_poly; nra.
Qed.

(** Away from the start of the span and without a stored height half a unit
    to the left, [generateHills] answers the raw height, also at the very
    end of the span, where the border blend has weight zero. *)
Lemma generateHills_plain `{JSMath} (x startX endX difficulty : Qc) (t : Terrain) :
  eval (getTerrainHeightNear (x - num 0.5)) t = JUndefined ->
  num 1.0 ≤ x - startX -> num 1.0 ≤ endX - x ∨ endX = x ->
  eval (generateHills x startX endX difficulty) t = rawHeight x difficulty t.
Proof.
  intros Hnear Hstart Hend.
  unfold generateHills, generateHills_with, eval, rawHeight.
  rewrite M_bind_eq, improvedNoise_run. cbn [fst snd].
  rewrite M_bind_eq, improvedNoise_run. cbn [fst snd].
  rewrite M_bind_eq, getTerrainHeightNear_run. cbn [fst snd]. rewrite Hnear.
  cbv zeta. unfold eval.
  set (raw := (improvedNoise x (num 0.05) 3 (num 0.5) (num 2.0) t).1 * _ + _).
  clearbody raw.
  rewrite (bool_decide_eq_false_2 (x - startX < num 1.0)) by (apply Qcle_not_lt; exact Hstart).
  destruct Hend as [Hend | ->].
  - rewrite (bool_decide_eq_false_2 (endX - x < num 1.0)) by (apply Qcle_not_lt; exact Hend).
    reflexivity.
  - rewrite (bool_decide_eq_true_2 (x - x < num 1.0)) by (qc_poly; lra).
    rewrite M_bind_eq.
    destruct (getTerrainHeightAt (x + num 0.1) t).1 as [n| |]; try reflexivity.
    cbn [mret M_ret fst].
    replace (x - x) with 0 by ring. rewrite quinticInterpolation_0. ring.
Qed.

Lemma validFrom_all_ground (points : list SamplePoint) : forall i,
  Forall (fun p => is_Some (pt_height p)) points ->
  validFrom i points = seq i (length points).
Proof.
  induction points as [|p ps IH]; intros i Hall; [reflexivity|].
  apply list.Forall_cons in Hall as [[h Hp] Hrest].
  cbn [validFrom length seq]. rewrite Hp. f_equal. apply IH. exact Hrest.
Qed.

Lemma rawPoints_ground `{JSMath} c d startX prev t :
  c ≠ gap ->
  Forall (fun p => is_Some (pt_height p))
    (mapM (samplePoint c d startX prev) (seq 0 nbPoints) t).1.
Proof.
  intros Hc. apply list.Forall_lookup. intros i p Hp.
  assert (Hi : (i < nbPoints)%nat).
  { apply lookup_lt_Some in Hp. rewrite length_mapM, length_seq in Hp. exact Hp. }
  rewrite rawPoints_lookup in Hp by exact Hi. injection Hp as <-.
  destruct (samplePoint_ground c d startX prev i t Hc) as (v & _ & Hv).
  rewrite Hv. eauto.
Qed.

(** The last two samples of a segment without gap pass the smoothing loop
    with their generated height. *)
Lemma buildPoints_tail `{JSMath} c d startX prev t i :
  c ≠ gap -> (28 ≤ i)%nat -> (i < nbPoints)%nat ->
  eval (buildPoints c d startX prev) t !! i
  = Some (settle (samplePoint c d startX prev i t).1).
Proof.
  intros Hc Hlo Hi. unfold eval, buildPoints. rewrite M_bind_eq. cbn [mret M_ret fst].
  set (raw := (mapM (samplePoint c d startX prev) (seq 0 nbPoints) t).1).
  assert (Hraw : raw !! i = Some (samplePoint c d startX prev i t).1)
    by (apply rawPoints_lookup; exact Hi).
  pose proof (rawPoints_NoDup c d startX prev t) as Hnodup. fold raw in Hnodup.
  pose proof (rawPoints_ground c d startX prev t Hc) as Hground. fold raw in Hground.
  assert (Hlen : length raw = nbPoints)
    by (unfold raw; rewrite length_mapM, length_seq; reflexivity).
  assert (Hvalid : validFrom 0 raw = seq 0 nbPoints)
    by (rewrite (validFrom_all_ground raw 0 Hground), Hlen; reflexivity).
  rewrite (smoothSegmentPoints_valid raw i i (samplePoint c d startX prev i t).1 Hnodup).
  - rewrite Hvalid, length_seq.
    rewrite bool_decide_eq_false_2 by (unfold nbPoints in *; lia). reflexivity.
  - rewrite Hvalid, length_seq. unfold nbPoints. lia.
  - rewrite Hvalid. apply lookup_seq. split; [reflexivity | exact Hi].
  - exact Hraw.
Qed.

Lemma samplePoint_hills_late `{JSMath} d startX prev i t :
  (5 ≤ i)%nat ->
  (samplePoint hills d startX prev i t).1
  = {| pt_x := sampleX startX i;
       pt_y := Some (eval (generateHills (sampleX startX i) startX (startX + segmentWidth) d) t);
       pt_height :=
         Some (eval (generateHills (sampleX startX i) startX (startX + segmentWidth) d) t) |}.
Proof.
  intros Hi. unfold samplePoint. rewrite M_bind_eq, M_fmap_eq. cbn [mret M_ret fst].
  rewrite (bool_decide_eq_false_2 (hills = gap)) by discriminate. cbn [andb].
  rewrite (bool_decide_eq_false_2 (i < 5)%nat) by lia. rewrite andb_false_r.
  destruct prev; reflexivity.
Qed.

Lemma sampleX_last (startX : Qc) : sampleX startX 29 = startX + segmentWidth.
Proof.
  unfold sampleX, nbPoints.
  change (Z.of_nat 30 - 1)%Z with 29%Z. change (Z.of_nat 29) with 29%Z.
  apply Qc_is_canon. qc_lra.
Qed.

(** The last two samples of a hills segment built where the store holds
    nothing next to them: both are raw heights. *)
Lemma hills_tail `{JSMath} d startX prev t i :
  (28 ≤ i)%nat -> (i < nbPoints)%nat ->
  find (covers (sampleX startX i - num 0.5)) (terrainMeshes t) = None ->
  eval (buildPoints hills d startX prev) t !! i
  = Some {| pt_x := sampleX startX i;
            pt_y := Some (rawHeight (sampleX startX i) d t);
            pt_height := Some (rawHeight (sampleX startX i) d t) |}.
Proof.
  intros Hlo Hi Hfree.
  rewrite buildPoints_tail by (try discriminate; assumption).
  rewrite samplePoint_hills_late by lia.
  rewrite generateHills_plain; [reflexivity | | |].
  - apply getTerrainHeightNear_uncovered. exact Hfree.
  - assert (Hx : startX + num 38 ≤ sampleX startX i).
    { unfold sampleX, nbPoints.
      assert (Hi28 : ofZ 28 ≤ ofZ (Z.of_nat i)).
      { unfold Qcle. rewrite !this_ofZ. rewrite <- Zle_Qle. lia. }
      set (k := ofZ (Z.of_nat i)) in *. clearbody k.
      change (Z.of_nat 30 - 1)%Z with 29%Z. qc_lra. }
    qc_lra.
  - unfold nbPoints in Hi.
    destruct (decide (i = 29%nat)) as [->|Hne].
    + right. symmetry. apply sampleX_last.
    + left. assert (i = 28%nat) as -> by lia.
      unfold sampleX, nbPoints.
      change (Z.of_nat 30 - 1)%Z with 29%Z. change (Z.of_nat 28) with 28%Z. qc_lra.
Qed.

(** ** The first sample of a gap segment *)

Lemma sampleX_first (startX : Qc) : sampleX startX 0 = startX.
Proof.
  unfold sampleX, nbPoints.
  change (Z.of_nat 30 - 1)%Z with 29%Z. change (Z.of_nat 0) with 0%Z.
  apply Qc_is_canon. qc_lra.
Qed.

(** Sample 0 of a gap segment is the hills height at its start, raised by
    0.5; nothing joins it to the previous height. *)
Lemma samplePoint_gap_first `{JSMath} d startX prev t :
  let adjustedDifficulty := Math_min (d * num 0.7) (num 0.6) in
  let foot := gapStart startX (startX + segmentWidth) d
              - (startX + segmentWidth - startX) * num 0.15 in
  let y := eval (generateHills startX startX foot (adjustedDifficulty * num 0.3)) t
           + num 0.5 in
  (samplePoint gap d startX prev 0 t).1
  = {| pt_x := startX; pt_y := Some y; pt_height := Some y |}.
Proof.
  cbv zeta. unfold samplePoint.
  fold (sampleX startX 0). rewrite sampleX_first.
  rewrite M_bind_eq. cbn [mret M_ret fst].
  rewrite (bool_decide_eq_true_2 (gap = gap)) by reflexivity. rewrite andb_true_l.
  rewrite isGap_index by (unfold nbPoints; lia). cbn [Nat.leb andb].
  assert (Hgen : (generateGap startX startX (startX + segmentWidth) d t).1
                 = Some (eval (generateHills startX startX
                                 (gapStart startX (startX + segmentWidth) d
                                  - (startX + segmentWidth - startX) * num 0.15)
                                 (Math_min (d * num 0.7) (num 0.6) * num 0.3)) t
                         + num 0.5)).
  { unfold generateGap. cbv zeta.
    destruct (void_window_bounds startX d) as [Hs _].
    set (gs := gapStart _ _ _) in *. clearbody gs.
    rewrite bool_decide_eq_true_2 by qc_lra.
    rewrite M_bind_eq. reflexivity. }
  rewrite Hgen. destruct prev; reflexivity.
Qed.

Lemma buildPoints_gap_first `{JSMath} d startX prev t :
  eval (buildPoints gap d startX prev) t !! 0%nat
  = Some (samplePoint gap d startX prev 0 t).1.
Proof.
  unfold eval, buildPoints. rewrite M_bind_eq. cbn [mret M_ret fst].
  set (raw := (mapM (samplePoint gap d startX prev) (seq 0 nbPoints) t).1).
  assert (Hraw : raw !! 0%nat = Some (samplePoint gap d startX prev 0 t).1)
    by (apply rawPoints_lookup; unfold nbPoints; lia).
  pose proof (rawPoints_NoDup gap d startX prev t) as Hnodup. fold raw in Hnodup.
  pose proof (samplePoint_gap_first d startX prev t) as Hfirst. cbv zeta in Hfirst.
  rewrite Hfirst in *.
  destruct (decide (5 ≤ length (validFrom 0 raw))%nat) as [Hn|Hn].
  - assert (Hk : validFrom 0 raw !! 0%nat = Some 0%nat).
    { destruct raw as [|p0 rest]; [discriminate|].
      injection Hraw as ->. reflexivity. }
    rewrite (smoothSegmentPoints_valid raw 0 0 _ Hnodup Hn Hk Hraw).
    rewrite bool_decide_eq_false_2 by lia. reflexivity.
  - rewrite smoothSegmentPoints_short by lia. exact Hraw.
Qed.

(** ** The hills height at the start of a segment that follows a stored one *)

Lemma floor_between (z : Z) (x : Qc) : ofZ z ≤ x -> x < ofZ z + 1 -> Math_floor x = z.
Proof.
  intros Hlo Hhi.
  assert (z ≤ Math_floor x)%Z by (apply floor_ge; exact Hlo).
  assert (Math_floor x < z + 1)%Z by (apply floor_lt; rewrite ofZ_succ; exact Hhi).
  lia.
Qed.

(** At the start [x] of a span, next to a stored segment of 30 samples that
    ends at [x], [generateHills] answers either the [y] of its last sample
    (the raw height is more than 0.15 away from it) or the height
    interpolated between its last two samples at [x - 0.1]. *)
Lemma generateHills_at_join `{JSMath} (x endX d : Qc) (t : Terrain)
    (previous : Segment) (pts : list SamplePoint) (p28 p29 : SamplePoint) (y28 y29 : Qc) :
  find (covers (x - num 0.5)) (terrainMeshes t) = Some previous ->
  find (covers (x - num 0.1)) (terrainMeshes t) = Some previous ->
  startX previous = x - segmentWidth ->
  points previous = Some pts -> length pts = 30%nat ->
  pts !! 28%nat = Some p28 -> pts !! 29%nat = Some p29 ->
  pt_y p28 = Some y28 -> is_Some (pt_height p28) -> pt_y p29 = Some y29 ->
  let c := cubicInterpolation (num 0.9275) in
  eval (generateHills x x endX d) t = y29
  ∨ eval (generateHills x x endX d) t = y28 * (1 - c) + y29 * c.
Proof.
  intros Hnear Hat Hsx Hpts Hlen H28 H29 Hy28 Hg28 Hy29 c.
  assert (Hprev : eval (getTerrainHeightNear (x - num 0.5)) t = JNum y29).
  { unfold eval, getTerrainHeightNear. rewrite M_bind_eq.
    cbn [gets fst snd mret M_ret]. rewrite Hnear, Hpts, Hsx, Hlen.
    replace ((x - num 0.5 - (x - segmentWidth)) / segmentWidth * ofZ (Z.of_nat 30))
      with (num 29.625) by (apply Qc_is_canon; change (Z.of_nat 30) with 30%Z; qc_lra).
    change (Math_floor (num 29.625)) with 29%Z.
    unfold at_index. cbn [bool_decide decide_rel]. change (Z.to_nat 29) with 29%nat.
    rewrite bool_decide_eq_true_2 by lia. rewrite H29. cbn. rewrite Hy29. reflexivity. }
  assert (Hquery : (getTerrainHeightAt (x - num 0.1) t).1
                   = JNum (y28 * (1 - c) + y29 * c)).
  { rewrite (getTerrainHeightAt_covered _ t previous Hat). cbn [fst].
    destruct (find_covers _ _ _ Hat) as (_ & Hlo & Hhi).
    destruct (heightInSegment_blend previous pts (x - num 0.1) Hpts ltac:(lia) Hlo Hhi)
      as (p1 & p2 & Hp1 & Hp2 & Hval).
    cbv zeta in Hp1, Hp2, Hval.
    rewrite Hsx, Hlen in Hp1, Hp2, Hval.
    assert (Hscaled : (x - num 0.1 - (x - segmentWidth)) / segmentWidth
                      * ofZ (Z.of_nat 30 - 1) = num 28.9275)
      by (apply Qc_is_canon; change (Z.of_nat 30 - 1)%Z with 29%Z; qc_lra).
    rewrite Hscaled in Hp1, Hp2, Hval.
    change (Math_floor (num 28.9275)) with 28%Z in Hp1, Hp2, Hval.
    change (Z.to_nat 28) with 28%nat in Hp1, Hp2.
    assert (p1 = p28) by congruence. assert (p2 = p29) by congruence. subst p1 p2.
    rewrite Hval. destruct Hg28 as [h28 Hh28]. rewrite Hh28, Hy28, Hy29.
    replace (num 28.9275 - ofZ 28) with (num 0.9275) by (apply Qc_is_canon; reflexivity).
    reflexivity. }
  unfold generateHills, generateHills_with, eval.
  rewrite M_bind_eq, improvedNoise_run. cbn [fst snd].
  rewrite M_bind_eq, improvedNoise_run. cbn [fst snd].
  rewrite M_bind_eq, getTerrainHeightNear_run. cbn [fst snd]. rewrite Hprev.
  cbv zeta. unfold eval.
  set (raw := (improvedNoise x (num 0.05) 3 (num 0.5) (num 2.0) t).1 * _ + _).
  clearbody raw.
  case_bool_decide as Hdelta.
  - left.
    assert (Hq : quinticInterpolation (1 - Math_min (Math_abs (raw - y29) / num 0.15) 1) = 0).
    { unfold Math_min.
      rewrite (bool_decide_eq_false_2 (Math_abs (raw - y29) / num 0.15 ≤ 1)).
      - replace (1 - 1) with 0 by ring. apply quinticInterpolation_0.
      - apply Qclt_not_le.
        set (dl := Math_abs (raw - y29)) in *. clearbody dl. qc_poly. lra. }
    cbn [mret M_ret fst]. rewrite Hq. ring.
  - right.
    rewrite (bool_decide_eq_true_2 (x - x < num 1.0)) by (qc_poly; lra).
    rewrite M_bind_eq. fold getTerrainHeightAt. rewrite Hquery.
    cbn [mret M_ret fst].
    replace (x - x) with 0 by ring. rewrite quinticInterpolation_0.
    fold c. ring.
Qed.

(** With both of those samples within 2.34 of zero, a height 0.5 above
    either answer is at least 0.4 above the last sample. *)
Lemma join_offset (y28 y29 h : Qc) :
  - num 2.34 ≤ y28 -> y28 ≤ num 2.34 -> - num 2.34 ≤ y29 -> y29 ≤ num 2.34 ->
  let c := cubicInterpolation (num 0.9275) in
  h = y29 ∨ h = y28 * (1 - c) + y29 * c ->
  y29 + num 0.4 ≤ h + num 0.5.
Proof.
  intros A0 A1 B0 B1 c Hh. subst c.
  replace (cubicInterpolation (num 0.9275)) with (num (31519789 # 32000000)) in Hh
    by (apply Qc_is_canon; vm_compute; reflexivity).
  destruct Hh as [-> | ->]; qc_poly; lra.
Qed.

(** ** A join that is not exact *)

Lemma find_nowhere {A} (f : A -> bool) (l : list A) :
  (forall a, a ∈ l -> f a = false) -> find f l = None.
Proof.
  intros Hl. induction l as [|a l IH]; [reflexivity|].
  simpl. rewrite (Hl a) by left. apply IH. intros b Hb. apply Hl. right. exact Hb.
Qed.

(** Nothing the constructor stores reaches 600. *)
Lemma initial_store_ends (segs : list Segment) (x : Qc) :
  startX <$> segs = (fun k : nat => ofZ (-5 + Z.of_nat k) * segmentWidth) <$> seq 0 20 ->
  num 600 ≤ x -> forall s, s ∈ segs -> covers x s = false.
Proof.
  intros Hxs Hx s Hs.
  assert (Hin : startX s ∈ startX <$> segs) by (apply list_elem_of_fmap_2; exact Hs).
  rewrite Hxs in Hin. apply list_elem_of_fmap in Hin as (k & Hk & Hkin).
  apply elem_of_seq in Hkin.
  assert (Hle : ofZ (-5 + Z.of_nat k) ≤ ofZ 14).
  { unfold Qcle. rewrite !this_ofZ. rewrite <- Zle_Qle. lia. }
  unfold covers. rewrite Hk.
  set (j := ofZ (-5 + Z.of_nat k)) in *. clearbody j.
  rewrite (bool_decide_eq_false_2 (x < _)); [apply andb_false_r|].
  apply Qcle_not_lt. qc_lra.
Qed.

Lemma sampleX_tail (startX : Qc) (i : nat) :
  (28 ≤ i)%nat -> startX + num 38 ≤ sampleX startX i.
Proof.
  intros Hi. unfold sampleX, nbPoints.
  assert (Hi28 : ofZ 28 ≤ ofZ (Z.of_nat i)).
  { unfold Qcle. rewrite !this_ofZ. rewrite <- Zle_Qle. lia. }
  set (k := ofZ (Z.of_nat i)) in *. clearbody k.
  change (Z.of_nat 30 - 1)%Z with 29%Z. qc_lra.
Qed.

Lemma covers_inside (x a : Qc) (s : Segment) :
  startX s = a -> a ≤ x -> x < a + segmentWidth -> covers x s = true.
Proof.
  intros <- Hlo Hhi. unfold covers. rewrite !bool_decide_eq_true_2; auto.
Qed.

Lemma covers_right (x a : Qc) (s : Segment) :
  startX s = a -> a + segmentWidth ≤ x -> covers x s = false.
Proof.
  intros <- Hhi. unfold covers.
  rewrite (bool_decide_eq_false_2 (x < _)); [apply andb_false_r|].
  apply Qcle_not_lt. exact Hhi.
Qed.

Lemma scenario_chunks :
  chunkFor (difficultyAt (num 1480)) (seedAfterBuilds 20 (-5) 14) = hills
  ∧ chunkFor (difficultyAt (num 1520))
      (seedAfterBuild (num 1480) (seedAfterBuilds 20 (-5) 14)) = gap.
Proof. vm_compute. split; reflexivity. Qed.

Section Join.
Context `{JSMath} `{Collaborators W}.

(** What the constructor leaves: the twenty segments and the seed. *)
Lemma constructor_state (s : Z) (w : W) :
  startX <$> terrainMeshes (constructor s w).2
  = (fun k : nat => ofZ (-5 + Z.of_nat k) * segmentWidth) <$> seq 0 20
  ∧ (exists previous, previousEndHeight (terrainMeshes (constructor s w).2) = Some previous)
  ∧ seed (constructor s w).2 = seedAfterBuilds 20 (-5) s.
Proof.
  unfold constructor, initialize. cbv zeta.
  destruct (initialize_loop_builds 20 (-5) w (newTerrain s)) as (_ & built & Hstore & Hxs & Hall);
    [discriminate|].
  cbn [newTerrain terrainMeshes app] in Hstore.
  split; [rewrite Hstore; exact Hxs|]. split.
  - rewrite Hstore. apply previousEndHeight_sampled.
    unfold sampled. eapply list.Forall_impl; [exact Hall|].
    intros seg (pts & Hpts & Hlen). exists pts. split; [exact Hpts|].
    intros ->. discriminate.
  - rewrite initialize_loop_state by discriminate. reflexivity.
Qed.

(** C3, at the failing input, for every sine and every collaborator: after
    [new Terrain(scene, world, 14)], [createTerrainSegment(1480)] builds a
    hills segment and [createTerrainSegment(1520)], right after it, a gap
    segment; the first sample of the segment at 1520 lies at least 0.4
    above the last sample of the segment at 1480, and that is the height
    the query answers at 1520.  Sample 0 of a gap segment is the hills
    height 0.5 higher; nothing sets it to the previous height. *)
Theorem gap_segment_join_not_exact (w : W) :
  let constructed := constructor 14 w in
  let first := createTerrainSegment (num 1480) constructed.1.2 constructed.2 in
  let second := createTerrainSegment (num 1520) first.1.2 first.2 in
  exists before after ending starting h h',
    first.1.1 = Some before ∧ second.1.1 = Some after
    ∧ startX before = num 1480 ∧ startX after = num 1520
    ∧ chunkType before = hills ∧ chunkType after = gap
    ∧ lastSample before = Some ending
    ∧ pt_y ending = Some h ∧ pt_height ending = Some h
    ∧ firstSample after = Some starting
    ∧ pt_y starting = Some h' ∧ pt_height starting = Some h'
    ∧ h + num 0.4 ≤ h'
    ∧ (getTerrainHeightAt (num 1520) second.2).1 = JNum h'.
Proof.
  cbv zeta.
  destruct (constructor_state 14 w) as (Hxs & [prev0 Hprev0] & Hseed0).
  destruct scenario_chunks as [Hhills Hgap].
  set (w0 := (constructor 14 w).1.2). set (t0 := (constructor 14 w).2) in *.
  clearbody w0 t0.
  (* the segment at 1480 *)
  destruct (createTerrainSegment_state (num 1480) w0 t0 prev0 Hprev0)
    as (w1 & t1 & Hrun1 & Hstore1 & Hseed1).
  rewrite Hrun1. cbn [fst snd].
  destruct (builtSegment_fields (num 1480) prev0 t0) as (Hsx1 & Hct1 & Hpts1).
  destruct (selectChunkType_chunkFor (difficultyAt (num 1480)) t0) as [Hc1 _].
  rewrite Hc1, Hseed0, Hhills in Hct1. rewrite Hct1 in Hpts1.
  set (t0' := exec (selectChunkType (difficultyAt (num 1480))) t0) in *.
  assert (Hstore0' : terrainMeshes t0' = terrainMeshes t0) by reflexivity.
  clearbody t0'.
  set (before := builtSegment (num 1480) prev0 t0) in *. clearbody before.
  set (d1 := difficultyAt (num 1480)) in *.
  assert (Hd1 : 0 ≤ d1) by apply difficultyAt_range.
  clearbody d1.
  set (pts1 := eval (buildPoints hills d1 (num 1480) prev0) t0') in *.
  assert (Hfree : forall i, (28 ≤ i)%nat -> (i < nbPoints)%nat ->
            find (covers (sampleX (num 1480) i - num 0.5)) (terrainMeshes t0') = None).
  { intros i Hlo Hhi. rewrite Hstore0'. apply find_nowhere.
    apply (initial_store_ends _ _ Hxs).
    apply Qcle_trans with (num 1480 + num 38 - num 0.5); [vm_compute; discriminate|].
    apply Qcplus_le_compat; [apply sampleX_tail; exact Hlo | apply Qcle_refl]. }
  pose proof (hills_tail d1 (num 1480) prev0 t0' 28 ltac:(lia) ltac:(unfold nbPoints; lia)
                (Hfree 28%nat ltac:(lia) ltac:(unfold nbPoints; lia))) as H28.
  pose proof (hills_tail d1 (num 1480) prev0 t0' 29 ltac:(lia) ltac:(unfold nbPoints; lia)
                (Hfree 29%nat ltac:(lia) ltac:(unfold nbPoints; lia))) as H29.
  fold pts1 in H28, H29.
  destruct (rawHeight_range (sampleX (num 1480) 28) d1 t0' Hd1) as [A0 A1].
  destruct (rawHeight_range (sampleX (num 1480) 29) d1 t0' Hd1) as [B0 B1].
  set (y28 := rawHeight (sampleX (num 1480) 28) d1 t0') in *.
  set (y29 := rawHeight (sampleX (num 1480) 29) d1 t0') in *.
  clearbody y28 y29.
  assert (Hlen1 : length pts1 = 30%nat) by apply length_buildPoints.
  clearbody pts1. clear Hfree.
  set (p28 := {| pt_x := sampleX (num 1480) 28; pt_y := Some y28; pt_height := Some y28 |})
    in *.
  set (p29 := {| pt_x := sampleX (num 1480) 29; pt_y := Some y29; pt_height := Some y29 |})
    in *.
  assert (Hlast1 : list.last pts1 = Some p29).
  { rewrite last_lookup, Hlen1. exact H29. }
  assert (Hprev1 : previousEndHeight (terrainMeshes t1) = Some (Some y29)).
  { rewrite Hstore1. unfold previousEndHeight. rewrite last_snoc, Hpts1, Hlast1. reflexivity. }
  (* the segment at 1520 *)
  destruct (createTerrainSegment_state (num 1520) w1 t1 (Some y29) Hprev1)
    as (w2 & t2 & Hrun2 & Hstore2 & Hseed2).
  rewrite Hrun2. cbn [fst snd].
  destruct (builtSegment_fields (num 1520) (Some y29) t1) as (Hsx2 & Hct2 & Hpts2).
  destruct (selectChunkType_chunkFor (difficultyAt (num 1520)) t1) as [Hc2 _].
  rewrite Hc2, Hseed1, Hseed0, Hgap in Hct2. rewrite Hct2 in Hpts2.
  set (t1' := exec (selectChunkType (difficultyAt (num 1520))) t1) in *.
  assert (Hstore1' : terrainMeshes t1' = terrainMeshes t0 ++ [before])
    by (rewrite <- Hstore1; reflexivity).
  clearbody t1'.
  set (after := builtSegment (num 1520) (Some y29) t1) in *. clearbody after.
  set (d2 := difficultyAt (num 1520)) in *. clearbody d2.
  pose proof (buildPoints_gap_first d2 (num 1520) (Some y29) t1') as Hfirst.
  pose proof (samplePoint_gap_first d2 (num 1520) (Some y29) t1') as Hsample.
  cbv zeta in Hsample. rewrite Hsample in Hfirst. clear Hsample.
  assert (Hcover : forall x, num 1519 ≤ x -> x < num 1520 ->
            find (covers x) (terrainMeshes t1') = Some before).
  { intros x Hlo Hhi. rewrite Hstore1'. apply find_app_last.
    - apply (initial_store_ends _ _ Hxs).
      apply Qcle_trans with (num 1519); [vm_compute; discriminate | exact Hlo].
    - apply (covers_inside x (num 1480) before Hsx1).
      + apply Qcle_trans with (num 1519); [vm_compute; discriminate | exact Hlo].
      + apply Qclt_le_trans with (num 1520); [exact Hhi | vm_compute; discriminate]. }
  pose proof (generateHills_at_join (num 1520)
                (gapStart (num 1520) (num 1520 + segmentWidth) d2
                 - (num 1520 + segmentWidth - num 1520) * num 0.15)
                (Math_min (d2 * num 0.7) (num 0.6) * num 0.3)
                t1' before pts1 p28 p29 y28 y29) as Hjoin.
  cbv zeta in Hjoin.
  assert (Hnear : find (covers (num 1520 - num 0.5)) (terrainMeshes t1') = Some before)
    by (apply Hcover; [vm_compute; discriminate | vm_compute; reflexivity]).
  assert (Hat : find (covers (num 1520 - num 0.1)) (terrainMeshes t1') = Some before)
    by (apply Hcover; [vm_compute; discriminate | vm_compute; reflexivity]).
  assert (Hadj : startX before = num 1520 - segmentWidth)
    by (rewrite Hsx1; apply Qc_is_canon; vm_compute; reflexivity).
  assert (Hg28 : is_Some (pt_height p28)) by (exists y28; reflexivity).
  specialize (Hjoin Hnear Hat Hadj Hpts1 Hlen1 H28 H29 eq_refl Hg28 eq_refl).
  pose proof (join_offset y28 y29 _ A0 A1 B0 B1 Hjoin) as Hoffset.
  set (hills0 := eval (generateHills (num 1520) (num 1520) _ _) t1') in *.
  clearbody hills0. clear Hjoin.
  set (pts2 := eval (buildPoints gap d2 (num 1520) (Some y29)) t1') in *.
  assert (Hlen2 : length pts2 = 30%nat) by apply length_buildPoints.
  clearbody pts2.
  set (p0 := {| pt_x := num 1520; pt_y := Some (hills0 + num 0.5);
                pt_height := Some (hills0 + num 0.5) |}) in *.
  (* the query at the boundary *)
  assert (Hquery : (getTerrainHeightAt (num 1520) t2).1 = JNum (hills0 + num 0.5)).
  { assert (Hfind : find (covers (num 1520)) (terrainMeshes t2) = Some after).
    { rewrite Hstore2, Hstore1. apply find_app_last.
      - intros b Hb. apply elem_of_app in Hb as [Hb|Hb].
        + apply (initial_store_ends _ _ Hxs); [vm_compute; discriminate | exact Hb].
        + apply list_elem_of_singleton in Hb as ->.
          apply (covers_right _ (num 1480) _ Hsx1). vm_compute. discriminate.
      - apply (covers_inside _ (num 1520) _ Hsx2);
          [vm_compute; discriminate | vm_compute; reflexivity]. }
    rewrite (getTerrainHeightAt_covered _ t2 after Hfind). cbn [fst].
    destruct (find_covers _ _ _ Hfind) as (_ & Hlo & Hhi).
    destruct (heightInSegment_blend after pts2 (num 1520) Hpts2 ltac:(lia) Hlo Hhi)
      as (q1 & q2 & Hq1 & Hq2 & Hval).
    cbv zeta in Hq1, Hq2, Hval. rewrite Hsx2, Hlen2 in Hq1, Hq2, Hval.
    assert (Hscaled : (num 1520 - num 1520) / segmentWidth * ofZ (Z.of_nat 30 - 1) = ofZ 0)
      by (apply Qc_is_canon; vm_compute; reflexivity).
    rewrite Hscaled, Math_floor_ofZ in Hq1, Hq2, Hval.
    change (Z.to_nat 0) with 0%nat in Hq1, Hq2.
    assert (q1 = p0) by congruence. subst q1.
    rewrite Hval. cbn [p0 pt_height pt_y toNumber default].
    replace (ofZ 0 - ofZ 0) with 0 by ring. rewrite cubicInterpolation_0.
    f_equal. unfold id. ring. }
  exists before, after, p29, p0, y29, (hills0 + num 0.5).
  split; [reflexivity|]. split; [reflexivity|].
  split; [exact Hsx1|]. split; [exact Hsx2|].
  split; [exact Hct1|]. split; [exact Hct2|].
  split; [unfold lastSample; rewrite Hpts1; exact Hlast1|].
  split; [reflexivity|]. split; [reflexivity|].
  split; [unfold firstSample; rewrite Hpts2; cbn; rewrite head_lookup; exact Hfirst|].
  split; [reflexivity|]. split; [reflexivity|].
  split; [exact Hoffset | exact Hquery].
Qed.

End Join.
